(** * Port polling engine of the Modbus gateway: model and properties

    A shallow embedding of the numeric decoder ([src/utils.py],
    class [DataConverter]), of the statistics recorder and of the
    planning and scheduling parts of the port manager
    ([src/port_manager.py], classes [PortStatistics] and [PortManager]).

    Conventions.
    - A Python [int] is a [Z]; [&], [|], [<<], [>>] are [Z.land], [Z.lor],
      [Z.shiftl], [Z.shiftr].
    - A Python [str] is a [string] (ASCII text).
    - A Python [float] is an IEEE-754 binary64 number.  The numeric
      decoder computes with such numbers: a finite float is given by its
      value, a rational, every operation rounds to the nearest binary64
      ([binary64]), [inf] and [nan] are separate constructors, and [0.0]
      and [-0.0], which are equal in Python, are one value.
    - Times (intervals, delays, latencies) and the rates of the
      statistics are exact rationals ([Q]); the rounding error of their
      arithmetic is outside the model.
    - A function that may raise returns [result]: [Ok v] for a normal
      return, [Raise e] for an exception. *)

From stdpp Require Import base option list gmap strings.
From Stdlib Require Import ZArith QArith Qround Qabs Qpower String Ascii List Lia Bool.
From Stdlib Require Import Sorted Permutation.
Import ListNotations.

Local Open Scope string_scope.
Local Open Scope Z_scope.

(* ===================================================================== *)
(** * Python values and exceptions *)
(* ===================================================================== *)

(** The exceptions the modelled code raises, with what they report. *)
Inductive py_error : Type :=
| EmptyRegisters                        (* ValueError: empty register array *)
| NeedTwoRegisters (data_type : string) (* ValueError: type needs 2 registers *)
| UnknownDataType (data_type : string)  (* ValueError: unknown data type *)
| RegisterOutOfRange (value : Z)        (* ValueError: register not in 0..65535 *)
| UnknownByteOrder (byteorder : string) (* ValueError: unknown byte order *)
| BitsLength (len : nat)                (* ValueError: bit string not 16 long *)
| InvalidLiteral (text : string)        (* ValueError of int(text, 2) *)
| StructError (value : Z)               (* struct.error of struct.pack('>HH') *)
| MinOfEmpty                            (* ValueError of min() on no items *)
| IntTooLarge (value : Z).              (* OverflowError: int too large for a float *)

Inductive result (A : Type) : Type :=
| Ok (a : A)
| Raise (e : py_error).
Arguments Ok {A} a.
Arguments Raise {A} e.

Definition bind {A B} (r : result A) (k : A -> result B) : result B :=
  match r with
  | Ok a => k a
  | Raise e => Raise e
  end.

Declare Scope py_scope.
Notation "'let*' x ':=' r 'in' k" := (bind r (fun x => k))
  (at level 10, x name, r at level 100, k at level 200) : py_scope.
Local Open Scope py_scope.

Definition raises {A} (r : result A) : Prop := exists e, r = Raise e.
Definition returns {A} (r : result A) : Prop := exists v, r = Ok v.

(** Python floats: IEEE-754 binary64 numbers.  A finite float is given
    by its value; [0.0] and [-0.0] are one value. *)
Inductive pyfloat : Type :=
| FFinite (q : Q)
| FInf (negative : bool)
| FNaN.

(** What [convert_value] and [convert_from_registers] return:
    [Union[int, float, bool]]. *)
Inductive pyval : Type :=
| PyInt (z : Z)
| PyBool (b : bool)
| PyFloat (f : pyfloat).

(** Rounding of a rational to the nearest integer, ties to the even one. *)
Definition round_half_even (q : Q) : Z :=
  let f := Qfloor q in
  match ((q - inject_Z f) ?= (1 # 2))%Q with
  | Lt => f
  | Gt => f + 1
  | Eq => if Z.even f then f else f + 1
  end.

(** The integer part of the binary logarithm of a positive rational. *)
Definition Qlog2 (q : Q) : Z :=
  let e := Z.log2 (Qnum q) - Z.log2 (Z.pos (Qden q)) in
  match (q ?= Qpower (2 # 1) e)%Q with
  | Lt => e - 1
  | _ => e
  end.

(** The largest finite float, [2^1024 - 2^971], plus half a unit in its
    last place: from this magnitude on rounding gives infinity. *)
Definition binary64_overflow : Z := 2 ^ 1024 - 2 ^ 970.

(** The binary64 number nearest to a real number, ties to the even
    mantissa: a mantissa of 53 bits, a unit in the last place of
    [2^-1074] at least (subnormal numbers), infinity on overflow.  It is
    the float that a number written in the source or in a configuration
    file denotes, and the result of an arithmetic operation whose exact
    result is that number. *)
Definition binary64 (q : Q) : pyfloat :=
  let a := Qabs q in
  let negative := match (q ?= 0)%Q with Lt => true | _ => false end in
  if Qle_bool (inject_Z binary64_overflow) a then FInf negative
  else
    match (a ?= 0)%Q with
    | Eq => FFinite 0
    | _ =>
        let ulp := Qpower (2 # 1) (Z.max (Qlog2 a - 52) (-1074)) in
        let r := (inject_Z (round_half_even (a / ulp)) * ulp)%Q in
        FFinite (Qred (if negative then - r else r))
    end.

(** [x * y] and [x + y] on floats; neither raises. *)
Definition fmul (x y : pyfloat) : pyfloat :=
  match x, y with
  | FNaN, _ | _, FNaN => FNaN
  | FInf s, FInf t => FInf (xorb s t)
  | FInf s, FFinite q | FFinite q, FInf s =>
      match (q ?= 0)%Q with
      | Eq => FNaN
      | Lt => FInf (negb s)
      | Gt => FInf s
      end
  | FFinite p, FFinite q => binary64 (p * q)
  end.

Definition fadd (x y : pyfloat) : pyfloat :=
  match x, y with
  | FNaN, _ | _, FNaN => FNaN
  | FInf s, FInf t => if Bool.eqb s t then FInf s else FNaN
  | FInf s, FFinite _ | FFinite _, FInf s => FInf s
  | FFinite p, FFinite q => binary64 (p + q)
  end.

(** [x * scale + offset] for a float [x] and the floats that [scale] and
    [offset] denote. *)
Definition fscale (x : pyfloat) (scale offset : Q) : pyfloat :=
  fadd (fmul x (binary64 scale)) (binary64 offset).

(** Python's [round(x, ndigits)] on a float, for [ndigits >= 0]: the
    decimal with [ndigits] digits after the point that is nearest to
    [x], ties to the even digit, and then the float nearest to that
    decimal. *)
Definition py_round (x : pyfloat) (ndigits : Z) : pyfloat :=
  match x with
  | FFinite q =>
      let p := Qpower (10 # 1) ndigits in
      binary64 (inject_Z (round_half_even (q * p)) / p)
  | _ => x
  end.

(** [value = value * scale + offset], then
    [if precision >= 0 and isinstance(value, float): value = round(value, precision)].
    With a float [scale] the product is a float whatever [value] was. *)
Definition scale_and_round (x : pyfloat) (scale offset : Q) (precision : Z)
  : pyval :=
  let value := fscale x scale offset in
  PyFloat (if 0 <=? precision then py_round value precision else value).

(** The float a Python number is converted to in mixed arithmetic;
    [bool] is a subclass of [int], [True] counts as 1.  An [int] is
    rounded to the nearest float, and one beyond the range of the floats
    raises [OverflowError]. *)
Definition to_float (v : pyval) : result pyfloat :=
  match v with
  | PyInt z =>
      match binary64 (inject_Z z) with
      | FInf _ => Raise (IntTooLarge z)
      | f => Ok f
      end
  | PyBool b => Ok (FFinite (inject_Z (if b then 1 else 0)))
  | PyFloat f => Ok f
  end.

(** [x in [a, b, ...]] on strings. *)
Definition str_in (x : string) (l : list string) : bool :=
  existsb (String.eqb x) l.

(** The exceptions of the bit and byte helpers and of the buffers, and
    the result of a function that may raise one of them. *)
Inductive py_exception : Type :=
| BitPositionOutOfRange (bit_position : Z)  (* ValueError: not in 0..15 *)
| BitValueInvalid (bit_value : Z)           (* ValueError: not 0 or 1 *)
| HighByteOutOfRange (high_byte : Z)        (* ValueError: not in 0..255 *)
| LowByteOutOfRange (low_byte : Z)          (* ValueError: not in 0..255 *)
| ByteOrderUnknown (byteorder : string)     (* ValueError: unknown byte order *)
| IndexError                                (* list assignment out of range *)
| ZeroDivisionError.                        (* modulo by zero *)

Inductive outcome (A : Type) : Type :=
| Return (a : A)
| Throw (e : py_exception).
Arguments Return {A} a.
Arguments Throw {A} e.

(* ===================================================================== *)
(** * [utils.DataConverter] *)
(* ===================================================================== *)

Module DataConverter.

(** [((value & 0xFF) << 8) | ((value >> 8) & 0xFF)] *)
Definition swap_bytes_16 (value : Z) : Z :=
  Z.lor (Z.shiftl (Z.land value 255) 8) (Z.land (Z.shiftr value 8) 255).

Definition int16_to_signed (value : Z) (byteorder : string) : Z :=
  let value :=
    if String.eqb byteorder "little"
    then Z.lor (Z.shiftl (Z.land value 255) 8) (Z.land (Z.shiftr value 8) 255)
    else value in
  if 32768 <=? value then value - 65536 else value.

Definition int32_from_registers (high low : Z) (byteorder wordorder : string)
  : Z :=
  (* word order *)
  let '(high, low) :=
    if String.eqb wordorder "little" then (low, high) else (high, low) in
  (* byte order inside each word *)
  let '(high, low) :=
    if String.eqb byteorder "little"
    then (Z.lor (Z.shiftl (Z.land high 255) 8) (Z.land (Z.shiftr high 8) 255),
          Z.lor (Z.shiftl (Z.land low 255) 8) (Z.land (Z.shiftr low 8) 255))
    else (high, low) in
  let value := Z.lor (Z.shiftl high 16) low in
  if 2147483648 <=? value then value - 4294967296 else value.

Definition uint32_from_registers (high low : Z) (byteorder wordorder : string)
  : Z :=
  let '(high, low) :=
    if String.eqb wordorder "little" then (low, high) else (high, low) in
  let '(high, low) :=
    if String.eqb byteorder "little"
    then (Z.lor (Z.shiftl (Z.land high 255) 8) (Z.land (Z.shiftr high 8) 255),
          Z.lor (Z.shiftl (Z.land low 255) 8) (Z.land (Z.shiftr low 8) 255))
    else (high, low) in
  Z.lor (Z.shiftl high 16) low.

(** [struct.unpack('>f', bits)]: the IEEE-754 binary32 value of a 32-bit
    pattern. *)
Definition binary32_value (bits : Z) : pyfloat :=
  let negative := Z.testbit bits 31 in
  let e := Z.land (Z.shiftr bits 23) 255 in
  let m := Z.land bits 8388607 in
  let signed (q : Q) := if negative then (- q)%Q else q in
  if e =? 255 then (if m =? 0 then FInf negative else FNaN)
  else if e =? 0 then FFinite (signed (inject_Z m * Qpower (2 # 1) (-149))%Q)
  else FFinite (signed (inject_Z (8388608 + m) * Qpower (2 # 1) (e - 150))%Q).

(** [struct.pack('>HH', high, low)] refuses a word outside 0..65535. *)
Definition float_from_registers (high low : Z) (byteorder wordorder : string)
  : result pyfloat :=
  let '(high, low) :=
    if String.eqb wordorder "little" then (low, high) else (high, low) in
  let '(high, low) :=
    if String.eqb byteorder "little"
    then (Z.lor (Z.shiftl (Z.land high 255) 8) (Z.land (Z.shiftr high 8) 255),
          Z.lor (Z.shiftl (Z.land low 255) 8) (Z.land (Z.shiftr low 8) 255))
    else (high, low) in
  if negb ((0 <=? high) && (high <=? 65535)) then Raise (StructError high)
  else if negb ((0 <=? low) && (low <=? 65535)) then Raise (StructError low)
  else Ok (binary32_value (Z.lor (Z.shiftl high 16) low)).

Definition convert_value (raw_value : Z) (data_type : string)
    (scale offset : Q) (precision : Z) (byteorder wordorder : string)
  : result pyval :=
  let value :=
    if String.eqb data_type "int16" then
      PyInt (int16_to_signed raw_value byteorder)
    else if String.eqb data_type "uint16" then
      PyInt (if String.eqb byteorder "little"
             then Z.lor (Z.shiftl (Z.land raw_value 255) 8)
                        (Z.land (Z.shiftr raw_value 8) 255)
             else raw_value)
    else if String.eqb data_type "bool" then
      PyBool (negb (raw_value =? 0))
    else
      (* 32-bit and float values need two registers; that case is
         handled in port_manager.py *)
      PyInt raw_value in
  (* isinstance(value, (int, float)) holds in every branch *)
  let* value := to_float value in
  Ok (scale_and_round value scale offset precision).

Definition convert_from_registers (registers : list Z) (data_type : string)
    (byteorder wordorder : string) (scale offset : Q) (precision : Z)
  : result pyval :=
  match registers with
  | [] => Raise EmptyRegisters
  | r0 :: rest =>
      if str_in data_type ["int16"; "uint16"; "bool"] then
        convert_value r0 data_type scale offset precision byteorder wordorder
      else if str_in data_type ["int32"; "uint32"; "float"] then
        match rest with
        | [] => Raise (NeedTwoRegisters data_type)
        | r1 :: _ =>
            let* value :=
              if String.eqb data_type "int32" then
                Ok (PyInt (int32_from_registers r0 r1 byteorder wordorder))
              else if String.eqb data_type "uint32" then
                Ok (PyInt (uint32_from_registers r0 r1 byteorder wordorder))
              else
                let* f := float_from_registers r0 r1 byteorder wordorder in
                Ok (PyFloat f)
            in
            let* value := to_float value in
            Ok (scale_and_round value scale offset precision)
        end
      else Raise (UnknownDataType data_type)
  end.

(** [format(n, '08b')]: binary digits, sign first, zero-filled to width 8. *)
Fixpoint bin_digits (p : positive) : string :=
  match p with
  | xH => "1"
  | xO p' => bin_digits p' ++ "0"
  | xI p' => bin_digits p' ++ "1"
  end.

Fixpoint zeros (n : nat) : string :=
  match n with
  | O => ""
  | S n' => String "0" (zeros n')
  end.

Definition format_08b (n : Z) : string :=
  let sign := match n with Zneg _ => "-" | _ => "" end in
  let digits :=
    match n with
    | Z0 => "0"
    | Zpos p => bin_digits p
    | Zneg p => bin_digits p
    end in
  sign ++ zeros (8 - String.length sign - String.length digits) ++ digits.

(** [int(text, 2)] on ASCII text: surrounding whitespace, an optional
    sign, an optional [0b] or [0B] prefix, then binary digits that single
    underscores may separate. *)
Definition is_space (c : ascii) : bool :=
  let n := nat_of_ascii c in
  ((9 <=? n) && (n <=? 13))%nat || (n =? 32)%nat.

Fixpoint lstrip (s : string) : string :=
  match s with
  | String c s' => if is_space c then lstrip s' else s
  | EmptyString => EmptyString
  end.

Fixpoint rstrip (s : string) : string :=
  match s with
  | String c s' =>
      match rstrip s' with
      | EmptyString => if is_space c then EmptyString else String c EmptyString
      | t => String c t
      end
  | EmptyString => EmptyString
  end.

Fixpoint scan_digits (acc : Z) (after_underscore : bool) (s : string)
  : option Z :=
  match s with
  | EmptyString => if after_underscore then None else Some acc
  | String c s' =>
      if Ascii.eqb c "0" then scan_digits (2 * acc) false s'
      else if Ascii.eqb c "1" then scan_digits (2 * acc + 1) false s'
      else if Ascii.eqb c "_" then
        (if after_underscore then None else scan_digits acc true s')
      else None
  end.

Definition int_base2 (text : string) : result Z :=
  let s := rstrip (lstrip text) in
  let '(negative, s) :=
    match s with
    | String c s' =>
        if Ascii.eqb c "-" then (true, s')
        else if Ascii.eqb c "+" then (false, s')
        else (false, s)
    | EmptyString => (false, s)
    end in
  let s :=
    match s with
    | String c0 (String c1 s') =>
        if Ascii.eqb c0 "0" && (Ascii.eqb c1 "b" || Ascii.eqb c1 "B") then
          match s' with
          | String c2 s'' => if Ascii.eqb c2 "_" then s'' else s'
          | EmptyString => s'
          end
        else s
    | _ => s
    end in
  match s with
  | EmptyString => Raise (InvalidLiteral text)
  | String c _ =>
      if Ascii.eqb c "_" then Raise (InvalidLiteral text)
      else
        match scan_digits 0 false s with
        | Some n => Ok (if negative then - n else n)
        | None => Raise (InvalidLiteral text)
        end
  end.

Definition register_to_bits (register_value : Z) (byteorder : string)
  : result string :=
  if negb ((0 <=? register_value) && (register_value <=? 65535)) then
    Raise (RegisterOutOfRange register_value)
  else
    let* bytes :=
      if String.eqb byteorder "big" then
        Ok (Z.land (Z.shiftr register_value 8) 255, Z.land register_value 255)
      else if String.eqb byteorder "little" then
        Ok (Z.land register_value 255, Z.land (Z.shiftr register_value 8) 255)
      else Raise (UnknownByteOrder byteorder) in
    let '(byte1, byte2) := bytes in
    let bits1 := format_08b byte1 in
    let bits2 := format_08b byte2 in
    Ok (bits1 ++ bits2).

Definition register_bits_to_bytes (bits_str : string) (byteorder : string)
  : result Z :=
  if negb (String.length bits_str =? 16)%nat then
    Raise (BitsLength (String.length bits_str))
  else
    let bits1 := substring 0 8 bits_str in
    let bits2 := substring 8 (String.length bits_str - 8) bits_str in
    let* byte1 := int_base2 bits1 in
    let* byte2 := int_base2 bits2 in
    if String.eqb byteorder "big" then
      Ok (Z.lor (Z.shiftl byte1 8) byte2)
    else if String.eqb byteorder "little" then
      Ok (Z.lor (Z.shiftl byte2 8) byte1)
    else Raise (UnknownByteOrder byteorder).

(** ** The remaining bit and byte helpers *)

Definition swap_bytes_32 (value : Z) : Z :=
  Z.lor
    (Z.lor
       (Z.lor (Z.shiftr (Z.land value 4278190080) 24)
              (Z.shiftr (Z.land value 16711680) 8))
       (Z.shiftl (Z.land value 65280) 8))
    (Z.shiftl (Z.land value 255) 24).

Definition get_bit_from_register (register_value bit_position : Z)
    (byteorder : string) : outcome Z :=
  if negb ((0 <=? bit_position) && (bit_position <=? 15)) then
    Throw (BitPositionOutOfRange bit_position)
  else
    let register_value :=
      if String.eqb byteorder "little"
      then Z.lor (Z.shiftl (Z.land register_value 255) 8)
                 (Z.land (Z.shiftr register_value 8) 255)
      else register_value in
    let bit_value := Z.land (Z.shiftr register_value bit_position) 1 in
    Return bit_value.

Definition set_bit_in_register (register_value bit_position bit_value : Z)
    (byteorder : string) : outcome Z :=
  if negb ((0 <=? bit_position) && (bit_position <=? 15)) then
    Throw (BitPositionOutOfRange bit_position)
  else if negb ((bit_value =? 0) || (bit_value =? 1)) then
    Throw (BitValueInvalid bit_value)
  else
    let register_value :=
      if String.eqb byteorder "little"
      then Z.lor (Z.shiftl (Z.land register_value 255) 8)
                 (Z.land (Z.shiftr register_value 8) 255)
      else register_value in
    let register_value :=
      if negb (bit_value =? 0)
      then Z.lor register_value (Z.shiftl 1 bit_position)
      else Z.land register_value (Z.lnot (Z.shiftl 1 bit_position)) in
    let register_value :=
      if String.eqb byteorder "little"
      then Z.lor (Z.shiftl (Z.land register_value 255) 8)
                 (Z.land (Z.shiftr register_value 8) 255)
      else register_value in
    Return register_value.

(** Returns the pair [(high_byte, low_byte)]. *)
Definition split_register_to_bytes (register_value : Z) (byteorder : string)
  : outcome (Z * Z) :=
  if String.eqb byteorder "big" then
    let high_byte := Z.land (Z.shiftr register_value 8) 255 in
    let low_byte := Z.land register_value 255 in
    Return (high_byte, low_byte)
  else if String.eqb byteorder "little" then
    let low_byte := Z.land (Z.shiftr register_value 8) 255 in
    let high_byte := Z.land register_value 255 in
    Return (high_byte, low_byte)
  else Throw (ByteOrderUnknown byteorder).

Definition bytes_to_register (high_byte low_byte : Z) (byteorder : string)
  : outcome Z :=
  if negb ((0 <=? high_byte) && (high_byte <=? 255)) then
    Throw (HighByteOutOfRange high_byte)
  else if negb ((0 <=? low_byte) && (low_byte <=? 255)) then
    Throw (LowByteOutOfRange low_byte)
  else if String.eqb byteorder "big" then
    Return (Z.lor (Z.shiftl high_byte 8) low_byte)
  else if String.eqb byteorder "little" then
    Return (Z.lor (Z.shiftl low_byte 8) high_byte)
  else Throw (ByteOrderUnknown byteorder).

End DataConverter.

(** [utils.async_retry(max_retries, delay, exceptions)].  [func attempt] is
    how the decorated function ends when called in iteration [attempt];
    the result is the list of the sleeps made and how the wrapper ends. *)
Inductive call_outcome (A : Type) : Type :=
| Returned (a : A)
| RaisedListed      (* an exception of [exceptions] *)
| RaisedOther.      (* any other exception *)
Arguments Returned {A} a.
Arguments RaisedListed {A}.
Arguments RaisedOther {A}.

Fixpoint async_retry_from {A} (max_retries : Z) (delay : Q)
    (func : nat -> call_outcome A) (attempt todo : nat)
  : list Q * call_outcome A :=
  match todo with
  | O =>
      (* raise last_exception; [raise None] is a TypeError *)
      ([], match attempt with O => RaisedOther | _ => RaisedListed end)
  | S todo' =>
      match func attempt with
      | Returned a => ([], Returned a)
      | RaisedOther => ([], RaisedOther)
      | RaisedListed =>
          let sleeps :=
            if Z.of_nat attempt <? max_retries - 1 then [delay] else [] in
          let '(more, outcome) :=
            async_retry_from max_retries delay func (S attempt) todo' in
          ((sleeps ++ more)%list, outcome)
      end
  end.

Definition async_retry {A} (max_retries : Z) (delay : Q)
    (func : nat -> call_outcome A) : list Q * call_outcome A :=
  async_retry_from max_retries delay func 0 (Z.to_nat max_retries).

(** [utils.CircularBuffer] *)
Module CircularBuffer.
Section Items.
Context {A : Type}.

Record t := {
  max_size : Z;
  buffer : list A;
  write_index : Z;
  size : Z
}.

(** [__init__(max_size)] *)
Definition init (max_size : Z) : t :=
  {| max_size := max_size; buffer := []; write_index := 0; size := 0 |}.

(** [l[i] = x]: an index below zero counts from the end. *)
Definition list_assign (l : list A) (i : Z) (x : A) : outcome (list A) :=
  let n := Z.of_nat (length l) in
  if (0 <=? i) && (i <? n) then Return (<[Z.to_nat i := x]> l)
  else if (- n <=? i) && (i <? 0) then Return (<[Z.to_nat (n + i) := x]> l)
  else Throw IndexError.

(** The position a slice bound [i] stands for in a list of length [n]. *)
Definition slice_bound (i : Z) (n : nat) : nat :=
  let i := if i <? 0 then i + Z.of_nat n else i in
  Z.to_nat (Z.max 0 (Z.min i (Z.of_nat n))).

(** [append(item)]: the object afterwards and the exception raised, if
    any. *)
Definition append (self : t) (item : A) : t * option py_exception :=
  if size self <? max_size self then
    ({| max_size := max_size self;
        buffer := (buffer self ++ [item])%list;
        write_index := write_index self;
        size := size self + 1 |}, None)
  else
    match list_assign (buffer self) (write_index self) item with
    | Throw e => (self, Some e)
    | Return buffer' =>
        let self :=
          {| max_size := max_size self; buffer := buffer';
             write_index := write_index self; size := size self |} in
        if max_size self =? 0 then (self, Some ZeroDivisionError)
        else
          ({| max_size := max_size self; buffer := buffer self;
              write_index := (write_index self + 1) mod max_size self;
              size := size self |}, None)
    end.

Definition get_all (self : t) : list A :=
  if size self <? max_size self then buffer self
  else
    (drop (slice_bound (write_index self) (length (buffer self))) (buffer self)
     ++ take (slice_bound (write_index self) (length (buffer self)))
          (buffer self))%list.

Definition clear (self : t) : t :=
  {| max_size := max_size self; buffer := []; write_index := 0; size := 0 |}.

(** [__len__] *)
Definition len (self : t) : Z := size self.

(** Appending the items of a list one after the other, up to the first
    exception. *)
Fixpoint extend (self : t) (items : list A) : t * option py_exception :=
  match items with
  | [] => (self, None)
  | item :: items' =>
      match append self item with
      | (self', None) => extend self' items'
      | raised => raised
      end
  end.

End Items.
Arguments t A : clear implicits.
End CircularBuffer.

(** The last [n] items of a list. *)
Definition last_items {A} (n : nat) (l : list A) : list A :=
  drop (length l - n) l.

(** What a circular buffer of capacity [m] is after the items [items]
    were appended to a new one: the buffer read from the write index on,
    around the end, is the last [m] items. *)
Definition holds {A} (m : nat) (self : CircularBuffer.t A) (items : list A)
  : Prop :=
  CircularBuffer.max_size self = Z.of_nat m
  /\ CircularBuffer.size self = Z.of_nat (length (CircularBuffer.buffer self))
  /\ length (CircularBuffer.buffer self) = Nat.min (length items) m
  /\ exists w,
       CircularBuffer.write_index self = Z.of_nat w /\ (w < m)%nat
       /\ ((length (CircularBuffer.buffer self) < m)%nat -> w = 0%nat)
       /\ (drop w (CircularBuffer.buffer self)
             ++ take w (CircularBuffer.buffer self))%list
          = last_items m items.

(* ===================================================================== *)
(** * [models]: configuration records and enumerations *)
(* ===================================================================== *)

(** [a < b] on floats. *)
Definition Qltb (a b : Q) : bool :=
  match (a ?= b)%Q with Lt => true | _ => false end.

Module models.

Inductive ConnectionType := TCP | RTU_TCP | RTU_SERIAL.

Inductive RegisterType := HOLDING | INPUT | COIL | DISCRETE.

Inductive DataType := INT16 | UINT16 | INT32 | UINT32 | FLOAT | BOOL.

Inductive PortStatus := RUNNING | STOPPED | ERROR | CONNECTING | DISCONNECTED.

(** The [.value] of the string enumerations. *)
Definition RegisterType_value (t : RegisterType) : string :=
  match t with
  | HOLDING => "holding"
  | INPUT => "input"
  | COIL => "coil"
  | DISCRETE => "discrete"
  end.

Definition DataType_value (t : DataType) : string :=
  match t with
  | INT16 => "int16"
  | UINT16 => "uint16"
  | INT32 => "int32"
  | UINT32 => "uint32"
  | FLOAT => "float"
  | BOOL => "bool"
  end.

Record RegisterConfig := {
  reg_type : RegisterType;
  reg_address : Z;
  reg_name : string;
  reg_description : string;
  reg_unit : string;
  reg_scale : Q;
  reg_offset : Q;
  reg_data_type : DataType;
  reg_read_only : bool;
  reg_precision : Z;
  reg_byteorder : string;
  reg_wordorder : string
}.

Record DeviceConfig := {
  dev_name : string;
  dev_description : string;
  dev_address : Z;
  dev_port_name : string;
  dev_poll_interval : Q;
  dev_timeout : Q;
  dev_enabled : bool;
  dev_registers : list RegisterConfig
}.

(** Fields are named after the source's, with the record's prefix. *)
Record PortConfig := {
  port_name : string;
  port_description : string;
  port_type : ConnectionType;
  port_host : option string;
  port_port : option Z;
  port_port_name : option string;
  port_baudrate : Z;
  port_parity : string;
  port_stopbits : Z;
  port_bytesize : Z;
  port_timeout : Q;
  port_max_retries : Z;
  port_retry_delay : Q;
  port_enabled : bool;
  port_devices : list DeviceConfig;
  port_byteorder : string;
  port_wordorder : string
}.

End models.
Import models.

(* ===================================================================== *)
(** * [port_manager.PortStatistics] *)
(* ===================================================================== *)

Module PortStatistics.

(** One entry of [device_stats]. *)
Record device_stat := {
  d_total_polls : Z;
  d_successful_polls : Z;
  d_failed_polls : Z;
  d_last_response_time : Q
}.

(** The [defaultdict] factory. *)
Definition device_stat_default : device_stat :=
  {| d_total_polls := 0; d_successful_polls := 0; d_failed_polls := 0;
     d_last_response_time := 0 |}.

(** The object state.  [response_times] is the [deque(maxlen=100)],
    oldest entry first; time stamps are clock readings. *)
Record t := {
  stat_port_name : string;
  total_polls : Z;
  successful_polls : Z;
  failed_polls : Z;
  response_times : list Q;
  last_success : option Q;
  last_error : option Q;
  error_count : Z;
  connected_devices : gset string;
  device_stats : gmap string device_stat
}.

Definition maxlen : nat := 100.

(** [__init__] *)
Definition init (port_name : string) : t :=
  {| stat_port_name := port_name;
     total_polls := 0; successful_polls := 0; failed_polls := 0;
     response_times := []; last_success := None; last_error := None;
     error_count := 0; connected_devices := ∅; device_stats := ∅ |}.

(** [deque.append] on a bounded deque: when it is full the entry at the
    other end is discarded. *)
Definition deque_append (d : list Q) (x : Q) : list Q :=
  if (maxlen <=? length d)%nat then (tl d ++ [x])%list else (d ++ [x])%list.

(** [record_poll(device_name, success, response_time)]; [now] is what
    [datetime.now()] reads. *)
Definition record_poll (now : Q) (self : t) (device_name : string)
    (success : bool) (response_time : Q) : t :=
  (* self.total_polls += 1 *)
  let total := total_polls self + 1 in
  let self :=
    if negb (String.eqb device_name "") then
      (* device_stat = self.device_stats[device_name] *)
      let device_stat :=
        default device_stat_default (device_stats self !! device_name) in
      let d_total := d_total_polls device_stat + 1 in
      if success then
        {| stat_port_name := stat_port_name self;
           total_polls := total;
           successful_polls := successful_polls self + 1;
           failed_polls := failed_polls self;
           response_times := response_times self;
           last_success := Some now;
           last_error := last_error self;
           error_count := error_count self;
           connected_devices := connected_devices self ∪ {[ device_name ]};
           device_stats :=
             <[ device_name :=
                  {| d_total_polls := d_total;
                     d_successful_polls := d_successful_polls device_stat + 1;
                     d_failed_polls := d_failed_polls device_stat;
                     d_last_response_time := response_time |} ]>
             (device_stats self) |}
      else
        {| stat_port_name := stat_port_name self;
           total_polls := total;
           successful_polls := successful_polls self;
           failed_polls := failed_polls self + 1;
           response_times := response_times self;
           last_success := last_success self;
           last_error := Some now;
           error_count := error_count self + 1;
           connected_devices := connected_devices self;
           device_stats :=
             <[ device_name :=
                  {| d_total_polls := d_total;
                     d_successful_polls := d_successful_polls device_stat;
                     d_failed_polls := d_failed_polls device_stat + 1;
                     d_last_response_time :=
                       d_last_response_time device_stat |} ]>
             (device_stats self) |}
    else
      {| stat_port_name := stat_port_name self;
         total_polls := total;
         successful_polls := successful_polls self;
         failed_polls := failed_polls self;
         response_times := response_times self;
         last_success := last_success self;
         last_error := last_error self;
         error_count := error_count self;
         connected_devices := connected_devices self;
         device_stats := device_stats self |} in
  if Qltb 0 response_time then
    {| stat_port_name := stat_port_name self;
       total_polls := total_polls self;
       successful_polls := successful_polls self;
       failed_polls := failed_polls self;
       response_times := deque_append (response_times self) response_time;
       last_success := last_success self;
       last_error := last_error self;
       error_count := error_count self;
       connected_devices := connected_devices self;
       device_stats := device_stats self |}
  else self.

(** The dictionary [get_stats] returns. *)
Record stats := {
  s_port_name : string;
  s_total_polls : Z;
  s_successful_polls : Z;
  s_failed_polls : Z;
  s_success_rate : Q;
  s_avg_response_time_ms : Q;
  s_last_success : option Q;
  s_last_error : option Q;
  s_error_count : Z;
  s_connected_devices : Z;
  s_device_stats : gmap string device_stat
}.

Definition Qsum (l : list Q) : Q := fold_left Qplus l 0%Q.

Definition get_stats (self : t) : stats :=
  let avg_response_time :=
    match response_times self with
    | [] => 0%Q
    | _ => (Qsum (response_times self)
            / inject_Z (Z.of_nat (length (response_times self))))%Q
    end in
  let success_rate :=
    if 0 <? total_polls self
    then (inject_Z (successful_polls self) / inject_Z (total_polls self)
          * inject_Z 100)%Q
    else 0%Q in
  {| s_port_name := stat_port_name self;
     s_total_polls := total_polls self;
     s_successful_polls := successful_polls self;
     s_failed_polls := failed_polls self;
     s_success_rate := success_rate;
     s_avg_response_time_ms := (avg_response_time * inject_Z 1000)%Q;
     s_last_success := last_success self;
     s_last_error := last_error self;
     s_error_count := error_count self;
     s_connected_devices := Z.of_nat (size (connected_devices self));
     s_device_stats := device_stats self |}.

End PortStatistics.

(* ===================================================================== *)
(** * [port_manager.PortManager] *)
(* ===================================================================== *)

(** [sorted(l, key=key)]: a stable sort, by insertion. *)
Section SortedBy.
Context {A : Type} (key : A -> Z).

Fixpoint insert_by (x : A) (l : list A) : list A :=
  match l with
  | [] => [x]
  | y :: l' => if key x <=? key y then x :: l else y :: insert_by x l'
  end.

Definition sorted_by (l : list A) : list A := fold_right insert_by [] l.
End SortedBy.

(** [min(items)]: the first least item; [ValueError] when there is none. *)
Definition py_min (items : list Q) : result Q :=
  match items with
  | [] => Raise MinOfEmpty
  | x :: rest => Ok (fold_left (fun m y => if Qltb y m then y else m) rest x)
  end.

Module PortManager.

(** A dictionary from register kind to register list, in insertion
    order. *)
Definition grouped := list (string * list RegisterConfig).

(** [if key not in grouped: grouped[key] = []] then
    [grouped[key].append(reg)] *)
Fixpoint grouped_append (key : string) (reg : RegisterConfig) (g : grouped)
  : grouped :=
  match g with
  | [] => [(key, [reg])]
  | (k, l) :: g' =>
      if String.eqb k key then (k, (l ++ [reg])%list) :: g'
      else (k, l) :: grouped_append key reg g'
  end.

Definition group_registers_by_type (registers : list RegisterConfig)
  : grouped :=
  fold_left
    (fun g reg => grouped_append (RegisterType_value (reg_type reg)) reg g)
    registers [].

(** The [for i in range(1, len(sorted_regs))] loop: [prev] is
    [sorted_regs[i-1].address], [rest] is [sorted_regs[i:]]; the result
    is what is appended to [blocks] from here on, final append included. *)
Fixpoint blocks_loop (prev start_addr count : Z) (rest : list RegisterConfig)
  : list (Z * Z) :=
  match rest with
  | [] => [(start_addr, count)]
  | reg :: rest' =>
      if reg_address reg =? prev + 1
      then blocks_loop (reg_address reg) start_addr (count + 1) rest'
      else (start_addr, count)
             :: blocks_loop (reg_address reg) (reg_address reg) 1 rest'
  end.

Definition group_registers_into_blocks (registers : list RegisterConfig)
  : list (Z * Z) :=
  match sorted_by reg_address registers with
  | [] => []
  | first :: rest =>
      blocks_loop (reg_address first) (reg_address first) 1 rest
  end.

(** [register_count] of [process_register_block]: the number of words
    the decoder takes for a register. *)
Definition register_count (reg_info : RegisterConfig) : Z :=
  if str_in (DataType_value (reg_data_type reg_info))
       ["int32"; "uint32"; "float"]
  then 2 else 1.

(** What [adjust_polling_interval] does besides returning. *)
Inductive interval_action :=
| NoDevices                                 (* early return *)
| Sleep (delay : Q)                         (* await asyncio.sleep(delay) *)
| Warn (cycle_time min_interval : Q).       (* logger.warning, no sleep *)

Definition estimated_device_time : Q := 5 # 100.

Definition adjust_polling_interval (port_config : PortConfig)
  : result interval_action :=
  match port_devices port_config with
  | [] => Ok NoDevices
  | _ =>
      let* min_interval :=
        py_min (map dev_poll_interval
                  (List.filter dev_enabled (port_devices port_config))) in
      let cycle_time :=
        (inject_Z (Z.of_nat (length (port_devices port_config)))
         * estimated_device_time)%Q in
      if Qltb cycle_time min_interval
      then Ok (Sleep (min_interval - cycle_time)%Q)
      else Ok (Warn cycle_time min_interval)
  end.

(** The status report of [get_port_status].  [successful_polls / 2] is a
    float in the source, exact on counters below 2^53; here it is the
    exact half. *)
Inductive port_status_report :=
| StatusUnknown                                     (* port not found *)
| StatusOf (status : PortStatus) (stats : PortStatistics.stats).

Definition get_port_status (port_stats : gmap string PortStatistics.t)
    (port_name : string) : port_status_report :=
  match port_stats !! port_name with
  | None => StatusUnknown
  | Some port_statistics =>
      let stats := PortStatistics.get_stats port_statistics in
      let error_count := PortStatistics.s_error_count stats in
      let successful_polls := PortStatistics.s_successful_polls stats in
      let status :=
        if (10 <? error_count) && (successful_polls =? 0) then ERROR
        else if Qltb (inject_Z successful_polls / inject_Z 2)
                  (inject_Z error_count) then ERROR
        else if PortStatistics.s_connected_devices stats =? 0 then DISCONNECTED
        else RUNNING in
      StatusOf status stats
  end.

(** ** The port loop, [poll_port]

    The loop talks to the Modbus client, the clock and the scheduler.
    What they answer during one pass through the [while] body is given
    by a [pass_env]; what the loop does to them is logged as [event]s. *)

Inductive event :=
| Connect                    (* create_modbus_client(...) or client.connect() *)
| Asleep (seconds : Q)       (* await asyncio.sleep(seconds) *)
| Buffered (device : string) (* await self.add_to_buffer(device_data) *)
| Recorded (device : string) (success : bool)   (* record_poll(...) *)
| Warned                     (* the warning of adjust_polling_interval *)
| LoggedRate                 (* the success rate, every 100 cycles *)
| Closed                     (* client.close() *)
| RetriesExceeded.           (* logger.error: maximum number of attempts *)

Inductive connect_outcome :=
| Connected          (* a client, or a true value, is returned *)
| Refused            (* None, or a false value, is returned *)
| ConnectRaised      (* client.connect() raises an Exception *)
| ConnectCancelled.  (* asyncio.CancelledError *)

Inductive poll_outcome :=
| Data (poll_time_ms : Q)    (* poll_device returns a DeviceData *)
| NoData                     (* poll_device returns None *)
| PollRaised                 (* an Exception reaches the device loop *)
| PollCancelled.             (* asyncio.CancelledError *)

Record pass_env := {
  env_running : bool;          (* self.running at the while test *)
  env_connected : bool;        (* client_instance.connected *)
  env_connect : connect_outcome;
  (* per configured device, in order: self.running at the top of the
     device loop and the outcome of poll_device *)
  env_polls : list (bool * poll_outcome);
  env_now : Q                  (* datetime.now() *)
}.

Record runner := {
  have_client : bool;          (* port_config.name in self.port_clients *)
  retry_count : Z;
  poll_cycle_count : Z;
  statistics : PortStatistics.t;   (* self.port_stats[port_config.name] *)
  trace : list event           (* oldest first *)
}.

Definition log (st : runner) (evs : list event) : runner :=
  {| have_client := have_client st; retry_count := retry_count st;
     poll_cycle_count := poll_cycle_count st; statistics := statistics st;
     trace := (trace st ++ evs)%list |}.

Definition set_retry_count (st : runner) (n : Z) : runner :=
  {| have_client := have_client st; retry_count := n;
     poll_cycle_count := poll_cycle_count st; statistics := statistics st;
     trace := trace st |}.

Definition set_have_client (st : runner) (b : bool) : runner :=
  {| have_client := b; retry_count := retry_count st;
     poll_cycle_count := poll_cycle_count st; statistics := statistics st;
     trace := trace st |}.

Definition set_statistics (st : runner) (s : PortStatistics.t) : runner :=
  {| have_client := have_client st; retry_count := retry_count st;
     poll_cycle_count := poll_cycle_count st; statistics := s;
     trace := trace st |}.

Definition set_poll_cycle_count (st : runner) (n : Z) : runner :=
  {| have_client := have_client st; retry_count := retry_count st;
     poll_cycle_count := n; statistics := statistics st;
     trace := trace st |}.

(** How a block of the loop body ends. *)
Inductive flow :=
| Next (st : runner)         (* falls through *)
| Failed (st : runner)       (* ConnectionException or another Exception *)
| Cancelled (st : runner).   (* asyncio.CancelledError *)

(** Both [except ConnectionException] and [except Exception]:
    [retry_count += 1], then a sleep if another attempt is left. *)
Definition on_exception (port_config : PortConfig) (st : runner) : runner :=
  let st := set_retry_count st (retry_count st + 1) in
  if retry_count st <? port_max_retries port_config
  then log st [Asleep (port_retry_delay port_config)]
  else st.

(** Creating the client or, with a client at hand, checking the
    connection and reconnecting. *)
Definition connect (env : pass_env) (st : runner) : flow :=
  if negb (have_client st) then
    let st := log st [Connect] in
    match env_connect env with
    | Connected => Next (set_have_client st true)
    | Refused => Failed st
    | ConnectRaised => Failed st    (* caught in create_modbus_client *)
    | ConnectCancelled => Cancelled st
    end
  else if negb (env_connected env) then
    let st := log st [Connect] in
    match env_connect env with
    | Connected => Next st
    | Refused => Failed st
    | ConnectRaised => Failed st
    | ConnectCancelled => Cancelled st
    end
  else Next st.

(** The [for device_config in port_config.devices] loop. *)
Fixpoint poll_devices (now : Q) (devices : list DeviceConfig)
    (polls : list (bool * poll_outcome)) (st : runner) : flow :=
  match devices with
  | [] => Next st
  | device_config :: devices' =>
      let '(running, outcome) := hd (true, NoData) polls in
      let polls' := tl polls in
      if negb running then Next st                   (* break *)
      else if negb (dev_enabled device_config) then
        poll_devices now devices' polls' st          (* continue *)
      else
        match outcome with
        | Data poll_time_ms =>
            let st := log st [Buffered (dev_name device_config)] in
            let st :=
              set_statistics st
                (PortStatistics.record_poll now (statistics st)
                   (dev_name device_config) true
                   (poll_time_ms / inject_Z 1000)%Q) in
            let st := log st [Recorded (dev_name device_config) true;
                              Asleep (1 # 100)] in
            poll_devices now devices' polls' st
        | NoData =>
            poll_devices now devices' polls' (log st [Asleep (1 # 100)])
        | PollRaised =>
            let st :=
              set_statistics st
                (PortStatistics.record_poll now (statistics st)
                   (dev_name device_config) false 0%Q) in
            let st := log st [Recorded (dev_name device_config) false] in
            poll_devices now devices' polls' st
        | PollCancelled => Cancelled st
        end
  end.

(** One pass through the body of the [while] loop. *)
Definition pass (port_config : PortConfig) (env : pass_env) (st : runner)
  : flow :=
  match connect env st with
  | Next st =>
      (* reset of the retry counter on a successful connection *)
      let st := set_retry_count st 0 in
      match poll_devices (env_now env) (port_devices port_config)
              (env_polls env) st with
      | Next st =>
          let st := set_poll_cycle_count st (poll_cycle_count st + 1) in
          let st :=
            if poll_cycle_count st mod 100 =? 0 then log st [LoggedRate]
            else st in
          match adjust_polling_interval port_config with
          | Ok NoDevices => Next st
          | Ok (Sleep delay) => Next (log st [Asleep delay])
          | Ok (Warn _ _) => Next (log st [Warned])
          | Raise _ => Failed st
          end
      | other => other
      end
  | other => other
  end.

(** The [while self.running and retry_count < max_retries] loop;
    [envs i] is the environment of pass [i].  [None]: out of fuel. *)
Fixpoint poll_loop (fuel : nat) (port_config : PortConfig)
    (envs : nat -> pass_env) (i : nat) (st : runner) : option runner :=
  match fuel with
  | O => None
  | S fuel' =>
      if env_running (envs i)
         && (retry_count st <? port_max_retries port_config)
      then
        match pass port_config (envs i) st with
        | Next st' => poll_loop fuel' port_config envs (S i) st'
        | Failed st' =>
            poll_loop fuel' port_config envs (S i)
              (on_exception port_config st')
        | Cancelled st' => Some st'                  (* break *)
        end
      else Some st
  end.

(** What follows the loop: the connection is closed, the failure is
    logged. *)
Definition finish (port_config : PortConfig) (st : runner) : runner :=
  let st :=
    if have_client st then log (set_have_client st false) [Closed]
    else st in
  if port_max_retries port_config <=? retry_count st
  then log st [RetriesExceeded] else st.

(** The state a call of [poll_port] starts from. *)
Definition start (have_client : bool) (statistics : PortStatistics.t)
  : runner :=
  {| have_client := have_client; retry_count := 0; poll_cycle_count := 0;
     statistics := statistics; trace := [] |}.

(** The body of [poll_port].  Every exception raised inside the loop is
    caught inside it, so the body always returns. *)
Definition poll_port_body (fuel : nat) (port_config : PortConfig)
    (envs : nat -> pass_env) (have_client : bool)
    (statistics : PortStatistics.t) : option runner :=
  match poll_loop fuel port_config envs 0 (start have_client statistics) with
  | Some st => Some (finish port_config st)
  | None => None
  end.

(** [@async_retry(max_retries=3, delay=2.0, exceptions=(ConnectionException,))]
    around the body: the sleeps of the wrapper and the final state. *)
Definition poll_port (fuel : nat) (port_config : PortConfig)
    (envs : nat -> pass_env) (have_client : bool)
    (statistics : PortStatistics.t)
  : option (list Q * call_outcome runner) :=
  match poll_port_body fuel port_config envs have_client statistics with
  | Some st => Some (async_retry 3 2 (fun _ => Returned st))
  | None => None
  end.

Definition connect_attempts (tr : list event) : nat :=
  length (List.filter (fun e => match e with Connect => true | _ => false end)
            tr).

(** ** The write buffer, [add_to_buffer] and [flush_buffer]

    [self.lock] is an [asyncio.Lock]: one task holds it at most, and it
    is not reentrant, so a task that awaits the lock while it is held,
    were it by that very task, waits until the lock is released.  [task]
    names the task that runs the coroutine, [now] is [time.time()], and
    [saved] lists the batches handed to [database.save_device_data], one
    batch for each [asyncio.gather]. *)

Section Buffer.
Context {D : Type}.                (* DeviceData *)

Record buffer := {
  data_buffer : list D;
  buffer_size : Z;
  last_flush : Q;
  lock : option nat;               (* the task that holds self.lock *)
  saved : list (list D)
}.

(** How far a coroutine gets when no task is cancelled. *)
Inductive progress :=
| Done (self : buffer)             (* it returns *)
| Waiting (self : buffer).         (* it waits for self.lock *)

Definition set_lock (self : buffer) (holder : option nat) : buffer :=
  {| data_buffer := data_buffer self; buffer_size := buffer_size self;
     last_flush := last_flush self; lock := holder; saved := saved self |}.

Definition flush_buffer (now : Q) (task : nat) (self : buffer) : progress :=
  match data_buffer self with
  | [] => Done self
  | _ :: _ =>
      match lock self with
      | Some _ => Waiting self
      | None =>
          (* async with self.lock: copy, clear, last_flush *)
          let buffer_to_save := data_buffer self in
          Done {| data_buffer := []; buffer_size := buffer_size self;
                  last_flush := now; lock := None;
                  saved := (saved self ++ [buffer_to_save])%list |}
      end
  end.

Definition add_to_buffer (now : Q) (task : nat) (self : buffer)
    (device_data : D) : progress :=
  match lock self with
  | Some _ => Waiting self
  | None =>
      (* async with self.lock: *)
      let self :=
        {| data_buffer := (data_buffer self ++ [device_data])%list;
           buffer_size := buffer_size self; last_flush := last_flush self;
           lock := Some task; saved := saved self |} in
      if buffer_size self <=? Z.of_nat (length (data_buffer self))
      then
        match flush_buffer now task self with
        | Done self => Done (set_lock self None)
        | Waiting self => Waiting self
        end
      else Done (set_lock self None)
  end.

End Buffer.
Arguments buffer D : clear implicits.
Arguments progress D : clear implicits.

(** ** [set_port_configs] and [get_all_ports_status]

    The dictionaries are finite maps; the order of their keys is not
    kept. *)

Definition set_port_configs (port_stats : gmap string PortStatistics.t)
    (port_configs : gmap string PortConfig) : gmap string PortStatistics.t :=
  map_fold
    (fun port_name _ port_stats =>
       <[port_name := PortStatistics.init port_name]> port_stats)
    port_stats port_configs.

Definition get_all_ports_status (port_configs : gmap string PortConfig)
    (port_stats : gmap string PortStatistics.t)
  : gmap string port_status_report :=
  map_imap
    (fun port_name _ => Some (get_port_status port_stats port_name))
    port_configs.

End PortManager.

(* ===================================================================== *)
(** * The specification's words, for comparison *)
(* ===================================================================== *)

Module Spec.

(** Numeric decoder, 32-bit types: swap the words when the word order is
    little, byte-swap each word when the byte order is little, compose
    big-endian, reinterpret as two's complement for [Int32]. *)
Definition byte_swap (w : Z) : Z := (w mod 256) * 256 + w / 256.

Definition decode_uint32 (w0 w1 : Z) (byte_little word_little : bool) : Z :=
  let '(high, low) := if word_little then (w1, w0) else (w0, w1) in
  let '(high, low) :=
    if byte_little then (byte_swap high, byte_swap low) else (high, low) in
  high * 2 ^ 16 + low.

Definition twos_complement32 (pattern : Z) : Z :=
  if pattern <? 2 ^ 31 then pattern else pattern - 2 ^ 32.

Definition decode_int32 (w0 w1 : Z) (byte_little word_little : bool) : Z :=
  twos_complement32 (decode_uint32 w0 w1 byte_little word_little).

(** Block coalescer: the span of a register is 1 address for 16-bit and
    bool types and 2 for 32-bit and float types; spans are sorted by
    start; a run is extended while the next start is at most its end and
    is emitted as (start, end - start). *)
Definition width (t : DataType) : Z :=
  match t with
  | INT32 | UINT32 | FLOAT => 2
  | INT16 | UINT16 | BOOL => 1
  end.

Definition span (reg : RegisterConfig) : Z * Z :=
  (reg_address reg, reg_address reg + width (reg_data_type reg)).

Fixpoint merge_runs (run_start run_end : Z) (spans : list (Z * Z))
  : list (Z * Z) :=
  match spans with
  | [] => [(run_start, run_end - run_start)]
  | (s, e) :: spans' =>
      if s <=? run_end then merge_runs run_start (Z.max run_end e) spans'
      else (run_start, run_end - run_start) :: merge_runs s e spans'
  end.

Definition coalesce (registers : list RegisterConfig) : list (Z * Z) :=
  match sorted_by fst (map span registers) with
  | [] => []
  | (s, e) :: spans => merge_runs s e spans
  end.

(** A run [(start, count)] holds all the addresses of a register. *)
Definition within (reg : RegisterConfig) (run : Z * Z) : bool :=
  (fst run <=? fst (span reg)) && (snd (span reg) <=? fst run + snd run).

Definition covered (reg : RegisterConfig) (runs : list (Z * Z)) : bool :=
  existsb (within reg) runs.

(** Port runner: after a cycle that took [elapsed], the sleep is
    max(0, minimum poll interval - elapsed). *)
Definition interval_sleep (min_interval elapsed : Q) : Q :=
  if Qltb elapsed min_interval then (min_interval - elapsed)%Q else 0%Q.

(** Port status from the counters: [Error] if [errorCount > 10] and
    [successfulPolls = 0], or if [errorCount > successfulPolls / 2]; else
    [Disconnected] if no device is connected; else [Running].  On
    integers, [errorCount > successfulPolls / 2] says
    [successfulPolls < 2 * errorCount], whether the quotient is exact or
    rounded down. *)
Definition derived_status (error_count successful_polls : Z)
    (connected : gset string) : PortStatus :=
  if bool_decide ((10 < error_count ∧ successful_polls = 0)
                  ∨ successful_polls < 2 * error_count)
  then ERROR
  else if bool_decide (connected = ∅) then DISCONNECTED
  else RUNNING.

End Spec.

(** A 16-bit register word. *)
Definition word (w : Z) : Prop := 0 <= w <= 65535.

(** The two byte orders and word orders. *)
Definition order_name (little : bool) : string :=
  if little then "little" else "big".

(** The data types that take one word, and those that take two. *)
Definition is_16bit (data_type : string) : bool :=
  str_in data_type ["int16"; "uint16"; "bool"].

Definition is_32bit (data_type : string) : bool :=
  str_in data_type ["int32"; "uint32"; "float"].

(** A byte survives [format(b, '08b')] followed by [int(text, 2)]. *)
Definition byte_round_trip (b : Z) : bool :=
  (String.length (DataConverter.format_08b b) =? 8)%nat
  && match DataConverter.int_base2 (DataConverter.format_08b b) with
     | Ok b' => b' =? b
     | Raise _ => false
     end.

(** A call of [record_poll] and a session of such calls. *)
Record call := {
  call_now : Q;
  call_device : string;
  call_success : bool;
  call_response_time : Q
}.

Definition record_call (st : PortStatistics.t) (c : call) : PortStatistics.t :=
  PortStatistics.record_poll (call_now c) st (call_device c) (call_success c)
    (call_response_time c).

Definition record_polls (st : PortStatistics.t) (calls : list call)
  : PortStatistics.t :=
  fold_left record_call calls st.

(** No counter of [after] is below the one of [before]. *)
Definition counters_le (before after : PortStatistics.t) : Prop :=
  PortStatistics.total_polls before <= PortStatistics.total_polls after
  /\ PortStatistics.successful_polls before
     <= PortStatistics.successful_polls after
  /\ PortStatistics.failed_polls before <= PortStatistics.failed_polls after
  /\ PortStatistics.error_count before <= PortStatistics.error_count after.

Definition balanced (st : PortStatistics.t) : Prop :=
  PortStatistics.successful_polls st + PortStatistics.failed_polls st
  = PortStatistics.total_polls st.

Definition named (c : call) : Prop := call_device c <> "".

Definition unnamed_calls (calls : list call) : Z :=
  Z.of_nat (length (List.filter (fun c => String.eqb (call_device c) "") calls)).

Definition window_positive (st : PortStatistics.t) : Prop :=
  Forall (fun latency => (0 < latency)%Q) (PortStatistics.response_times st).

(** Counting the calls of a session: the polls recorded for a device that
    succeeded and that failed, over all named devices, and the latencies
    that were above zero, in the order of the calls. *)
Definition count_calls (p : call -> bool) (calls : list call) : Z :=
  Z.of_nat (length (List.filter p calls)).

Definition successes_of (device_name : string) (calls : list call) : Z :=
  count_calls
    (fun c => String.eqb (call_device c) device_name && call_success c) calls.

Definition failures_of (device_name : string) (calls : list call) : Z :=
  count_calls
    (fun c => String.eqb (call_device c) device_name && negb (call_success c))
    calls.

Definition named_successes (calls : list call) : Z :=
  count_calls
    (fun c => negb (String.eqb (call_device c) "") && call_success c) calls.

Definition named_failures (calls : list call) : Z :=
  count_calls
    (fun c => negb (String.eqb (call_device c) "") && negb (call_success c))
    calls.

Definition positive_latencies (calls : list call) : list Q :=
  map call_response_time
    (List.filter (fun c => Qltb 0 (call_response_time c)) calls).

(** The time [adjust_polling_interval] sleeps. *)
Definition slept (r : result PortManager.interval_action) : Q :=
  match r with
  | Ok (PortManager.Sleep delay) => delay
  | _ => 0%Q
  end.

(** The registers of one kind, in the order of the device's list, and the
    list a kind is mapped to by a grouping (empty when it has no entry). *)
Definition registers_of_kind (key : string) (registers : list RegisterConfig)
  : list RegisterConfig :=
  List.filter (fun reg => String.eqb (RegisterType_value (reg_type reg)) key)
    registers.

Fixpoint group_of (key : string) (g : PortManager.grouped)
  : list RegisterConfig :=
  match g with
  | [] => []
  | (k, l) :: g' => if String.eqb k key then l else group_of key g'
  end.

(** The keys of a list rise strictly. *)
Definition rising {A} (key : A -> Z) (l : list A) : Prop :=
  StronglySorted (fun x y => key x < key y) l.

(** Runs in rising order, each starting beyond the end of the ones
    before it: no two of them overlap or touch. *)
Definition separated (runs : list (Z * Z)) : Prop :=
  StronglySorted (fun r1 r2 => fst r1 + snd r1 < fst r2) runs.

(** The sum of the sizes of runs, and the sum of the spans of registers. *)
Definition run_sizes (runs : list (Z * Z)) : Z :=
  fold_right (fun run n => snd run + n) 0 runs.

Definition span_sizes (registers : list RegisterConfig) : Z :=
  fold_right (fun reg n => Spec.width (reg_data_type reg) + n) 0 registers.

(** An address read by a run [(start, count)]. *)
Definition holds_address (address : Z) (run : Z * Z) : Prop :=
  fst run <= address < fst run + snd run.

(** The events of [n] connection attempts that all fail: a sleep of
    [delay] separates one attempt from the next. *)
Fixpoint failure_trace (n : nat) (delay : Q) : list PortManager.event :=
  match n with
  | O => []
  | S n' =>
      PortManager.Connect
        :: match n' with
           | O => []
           | S _ => PortManager.Asleep delay :: failure_trace n' delay
           end
  end.

(** The state a block of the loop body ends in, and the events logged
    between two states. *)
Definition flow_state (f : PortManager.flow) : PortManager.runner :=
  match f with
  | PortManager.Next st => st
  | PortManager.Failed st => st
  | PortManager.Cancelled st => st
  end.

Definition new_events (before after : PortManager.runner)
  : list PortManager.event :=
  skipn (length (PortManager.trace before)) (PortManager.trace after).

(** A pass in which the loop is not stopped and the connection fails:
    there is no connected client at hand, and the attempt to connect
    returns nothing or raises. *)
Definition connection_fails (have_client : bool) (env : PortManager.pass_env)
  : Prop :=
  PortManager.env_running env = true
  /\ (PortManager.env_connect env = PortManager.Refused
      \/ PortManager.env_connect env = PortManager.ConnectRaised)
  /\ (have_client = true -> PortManager.env_connected env = false).

(** The state at the head of the loop of [poll_port] when [k] passes
    were made from the state [st] at the head of pass [i]; [None] when
    the loop ends before. *)
Fixpoint after_passes (k : nat) (port_config : PortConfig)
    (envs : nat -> PortManager.pass_env) (i : nat) (st : PortManager.runner)
  : option PortManager.runner :=
  match k with
  | O => Some st
  | S k' =>
      if PortManager.env_running (envs i)
         && (PortManager.retry_count st <? port_max_retries port_config)
      then
        match PortManager.pass port_config (envs i) st with
        | PortManager.Next st' => after_passes k' port_config envs (S i) st'
        | PortManager.Failed st' =>
            after_passes k' port_config envs (S i)
              (PortManager.on_exception port_config st')
        | PortManager.Cancelled _ => None
        end
      else None
  end.

(** A device that the port polls: it is configured on the port and
    enabled; and the calls of [add_to_buffer] a task makes one after the
    other. *)
Definition polled_device (port_config : PortConfig) (c : call) : Prop :=
  exists device_config,
    In device_config (port_devices port_config)
    /\ dev_enabled device_config = true
    /\ call_device c = dev_name device_config.

Fixpoint add_all {D} (now : Q) (task : nat) (self : PortManager.buffer D)
    (items : list D) : PortManager.progress D :=
  match items with
  | [] => PortManager.Done self
  | device_data :: items' =>
      match PortManager.add_to_buffer now task self device_data with
      | PortManager.Done self' => add_all now task self' items'
      | PortManager.Waiting self' => PortManager.Waiting self'
      end
  end.

(* ===================================================================== *)
(** * Sample inputs *)
(* ===================================================================== *)

Definition register (kind : RegisterType) (address : Z) (data_type : DataType)
  : RegisterConfig :=
  {| reg_type := kind; reg_address := address; reg_name := "";
     reg_description := ""; reg_unit := ""; reg_scale := 1; reg_offset := 0;
     reg_data_type := data_type; reg_read_only := true; reg_precision := 2;
     reg_byteorder := "big"; reg_wordorder := "big" |}.

(** Scenario S4 of the specification. *)
Definition s4_registers : list RegisterConfig :=
  [ register HOLDING 10 INT16; register HOLDING 11 FLOAT;
    register HOLDING 13 INT16; register HOLDING 20 UINT16 ].

(** The same addresses with the float replaced by two 16-bit registers. *)
Definition s4_registers_16bit : list RegisterConfig :=
  [ register HOLDING 10 INT16; register HOLDING 11 UINT16;
    register HOLDING 12 UINT16; register HOLDING 13 INT16;
    register HOLDING 20 UINT16 ].

Definition device (name : string) (poll_interval : Q) (enabled : bool)
  : DeviceConfig :=
  {| dev_name := name; dev_description := ""; dev_address := 1;
     dev_port_name := "port1"; dev_poll_interval := poll_interval;
     dev_timeout := 2; dev_enabled := enabled; dev_registers := [] |}.

Definition tcp_port (max_retries : Z) (retry_delay : Q)
    (devices : list DeviceConfig) : PortConfig :=
  {| port_name := "port1"; port_description := ""; port_type := TCP;
     port_host := Some "127.0.0.1"; port_port := Some 502;
     port_port_name := None; port_baudrate := 9600; port_parity := "N";
     port_stopbits := 1; port_bytesize := 8; port_timeout := 2;
     port_max_retries := max_retries; port_retry_delay := retry_delay;
     port_enabled := true; port_devices := devices;
     port_byteorder := "big"; port_wordorder := "big" |}.

(** A port with one device polled every second. *)
Definition one_device_port : PortConfig :=
  tcp_port 3 5 [device "meter" 1 true].

(** An environment in which the port never answers. *)
Definition unreachable : PortManager.pass_env :=
  {| PortManager.env_running := true; PortManager.env_connected := false;
     PortManager.env_connect := PortManager.Refused;
     PortManager.env_polls := []; PortManager.env_now := 0 |}.

(** A pass in which the port answers and the device returns data after
    20 ms, a pass that finds the loop stopped, and a run of one pass of
    the first kind. *)
Definition answering : PortManager.pass_env :=
  {| PortManager.env_running := true; PortManager.env_connected := true;
     PortManager.env_connect := PortManager.Connected;
     PortManager.env_polls := [(true, PortManager.Data 20)];
     PortManager.env_now := 1 |}.

Definition stopped : PortManager.pass_env :=
  {| PortManager.env_running := false; PortManager.env_connected := true;
     PortManager.env_connect := PortManager.Connected;
     PortManager.env_polls := []; PortManager.env_now := 2 |}.

Definition one_pass (i : nat) : PortManager.pass_env :=
  match i with
  | O => answering
  | S _ => stopped
  end.

(** A pass in which the connection is lost and connecting again raises,
    and a run in which the port answers once and is lost afterwards. *)
Definition lost : PortManager.pass_env :=
  {| PortManager.env_running := true; PortManager.env_connected := false;
     PortManager.env_connect := PortManager.ConnectRaised;
     PortManager.env_polls := []; PortManager.env_now := 3 |}.

Definition answers_once (i : nat) : PortManager.pass_env :=
  match i with
  | O => answering
  | S _ => lost
  end.

(** A port whose only device is disabled. *)
Definition idle_port : PortConfig :=
  tcp_port 3 5 [device "meter" 1 false].

(** An empty write buffer for at most [n] samples. *)
Definition new_buffer (n : Z) : PortManager.buffer nat :=
  {| PortManager.data_buffer := []; PortManager.buffer_size := n;
     PortManager.last_flush := 0; PortManager.lock := None;
     PortManager.saved := [] |}.

(** A function that raises a listed exception twice and then returns. *)
Definition fails_twice (attempt : nat) : call_outcome Z :=
  if (attempt <? 2)%nat then RaisedListed else Returned 7.

(** Two polls of a device, a success and a failure, and a poll recorded
    without a device name. *)
Definition sample_calls : list call :=
  [ {| call_now := 1; call_device := "meter"; call_success := true;
       call_response_time := 1 # 20 |};
    {| call_now := 2; call_device := "meter"; call_success := false;
       call_response_time := 0 |} ].

Definition unnamed_call : call :=
  {| call_now := 3; call_device := ""; call_success := true;
     call_response_time := 0 |}.

(* ===================================================================== *)
(** * Properties of the numeric decoder *)
(* ===================================================================== *)

Section Words.

Import DataConverter.

Lemma land_255 (a : Z) : Z.land a 255 = a mod 256.
Proof. change 255 with (Z.ones 8). now rewrite Z.land_ones. Qed.

Lemma shiftr_8 (a : Z) : Z.shiftr a 8 = a / 256.
Proof. now rewrite Z.shiftr_div_pow2. Qed.

Lemma testbit_above (n l i : Z) :
  0 <= l < 2 ^ n -> n <= i -> Z.testbit l i = false.
Proof.
  intros Hl Hi.
  destruct (Z.eq_dec l 0) as [-> | Hne]; [apply Z.bits_0 |].
  apply Z.bits_above_log2; [lia |].
  apply Z.lt_le_trans with n; [| assumption].
  apply Z.log2_lt_pow2; lia.
Qed.

(** Below [2 ^ n] the low operand fills the bits the shift left free. *)
Lemma lor_shiftl (n h l : Z) :
  0 <= n -> 0 <= l < 2 ^ n -> Z.lor (Z.shiftl h n) l = h * 2 ^ n + l.
Proof.
  intros Hn Hl.
  assert (Hdisjoint : Z.land (Z.shiftl h n) l = 0).
  { apply Z.bits_inj'; intros i Hi.
    rewrite Z.land_spec, Z.bits_0.
    destruct (Z.lt_ge_cases i n) as [Hlt | Hge].
    - now rewrite Z.shiftl_spec_low.
    - rewrite (testbit_above n l i) by assumption. apply andb_false_r. }
  rewrite <- Z.shiftl_mul_pow2 by assumption.
  rewrite <- Z.lxor_lor by assumption.
  now rewrite Z.add_nocarry_lxor.
Qed.

Lemma swap_bytes_16_arith (w : Z) :
  swap_bytes_16 w = (w mod 256) * 256 + (w / 256) mod 256.
Proof.
  unfold swap_bytes_16.
  rewrite !land_255, shiftr_8.
  rewrite (lor_shiftl 8) by (try apply Z.mod_pos_bound; lia).
  reflexivity.
Qed.

Lemma swap_bytes_16_word (w : Z) :
  word w -> swap_bytes_16 w = Spec.byte_swap w /\ word (swap_bytes_16 w).
Proof.
  unfold word, Spec.byte_swap. intros Hw.
  rewrite swap_bytes_16_arith.
  assert (0 <= w / 256 < 256)
    by (split; [apply Z.div_pos | apply Z.div_lt_upper_bound]; lia).
  rewrite (Z.mod_small (w / 256)) by assumption.
  pose proof (Z.mod_pos_bound w 256). lia.
Qed.

Lemma compose_words (high low : Z) :
  word high -> word low ->
  Z.lor (Z.shiftl high 16) low = high * 2 ^ 16 + low
  /\ 0 <= high * 2 ^ 16 + low < 2 ^ 32.
Proof.
  unfold word. intros Hh Hl.
  rewrite (lor_shiftl 16) by lia. lia.
Qed.

End Words.

Section Decoder.

Import DataConverter.

Lemma order_name_little (little : bool) :
  String.eqb (order_name little) "little" = little.
Proof. now destruct little. Qed.

Lemma order_name_big (little : bool) :
  String.eqb (order_name little) "big" = negb little.
Proof. now destruct little. Qed.

Lemma reordered_words (w0 w1 : Z) (byte_little word_little : bool) :
  word w0 -> word w1 ->
  let '(high, low) := if word_little then (w1, w0) else (w0, w1) in
  let '(high, low) :=
    if byte_little then (Spec.byte_swap high, Spec.byte_swap low)
    else (high, low) in
  word high /\ word low.
Proof.
  intros H0 H1.
  destruct (swap_bytes_16_word w0 H0) as [E0 S0].
  destruct (swap_bytes_16_word w1 H1) as [E1 S1].
  rewrite E0 in S0. rewrite E1 in S1.
  destruct word_little, byte_little; auto.
Qed.

Lemma uint32_from_registers_spec (w0 w1 : Z) (byte_little word_little : bool) :
  word w0 -> word w1 ->
  uint32_from_registers w0 w1 (order_name byte_little) (order_name word_little)
  = Spec.decode_uint32 w0 w1 byte_little word_little
  /\ 0 <= Spec.decode_uint32 w0 w1 byte_little word_little < 2 ^ 32.
Proof.
  intros H0 H1.
  pose proof (reordered_words w0 w1 byte_little word_little H0 H1) as Hw.
  unfold uint32_from_registers, Spec.decode_uint32.
  rewrite !order_name_little.
  destruct (swap_bytes_16_word w0 H0) as [E0 _].
  destruct (swap_bytes_16_word w1 H1) as [E1 _].
  destruct word_little, byte_little; cbv beta iota zeta in Hw |- *;
    fold (swap_bytes_16 w0) (swap_bytes_16 w1); rewrite ?E0, ?E1;
    destruct Hw as [Hh Hl]; apply compose_words; assumption.
Qed.

(** C3.  For all words [w0], [w1] in 0..65535 and each of the four
    combinations of byte order and word order, [uint32_from_registers]
    and [int32_from_registers] swap the words when the word order is
    little, then swap the bytes of each word when the byte order is
    little, and compose them as [high * 2^16 + low]; [Int32] is this
    32-bit pattern read as two's complement: patterns from [2^31] on
    stand for the pattern minus [2^32]. *)
Theorem decode_32bit_words (w0 w1 : Z) (byte_little word_little : bool) :
  word w0 -> word w1 ->
  let byteorder := order_name byte_little in
  let wordorder := order_name word_little in
  let pattern := Spec.decode_uint32 w0 w1 byte_little word_little in
  uint32_from_registers w0 w1 byteorder wordorder = pattern
  /\ int32_from_registers w0 w1 byteorder wordorder
     = Spec.twos_complement32 pattern
  /\ 0 <= pattern < 2 ^ 32
  /\ - 2 ^ 31 <= int32_from_registers w0 w1 byteorder wordorder < 2 ^ 31
  /\ (int32_from_registers w0 w1 byteorder wordorder) mod 2 ^ 32 = pattern.
Proof.
  intros H0 H1 byteorder wordorder pattern.
  destruct (uint32_from_registers_spec w0 w1 byte_little word_little H0 H1)
    as [Hu Hrange].
  fold byteorder wordorder pattern in Hu, Hrange.
  assert (Hi : int32_from_registers w0 w1 byteorder wordorder
               = Spec.twos_complement32 pattern).
  { rewrite <- Hu.
    unfold int32_from_registers, uint32_from_registers, Spec.twos_complement32.
    destruct (if String.eqb wordorder "little" then (w1, w0) else (w0, w1))
      as [high low].
    destruct (if String.eqb byteorder "little" then _ else _) as [high' low'].
    set (value := Z.lor (Z.shiftl high' 16) low').
    change 2147483648 with (2 ^ 31). change 4294967296 with (2 ^ 32).
    destruct (Z.leb_spec (2 ^ 31) value), (Z.ltb_spec value (2 ^ 31));
      try reflexivity; exfalso; lia. }
  rewrite Hi. repeat split; try assumption; try apply Hrange.
  all: unfold Spec.twos_complement32;
    destruct (Z.ltb_spec pattern (2 ^ 31)); try lia.
  - apply Z.mod_small. lia.
  - replace (pattern - 2 ^ 32) with (pattern + (-1) * 2 ^ 32) by lia.
    rewrite Z.mod_add by lia. apply Z.mod_small. lia.
Qed.

Lemma decode_32bit_words_witness :
  word 4660 /\ word 43981
  /\ uint32_from_registers 4660 43981 "little" "little" = 3450549266
  /\ int32_from_registers 4660 43981 "little" "little" = -844418030.
Proof.
  assert (H0 : word 4660) by (unfold word; lia).
  assert (H1 : word 43981) by (unfold word; lia).
  destruct (decode_32bit_words 4660 43981 true true H0 H1)
    as (Hu & Hi & _).
  split; [exact H0 | split; [exact H1 | split; [exact Hu | exact Hi]]].
Defined.

End Decoder.

Section DecoderErrors.

Import DataConverter.

Lemma not_16bit_eqb (data_type : string) :
  is_16bit data_type = false ->
  String.eqb data_type "int16" = false
  /\ String.eqb data_type "uint16" = false
  /\ String.eqb data_type "bool" = false.
Proof.
  unfold is_16bit, str_in. simpl.
  destruct (String.eqb data_type "int16"),
    (String.eqb data_type "uint16"), (String.eqb data_type "bool");
    simpl; intros; try discriminate; auto.
Qed.

Lemma is_32bit_not_16bit (data_type : string) :
  is_32bit data_type = true -> is_16bit data_type = false.
Proof.
  unfold is_32bit, is_16bit, str_in. simpl.
  rewrite !orb_false_r, !orb_true_iff.
  intros [H | [H | H]]; apply String.eqb_eq in H; subst; reflexivity.
Qed.

Lemma binary64_overflow_large : 2 ^ 53 < binary64_overflow.
Proof. vm_compute. reflexivity. Qed.

(** An integer within the range of the floats is converted, not
    refused, and to a finite float. *)
Lemma to_float_int (z : Z) :
  Z.abs z < binary64_overflow ->
  to_float (PyInt z) = Ok (binary64 (inject_Z z))
  /\ exists q, binary64 (inject_Z z) = FFinite q.
Proof.
  intros Hz.
  assert (Hno : Qle_bool (inject_Z binary64_overflow) (Qabs (inject_Z z))
                = false).
  { destruct (Qle_bool _ _) eqn:E; [| reflexivity].
    apply Qle_bool_iff in E.
    change (Qabs (inject_Z z)) with (inject_Z (Z.abs z)) in E.
    rewrite <- Zle_Qle in E. lia. }
  unfold to_float, binary64. cbv zeta. rewrite Hno.
  destruct (Qabs (inject_Z z) ?= 0)%Q; split; eauto.
Qed.

(** A rational that is an integer is rounded to that integer. *)
Lemma round_half_even_integer (q : Q) (n : Z) :
  (q == inject_Z n)%Q -> round_half_even q = n.
Proof.
  intros Hq. unfold round_half_even.
  assert (Hfloor : Qfloor q = n) by (rewrite Hq; apply Qfloor_Z).
  rewrite Hfloor.
  assert (Hlt : ((q - inject_Z n)%Q ?= 1 # 2)%Q = Lt).
  { apply Qlt_alt.
    assert (E : (q - inject_Z n == 0)%Q) by (rewrite Hq; ring).
    rewrite E. reflexivity. }
  now rewrite Hlt.
Qed.

(** The integers of up to 53 bits are floats: [binary64] leaves them as
    they are. *)
Lemma Qred_integer (z : Z) : Qred (inject_Z z) = inject_Z z.
Proof.
  unfold Qred, inject_Z.
  pose proof (Z.ggcd_gcd z 1) as Hg.
  pose proof (Z.ggcd_correct_divisors z 1) as Hd.
  destruct (Z.ggcd z (Z.pos 1)) as (g, (aa, bb)). simpl in Hg, Hd.
  rewrite Z.gcd_1_r in Hg. subst g. destruct Hd as [Ha Hb].
  replace aa with z by lia. replace bb with 1 by lia. reflexivity.
Qed.

Lemma Qcompare_integers (x y : Z) :
  (inject_Z x ?= inject_Z y)%Q = (x ?= y).
Proof. unfold Qcompare. simpl. now rewrite !Z.mul_1_r. Qed.

Lemma binary64_integer (z : Z) :
  Z.abs z < 2 ^ 53 -> binary64 (inject_Z z) = FFinite (inject_Z z).
Proof.
  intros Hz. pose proof binary64_overflow_large as Hlarge.
  assert (Hno : Qle_bool (inject_Z binary64_overflow) (Qabs (inject_Z z))
                = false).
  { destruct (Qle_bool _ _) eqn:E; [| reflexivity].
    apply Qle_bool_iff in E.
    change (Qabs (inject_Z z)) with (inject_Z (Z.abs z)) in E.
    rewrite <- Zle_Qle in E. lia. }
  unfold binary64. cbv zeta. rewrite Hno.
  change (Qabs (inject_Z z)) with (inject_Z (Z.abs z)).
  destruct (Z.eq_dec z 0) as [-> | Hnz]; [reflexivity |].
  assert (Hpos : 0 < Z.abs z) by lia.
  assert (Hcmp : (inject_Z (Z.abs z) ?= 0)%Q = Gt).
  { change 0%Q with (inject_Z 0). rewrite Qcompare_integers.
    now apply Z.compare_gt_iff. }
  rewrite Hcmp.
  set (a := inject_Z (Z.abs z)).
  assert (Hlog : -1 <= Qlog2 a <= 52).
  { unfold Qlog2, a. simpl Qnum. simpl Qden. change (Z.log2 1) with 0.
    rewrite Z.sub_0_r.
    assert (0 <= Z.log2 (Z.abs z) <= 52).
    { split; [apply Z.log2_nonneg |].
      assert (Z.log2 (Z.abs z) < 53); [| lia].
      apply (proj1 (Z.log2_lt_pow2 _ _ Hpos)). exact Hz. }
    destruct (_ ?= Qpower _ _)%Q; lia. }
  set (k := 52 - Qlog2 a).
  assert (Hk : 0 <= k <= 53) by (unfold k; lia).
  replace (Z.max (Qlog2 a - 52) (-1074)) with (- k) by (unfold k; lia).
  assert (Hpow : 0 < 2 ^ k) by (apply Z.pow_pos_nonneg; lia).
  assert (Hnz2 : ~ (inject_Z (2 ^ k) == 0)%Q).
  { change 0%Q with (inject_Z 0). rewrite inject_Z_injective. lia. }
  assert (Hulp : (Qpower (2 # 1) (- k) == / inject_Z (2 ^ k))%Q).
  { rewrite Qpower_opp. apply Qinv_comp.
    change (2 # 1)%Q with (inject_Z 2). now rewrite <- Zpower_Qpower by lia. }
  assert (Hquot : (a / Qpower (2 # 1) (- k) == inject_Z (Z.abs z * 2 ^ k))%Q).
  { rewrite Hulp, inject_Z_mult. unfold a. field. exact Hnz2. }
  rewrite (round_half_even_integer _ _ Hquot).
  assert (Hr : (inject_Z (Z.abs z * 2 ^ k) * Qpower (2 # 1) (- k) == a)%Q).
  { rewrite Hulp, inject_Z_mult. unfold a. field. exact Hnz2. }
  f_equal. etransitivity; [| apply Qred_integer]. apply Qred_complete.
  destruct (Z.lt_ge_cases z 0) as [Hneg | Hnn].
  - assert (E : (inject_Z z ?= 0)%Q = Lt).
    { change 0%Q with (inject_Z 0). rewrite Qcompare_integers.
      now apply Z.compare_lt_iff. }
    rewrite E, Hr. unfold a. rewrite <- inject_Z_opp.
    apply inject_Z_injective. lia.
  - assert (E : (inject_Z z ?= 0)%Q = Gt).
    { change 0%Q with (inject_Z 0). rewrite Qcompare_integers.
      apply Z.compare_gt_iff. lia. }
    rewrite E, Hr. unfold a. apply inject_Z_injective. lia.
Qed.

(** On register words the integer decodings stay far below the range of
    the floats. *)
Lemma int16_to_signed_small (w : Z) (byteorder : string) :
  word w -> Z.abs (int16_to_signed w byteorder) < 2 ^ 53.
Proof.
  intros Hw. unfold int16_to_signed.
  destruct (swap_bytes_16_word w Hw) as [_ Hs]. unfold swap_bytes_16 in Hs.
  unfold word in *.
  destruct (String.eqb byteorder "little"); destruct (_ <=? _); lia.
Qed.

Lemma uint16_small (w : Z) (byteorder : string) :
  word w ->
  Z.abs (if String.eqb byteorder "little"
         then Z.lor (Z.shiftl (Z.land w 255) 8) (Z.land (Z.shiftr w 8) 255)
         else w) < 2 ^ 53.
Proof.
  intros Hw.
  destruct (swap_bytes_16_word w Hw) as [_ Hs]. unfold swap_bytes_16 in Hs.
  unfold word in *. destruct (String.eqb byteorder "little"); lia.
Qed.

Lemma from_registers_small (high low : Z) (byteorder wordorder : string) :
  word high -> word low ->
  Z.abs (int32_from_registers high low byteorder wordorder) < 2 ^ 53
  /\ Z.abs (uint32_from_registers high low byteorder wordorder) < 2 ^ 53.
Proof.
  intros Hh Hl.
  destruct (swap_bytes_16_word high Hh) as [_ Sh].
  destruct (swap_bytes_16_word low Hl) as [_ Sl].
  unfold swap_bytes_16 in Sh, Sl.
  unfold int32_from_registers, uint32_from_registers.
  destruct (String.eqb wordorder "little"), (String.eqb byteorder "little");
    cbv beta iota zeta;
    match goal with
    | |- context [Z.lor (Z.shiftl ?h 16) ?l] =>
        let H := fresh in
        assert (H : word h /\ word l) by (split; assumption);
        destruct (compose_words h l (proj1 H) (proj2 H)) as [-> Hrange]
    end;
    destruct (_ <=? _); lia.
Qed.

(** The single-word path rejects nothing: outside the three 16-bit types
    the raw word goes through to the scaling, as it does for [uint16]
    in big byte order. *)
Lemma convert_value_passes_through (raw_value : Z) (data_type : string)
    (scale offset : Q) (precision : Z) (byteorder wordorder : string) :
  is_16bit data_type = false ->
  convert_value raw_value data_type scale offset precision byteorder wordorder
  = convert_value raw_value "uint16" scale offset precision "big" wordorder.
Proof.
  intros H. destruct (not_16bit_eqb data_type H) as (E1 & E2 & E3).
  unfold convert_value. now rewrite E1, E2, E3.
Qed.

Lemma convert_value_word (raw_value : Z) (data_type : string)
    (scale offset : Q) (precision : Z) (byteorder wordorder : string) :
  is_16bit data_type = false -> word raw_value ->
  convert_value raw_value data_type scale offset precision byteorder wordorder
  = Ok (scale_and_round (FFinite (inject_Z raw_value)) scale offset precision).
Proof.
  intros H Hw. destruct (not_16bit_eqb data_type H) as (E1 & E2 & E3).
  unfold convert_value. rewrite E1, E2, E3.
  assert (Hsmall : Z.abs raw_value < 2 ^ 53) by (unfold word in Hw; lia).
  pose proof binary64_overflow_large.
  destruct (to_float_int raw_value) as [-> _]; [lia |].
  now rewrite binary64_integer.
Qed.

(** On a register word [convert_value] returns a value, whatever the
    data type. *)
Lemma convert_value_returns (raw_value : Z) (data_type : string)
    (scale offset : Q) (precision : Z) (byteorder wordorder : string) :
  word raw_value ->
  returns (convert_value raw_value data_type scale offset precision
             byteorder wordorder).
Proof.
  intros Hw. pose proof binary64_overflow_large.
  pose proof (int16_to_signed_small raw_value byteorder Hw) as H16.
  pose proof (uint16_small raw_value byteorder Hw) as Hu16.
  unfold convert_value, returns.
  destruct (String.eqb data_type "int16").
  { destruct (to_float_int (int16_to_signed raw_value byteorder)) as [-> _];
      [lia | simpl; eauto]. }
  destruct (String.eqb data_type "uint16").
  { destruct (to_float_int
                (if String.eqb byteorder "little"
                 then Z.lor (Z.shiftl (Z.land raw_value 255) 8)
                        (Z.land (Z.shiftr raw_value 8) 255)
                 else raw_value)) as [-> _]; [lia | simpl; eauto]. }
  destruct (String.eqb data_type "bool"); [simpl; eauto |].
  destruct (to_float_int raw_value) as [-> _];
    [unfold word in Hw; lia | simpl; eauto].
Qed.

(** Which error the multi-word path raises. *)
Lemma convert_from_registers_rejects (registers : list Z)
    (data_type byteorder wordorder : string) (scale offset : Q)
    (precision : Z) :
  (is_32bit data_type = true /\ (length registers < 2)%nat)
  \/ (is_16bit data_type = false /\ is_32bit data_type = false) ->
  convert_from_registers registers data_type byteorder wordorder
    scale offset precision
  = Raise match registers with
          | [] => EmptyRegisters
          | _ :: _ =>
              if is_32bit data_type then NeedTwoRegisters data_type
              else UnknownDataType data_type
          end.
Proof.
  intros Hcase. unfold convert_from_registers.
  destruct registers as [| r0 rest]; [reflexivity |].
  fold (is_16bit data_type) (is_32bit data_type).
  destruct Hcase as [[H32 Hlen] | [H16 H32]].
  - rewrite (is_32bit_not_16bit data_type H32), H32.
    destruct rest; [reflexivity | simpl in Hlen; lia].
  - now rewrite H16, H32.
Qed.

(** C4, as the code has it.  On the multi-word path,
    [convert_from_registers] raises a [ValueError] for every 32-bit
    request (int32, uint32, float) with fewer than two words and for
    every unknown data type, and returns no value there: the error of
    the empty list when there is no word at all, whatever the type; with
    one word or more, the error that the type needs two registers for a
    32-bit type, and the error of the unknown type otherwise.  The
    single-word path, [convert_value], raises in neither case: for every
    data type other than int16, uint16 and bool it does with a register
    word what it does for uint16 in big byte order, and returns the word
    scaled, shifted and rounded. *)
Theorem decoder_rejections (registers : list Z) (raw_value : Z)
    (data_type byteorder wordorder : string) (scale offset : Q)
    (precision : Z) :
  (is_32bit data_type = true /\ (length registers < 2)%nat)
  \/ (is_16bit data_type = false /\ is_32bit data_type = false) ->
  word raw_value ->
  convert_from_registers registers data_type byteorder wordorder
    scale offset precision
  = Raise match registers with
          | [] => EmptyRegisters
          | _ :: _ =>
              if is_32bit data_type then NeedTwoRegisters data_type
              else UnknownDataType data_type
          end
  /\ convert_value raw_value data_type scale offset precision
       byteorder wordorder
     = Ok (scale_and_round (FFinite (inject_Z raw_value))
             scale offset precision)
  /\ convert_value raw_value data_type scale offset precision
       byteorder wordorder
     = convert_value raw_value "uint16" scale offset precision
         "big" wordorder.
Proof.
  intros Hcase Hword.
  assert (H16 : is_16bit data_type = false).
  { destruct Hcase as [[H32 _] | [H16 _]];
      [now apply is_32bit_not_16bit | exact H16]. }
  split; [now apply convert_from_registers_rejects |].
  split; [now apply convert_value_word |].
  now apply convert_value_passes_through.
Qed.

Lemma decoder_rejections_witness :
  (is_32bit "int32" = true /\ (length [15] < 2)%nat)
  /\ word 15
  /\ convert_from_registers [15] "int32" "big" "big" (1 # 1000) 0 2
     = Raise (NeedTwoRegisters "int32")
  /\ convert_value 15 "int32" (1 # 1000) 0 2 "big" "big"
     = Ok (scale_and_round (FFinite (inject_Z 15)) (1 # 1000) 0 2)
  /\ scale_and_round (FFinite (inject_Z 15)) (1 # 1000) 0 2
     = PyFloat (binary64 (1 # 100)).
Proof.
  assert (H : is_32bit "int32" = true /\ (length [15] < 2)%nat)
    by (split; [reflexivity | simpl; lia]).
  assert (Hw : word 15) by (unfold word; lia).
  split; [exact H |]. split; [exact Hw |].
  destruct (decoder_rejections [15] 15 "int32" "big" "big" (1 # 1000) 0 2
              (or_introl H) Hw) as (Hraise & Hvalue & _).
  split; [exact Hraise |]. split; [exact Hvalue |].
  vm_compute. reflexivity.
Defined.

(** C4 as stated fails on the single-word path: a 32-bit type with its
    single word, and an unknown type, both come back as values. *)
Lemma convert_value_does_not_reject :
  convert_value 7 "int32" 1 0 2 "big" "big" = Ok (PyFloat (FFinite 7))
  /\ convert_value 7 "decimal" 1 0 2 "big" "big" = Ok (PyFloat (FFinite 7))
  /\ ~ raises (convert_value 7 "int32" 1 0 2 "big" "big")
  /\ ~ raises (convert_value 7 "decimal" 1 0 2 "big" "big").
Proof.
  assert (H1 : convert_value 7 "int32" 1 0 2 "big" "big"
               = Ok (PyFloat (FFinite 7))) by (vm_compute; reflexivity).
  assert (H2 : convert_value 7 "decimal" 1 0 2 "big" "big"
               = Ok (PyFloat (FFinite 7))) by (vm_compute; reflexivity).
  split; [exact H1 |]. split; [exact H2 |].
  split; intros [e He]; [rewrite H1 in He | rewrite H2 in He];
    discriminate He.
Qed.

End DecoderErrors.

Section BitStrings.

Import DataConverter.

Lemma all_bytes_round_trip :
  forallb byte_round_trip (map Z.of_nat (seq 0 256)) = true.
Proof. vm_compute. reflexivity. Qed.

Lemma format_08b_byte (b : Z) :
  0 <= b <= 255 ->
  String.length (format_08b b) = 8%nat /\ int_base2 (format_08b b) = Ok b.
Proof.
  intros Hb.
  pose proof all_bytes_round_trip as Hall.
  rewrite forallb_forall in Hall.
  specialize (Hall b).
  assert (Hin : In b (map Z.of_nat (seq 0 256))).
  { apply in_map_iff. exists (Z.to_nat b). split; [lia |].
    apply in_seq. lia. }
  apply Hall in Hin. unfold byte_round_trip in Hin.
  apply andb_true_iff in Hin as [Hlen Hint].
  apply Nat.eqb_eq in Hlen. split; [assumption |].
  destruct (int_base2 (format_08b b)) as [b' |]; [| discriminate].
  apply Z.eqb_eq in Hint. now subst.
Qed.

Lemma length_append (a b : string) :
  String.length (a ++ b) = (String.length a + String.length b)%nat.
Proof. induction a as [| c a IH]; simpl; [reflexivity | now rewrite IH]. Qed.

Lemma substring_left (a b : string) :
  substring 0 (String.length a) (a ++ b) = a.
Proof. induction a as [| c a IH]; simpl; [now destruct b | now rewrite IH]. Qed.

Lemma substring_all (b : string) : substring 0 (String.length b) b = b.
Proof. induction b as [| c b IH]; simpl; [reflexivity | now rewrite IH]. Qed.

Lemma substring_right (a b : string) :
  substring (String.length a) (String.length b) (a ++ b) = b.
Proof.
  induction a as [| c a IH]; simpl; [apply substring_all | assumption].
Qed.

Lemma split_bits (a b : string) :
  String.length a = 8%nat -> String.length b = 8%nat ->
  substring 0 8 (a ++ b) = a /\ substring 8 (8 + 8 - 8) (a ++ b) = b.
Proof.
  intros Ha Hb. change (8 + 8 - 8)%nat with 8%nat.
  rewrite <- Hb at 3. rewrite <- Ha.
  split; [apply substring_left | apply substring_right].
Qed.

Lemma byte_halves (v : Z) :
  word v ->
  0 <= Z.land (Z.shiftr v 8) 255 <= 255 /\ 0 <= Z.land v 255 <= 255
  /\ Z.lor (Z.shiftl (Z.land (Z.shiftr v 8) 255) 8) (Z.land v 255) = v.
Proof.
  unfold word. intros Hv.
  rewrite !land_255, shiftr_8.
  assert (0 <= v / 256 < 256)
    by (split; [apply Z.div_pos | apply Z.div_lt_upper_bound]; lia).
  pose proof (Z.mod_pos_bound v 256).
  rewrite (Z.mod_small (v / 256)) by assumption.
  rewrite (lor_shiftl 8) by lia.
  pose proof (Z.div_mod v 256). lia.
Qed.

(** C10.  For every register value [v] in 0..65535 and both byte orders,
    [register_to_bits] returns a string of 16 characters from which
    [register_bits_to_bytes], with the same byte order, returns [v]. *)
Theorem register_bits_round_trip (v : Z) (little : bool) :
  word v ->
  exists bits,
    register_to_bits v (order_name little) = Ok bits
    /\ String.length bits = 16%nat
    /\ register_bits_to_bytes bits (order_name little) = Ok v.
Proof.
  intros Hv.
  destruct (byte_halves v Hv) as (Hhi & Hlo & Hjoin).
  destruct (format_08b_byte _ Hhi) as [Lhi Phi].
  destruct (format_08b_byte _ Hlo) as [Llo Plo].
  assert (Hrange : negb ((0 <=? v) && (v <=? 65535)) = false).
  { unfold word in Hv.
    destruct (Z.leb_spec 0 v), (Z.leb_spec v 65535); simpl; lia. }
  unfold register_to_bits. rewrite Hrange.
  rewrite order_name_big, order_name_little.
  destruct little; simpl bind; cbv beta iota zeta;
    (eexists; split; [reflexivity |]);
    (split; [rewrite length_append, Lhi, Llo; reflexivity |]);
    unfold register_bits_to_bytes;
    rewrite length_append, Lhi, Llo; simpl negb; cbv beta iota zeta.
  - destruct (split_bits _ _ Llo Lhi) as [-> ->].
    rewrite Plo, Phi. simpl bind. exact (f_equal Ok Hjoin).
  - destruct (split_bits _ _ Lhi Llo) as [-> ->].
    rewrite Plo, Phi. simpl bind. exact (f_equal Ok Hjoin).
Qed.

Lemma register_bits_round_trip_witness :
  word 258
  /\ exists bits,
       register_to_bits 258 "little" = Ok bits
       /\ String.length bits = 16%nat
       /\ register_bits_to_bytes bits "little" = Ok 258.
Proof.
  assert (H : word 258) by (unfold word; lia).
  split; [exact H | exact (register_bits_round_trip 258 true H)].
Defined.

End BitStrings.

(* ===================================================================== *)
(** * Properties of the statistics recorder *)
(* ===================================================================== *)

Section Statistics.

Import PortStatistics.

Lemma Qltb_lt (a b : Q) : Qltb a b = true <-> (a < b)%Q.
Proof.
  unfold Qltb. rewrite Qlt_alt.
  destruct (a ?= b)%Q; split; intros H; congruence.
Qed.

(** The counters after one call, case by case. *)
Lemma record_poll_counters (now : Q) (st : t) (device_name : string)
    (success : bool) (response_time : Q) :
  let st' := record_poll now st device_name success response_time in
  total_polls st' = total_polls st + 1
  /\ successful_polls st'
     = successful_polls st
       + (if negb (String.eqb device_name "") && success then 1 else 0)
  /\ failed_polls st'
     = failed_polls st
       + (if negb (String.eqb device_name "") && negb success then 1 else 0)
  /\ error_count st'
     = error_count st
       + (if negb (String.eqb device_name "") && negb success then 1 else 0).
Proof.
  unfold record_poll.
  destruct (String.eqb device_name ""), success, (Qltb 0 response_time);
    simpl; repeat split; lia.
Qed.

Lemma record_poll_monotone (st : PortStatistics.t) (c : call) :
  counters_le st (record_call st c).
Proof.
  unfold counters_le, record_call.
  destruct (record_poll_counters (call_now c) st (call_device c)
              (call_success c) (call_response_time c)) as (Ht & Hs & Hf & He).
  rewrite Ht, Hs, Hf, He.
  destruct (negb _ && call_success c), (negb _ && negb (call_success c)); lia.
Qed.

(** What is missing from the balance is the number of calls made with an
    empty device name. *)
Lemma record_polls_balance (calls : list call) (st : PortStatistics.t) :
  let st' := record_polls st calls in
  total_polls st' - (successful_polls st' + failed_polls st')
  = total_polls st - (successful_polls st + failed_polls st)
    + unnamed_calls calls.
Proof.
  revert st. induction calls as [| c calls IH]; intros st; simpl.
  - unfold unnamed_calls. simpl. lia.
  - specialize (IH (record_call st c)). simpl in IH. rewrite IH.
    unfold record_call at 1 2 3.
    destruct (record_poll_counters (call_now c) st (call_device c)
                (call_success c) (call_response_time c))
      as (Ht & Hs & Hf & _).
    rewrite Ht, Hs, Hf. unfold unnamed_calls. simpl.
    destruct (String.eqb (call_device c) ""), (call_success c); simpl length;
      simpl; lia.
Qed.

Lemma named_calls_unnamed (calls : list call) :
  Forall named calls -> unnamed_calls calls = 0.
Proof.
  unfold unnamed_calls. induction 1 as [| c calls Hc _ IH]; [reflexivity |].
  simpl. destruct (String.eqb_spec (call_device c) ""); [contradiction |].
  exact IH.
Qed.

(** C7, as the code has it.  Across any call of [record_poll], from any
    state, none of [total_polls], [successful_polls], [failed_polls] and
    [error_count] decreases; and after every sequence of calls that all
    name a device, started from a fresh recorder,
    [successful_polls + failed_polls = total_polls]. *)
Theorem statistics_counters (st : PortStatistics.t) (next : call)
    (port : string) (calls : list call) :
  Forall named calls ->
  counters_le st (record_call st next)
  /\ balanced (record_polls (init port) calls).
Proof.
  intros Hnamed. split; [apply record_poll_monotone |].
  pose proof (record_polls_balance calls (init port)) as H.
  rewrite (named_calls_unnamed calls Hnamed) in H. simpl in H.
  unfold balanced. lia.
Qed.

Lemma statistics_counters_witness :
  Forall named sample_calls
  /\ counters_le (init "port1") (record_call (init "port1") unnamed_call)
  /\ balanced (record_polls (init "port1") sample_calls).
Proof.
  assert (H : Forall named sample_calls)
    by (repeat constructor; unfold named; simpl; discriminate).
  split; [exact H |].
  exact (statistics_counters (init "port1") unnamed_call "port1"
           sample_calls H).
Defined.

(** C7 as stated fails: a poll recorded with an empty device name is
    counted in [total_polls] only. *)
Lemma unnamed_poll_breaks_balance :
  let st := record_poll 0 (init "port1") "" true 0 in
  total_polls st = 1 /\ successful_polls st = 0 /\ failed_polls st = 0
  /\ ~ balanced st.
Proof. repeat split; unfold balanced; simpl; lia. Qed.

Lemma deque_append_positive (d : list Q) (x : Q) :
  Forall (fun latency => (0 < latency)%Q) d -> (0 < x)%Q ->
  Forall (fun latency => (0 < latency)%Q) (deque_append d x).
Proof.
  intros Hd Hx. unfold deque_append.
  destruct (maxlen <=? length d)%nat; apply Forall_app; split;
    try (repeat constructor; assumption); try assumption.
  destruct d; [constructor | now inversion Hd].
Qed.

Lemma deque_append_bounded (d : list Q) (x : Q) :
  (length d <= maxlen)%nat -> (length (deque_append d x) <= maxlen)%nat.
Proof.
  intros Hd. unfold deque_append, maxlen in *.
  destruct (Nat.leb_spec 100 (length d)); rewrite length_app; simpl.
  - destruct d; simpl in *; lia.
  - lia.
Qed.

(** The window after one call. *)
Lemma record_poll_window (now : Q) (st : t) (device_name : string)
    (success : bool) (response_time : Q) :
  response_times (record_poll now st device_name success response_time)
  = if Qltb 0 response_time
    then deque_append (response_times st) response_time
    else response_times st.
Proof.
  unfold record_poll.
  destruct (String.eqb device_name ""), success, (Qltb 0 response_time);
    reflexivity.
Qed.

Lemma record_poll_window_positive (st : PortStatistics.t) (c : call) :
  window_positive st -> window_positive (record_call st c).
Proof.
  unfold window_positive, record_call. intros Hst.
  rewrite record_poll_window.
  destruct (Qltb 0 (call_response_time c)) eqn:Hpos; [| assumption].
  apply deque_append_positive; [assumption | now apply Qltb_lt].
Qed.

Lemma record_polls_window_positive (calls : list call)
    (st : PortStatistics.t) :
  window_positive st -> window_positive (record_polls st calls).
Proof.
  revert st. induction calls as [| c calls IH]; intros st Hst; simpl;
    [assumption |].
  apply IH. now apply record_poll_window_positive.
Qed.

(** C9.  [record_poll] appends a latency to the window only when it is
    strictly positive, so a window of strictly positive latencies stays
    one across every call, and the window reached from a fresh recorder
    by any calls is one; a failed poll recorded with the default
    [response_time] of 0 leaves the window, and with it the average
    response time of [get_stats], as they were. *)
Theorem response_window_positive (st : PortStatistics.t) (c : call)
    (port : string) (calls : list call) (now : Q) (device_name : string) :
  window_positive st ->
  window_positive (record_call st c)
  /\ window_positive (record_polls (init port) calls)
  /\ response_times (record_poll now st device_name false 0)
     = response_times st
  /\ s_avg_response_time_ms
       (get_stats (record_poll now st device_name false 0))
     = s_avg_response_time_ms (get_stats st).
Proof.
  intros Hst.
  assert (Hsame : response_times (record_poll now st device_name false 0)
                  = response_times st)
    by (rewrite record_poll_window; reflexivity).
  repeat split.
  - now apply record_poll_window_positive.
  - apply record_polls_window_positive. constructor.
  - exact Hsame.
  - unfold get_stats. simpl. now rewrite Hsame.
Qed.

Lemma response_window_positive_witness :
  let st := record_polls (init "port1") sample_calls in
  window_positive st
  /\ window_positive (record_call st unnamed_call)
  /\ response_times (record_poll 4 st "meter" false 0) = response_times st.
Proof.
  assert (H : window_positive (record_polls (init "port1") sample_calls))
    by (repeat constructor).
  destruct (response_window_positive _ unnamed_call "port1" sample_calls
              4 "meter" H) as (H1 & _ & H3 & _).
  split; [exact H | split; [exact H1 | exact H3]].
Defined.

End Statistics.

Section PortStatus.

Import PortStatistics PortManager.

(** [error_count > successful_polls / 2] on counters: the quotient is an
    exact half, and taking the integer quotient instead changes
    nothing. *)
Lemma half_lt_iff (successful errors : Z) :
  ((inject_Z successful / inject_Z 2 < inject_Z errors)%Q
   <-> successful < 2 * errors)
  /\ (successful / 2 < errors <-> successful < 2 * errors).
Proof.
  split.
  - unfold Qlt, Qdiv, Qmult, Qinv, inject_Z. simpl. lia.
  - pose proof (Z.div_mod successful 2).
    pose proof (Z.mod_pos_bound successful 2). lia.
Qed.

Lemma bool_decide_andb (P Q : Prop) `{Decision P, Decision Q} :
  bool_decide (P /\ Q) = bool_decide P && bool_decide Q.
Proof. repeat case_bool_decide; simpl; tauto. Qed.

(** C6.  For every statistics state of a known port, the status that
    [get_port_status] reports is [ERROR] when [error_count > 10] and
    [successful_polls = 0], or when [error_count] exceeds half of
    [successful_polls]; otherwise [DISCONNECTED] when no device is
    connected; otherwise [RUNNING]. *)
Theorem port_status_derivation (port_stats : gmap string PortStatistics.t)
    (port_name : string) (st : PortStatistics.t) :
  port_stats !! port_name = Some st ->
  get_port_status port_stats port_name
  = StatusOf
      (Spec.derived_status (error_count st) (successful_polls st)
         (connected_devices st))
      (get_stats st).
Proof.
  intros Hlookup. unfold get_port_status. rewrite Hlookup.
  f_equal. simpl. unfold Spec.derived_status.
  destruct (half_lt_iff (successful_polls st) (error_count st)) as [Hhalf _].
  destruct (Qltb _ _) eqn:Hlt.
  - apply Qltb_lt, Hhalf in Hlt.
    rewrite bool_decide_eq_true_2 by (right; exact Hlt).
    now destruct (_ && _).
  - assert (Hge : ~ successful_polls st < 2 * error_count st).
    { intros H. apply Hhalf, Qltb_lt in H. congruence. }
    destruct (Z.ltb_spec 10 (error_count st)),
      (Z.eqb_spec (successful_polls st) 0); simpl; try (exfalso; lia).
    all: rewrite bool_decide_eq_false_2 by lia.
    all: destruct (Z.eqb_spec (Z.of_nat (size (connected_devices st))) 0)
      as [Hz | Hnz];
      [ rewrite bool_decide_eq_true_2;
        [reflexivity | apply leibniz_equiv, size_empty_iff; lia]
      | rewrite bool_decide_eq_false_2;
        [reflexivity | intros E; apply Hnz; rewrite E; reflexivity] ].
Qed.

Lemma port_status_derivation_witness :
  let st := record_polls (init "port1") sample_calls in
  let port_stats : gmap string PortStatistics.t := {[ "port1" := st ]} in
  port_stats !! "port1" = Some st
  /\ get_port_status port_stats "port1" = StatusOf ERROR (get_stats st).
Proof.
  intros st port_stats.
  assert (H : port_stats !! "port1" = Some st) by apply lookup_singleton_eq.
  split; [exact H |].
  exact (port_status_derivation port_stats "port1" st H).
Defined.

End PortStatus.

(* ===================================================================== *)
(** * Properties of the port manager *)
(* ===================================================================== *)

Section PollingInterval.

Import PortManager.

Lemma Qltb_false_le (a b : Q) : Qltb a b = false -> (b <= a)%Q.
Proof.
  intros H. apply Qnot_lt_le. intros Hlt. apply Qltb_lt in Hlt. congruence.
Qed.

(** The running least item of [min] is one of the items seen so far and
    is below all of them. *)
Lemma fold_min_spec (rest : list Q) (x : Q) :
  let m := fold_left (fun m y => if Qltb y m then y else m) rest x in
  In m (x :: rest) /\ forall y, In y (x :: rest) -> (m <= y)%Q.
Proof.
  revert x. induction rest as [| z rest IH]; intros x; simpl.
  - split; [now left |]. intros y [<- | []]. apply Qle_refl.
  - specialize (IH (if Qltb z x then z else x)). simpl in IH.
    destruct IH as [Hin Hle]. split.
    + destruct Hin as [Hm | Hm]; [| now right; right].
      rewrite <- Hm. destruct (Qltb z x); [right; now left | now left].
    + intros y Hy.
      destruct (Qltb z x) eqn:Hzx.
      * destruct Hy as [<- | [<- | Hy]].
        -- apply Qle_trans with z; [apply Hle; now left |].
           apply Qlt_le_weak. now apply Qltb_lt.
        -- apply Hle. now left.
        -- apply Hle. now right.
      * destruct Hy as [<- | [<- | Hy]].
        -- apply Hle. now left.
        -- apply Qle_trans with x; [apply Hle; now left |].
           now apply Qltb_false_le.
        -- apply Hle. now right.
Qed.

Lemma py_min_spec (items : list Q) :
  items <> [] ->
  exists m, py_min items = Ok m /\ In m items
            /\ forall y, In y items -> (m <= y)%Q.
Proof.
  destruct items as [| x rest]; [congruence | intros _].
  eexists. split; [reflexivity |]. apply fold_min_spec.
Qed.

(** C5, as the code has it.  For a port with an enabled device,
    [adjust_polling_interval] takes as cycle time the estimate of 0.05 s
    for each configured device, not a measured time; with [min_interval]
    the least [poll_interval] of the enabled devices, it sleeps exactly
    [min_interval - cycle_time] when [cycle_time < min_interval], and
    otherwise logs a warning and does not sleep. *)
Theorem polling_interval_adjustment (port_config : PortConfig) :
  (exists d, In d (port_devices port_config) /\ dev_enabled d = true) ->
  let enabled := List.filter dev_enabled (port_devices port_config) in
  let cycle_time :=
    (inject_Z (Z.of_nat (length (port_devices port_config))) * (5 # 100))%Q in
  exists min_interval,
    (exists d, In d enabled /\ dev_poll_interval d = min_interval)
    /\ (forall d, In d enabled -> (min_interval <= dev_poll_interval d)%Q)
    /\ adjust_polling_interval port_config
       = Ok (if Qltb cycle_time min_interval
             then Sleep (min_interval - cycle_time)%Q
             else Warn cycle_time min_interval).
Proof.
  intros (d0 & Hin0 & Hen0) enabled cycle_time.
  assert (Hne : map dev_poll_interval enabled <> []).
  { assert (Hd0 : In d0 enabled) by (apply filter_In; auto).
    destruct enabled; [contradiction | discriminate]. }
  destruct (py_min_spec _ Hne) as (m & Hmin & Hin & Hle).
  exists m. split; [| split].
  - apply in_map_iff in Hin as (d & Hd & Hind). eauto.
  - intros d Hd. apply Hle. now apply in_map.
  - unfold adjust_polling_interval.
    destruct (port_devices port_config) as [| d ds] eqn:Hdevs;
      [contradiction |].
    fold enabled. rewrite Hmin. simpl bind. fold cycle_time.
    fold estimated_device_time. unfold estimated_device_time.
    now destruct (Qltb _ m).
Qed.

Lemma polling_interval_adjustment_witness :
  (exists d, In d (port_devices one_device_port) /\ dev_enabled d = true)
  /\ adjust_polling_interval one_device_port
     = Ok (Sleep (1 - inject_Z 1 * (5 # 100))%Q).
Proof.
  assert (H : exists d, In d (port_devices one_device_port)
                        /\ dev_enabled d = true)
    by (eexists; split; [left; reflexivity | reflexivity]).
  split; [exact H |].
  destruct (polling_interval_adjustment one_device_port H)
    as (m & (d & Hd & Hm) & _ & Hadjust).
  destruct Hd as [<- | []]. simpl in Hm. subst m. exact Hadjust.
Defined.

(** C5 as stated fails: the sleep is computed from the configuration
    alone.  With one device polled every second the loop sleeps 0.95 s;
    after a cycle that took 0.5 s the claim asks for 0.5 s, and after a
    cycle that took 2 s for no sleep at all. *)
Lemma sleep_ignores_elapsed_time :
  adjust_polling_interval one_device_port = Ok (Sleep (95 # 100))
  /\ ~ (slept (adjust_polling_interval one_device_port)
        == Spec.interval_sleep 1 (1 # 2))%Q
  /\ ~ (slept (adjust_polling_interval one_device_port)
        == Spec.interval_sleep 1 2)%Q.
Proof. repeat split; discriminate. Qed.

End PollingInterval.

Section StableSort.

Context {A : Type} (key : A -> Z).

Lemma insert_by_perm (x : A) (l : list A) :
  Permutation (insert_by key x l) (x :: l).
Proof.
  induction l as [| y l IH]; simpl; [reflexivity |].
  destruct (key x <=? key y); [reflexivity |].
  rewrite IH. apply perm_swap.
Qed.

Lemma sorted_by_perm (l : list A) : Permutation (sorted_by key l) l.
Proof.
  induction l as [| x l IH]; simpl; [reflexivity |].
  rewrite insert_by_perm. now constructor.
Qed.

Lemma insert_by_sorted (x : A) (l : list A) :
  StronglySorted (fun a b => key a <= key b) l ->
  StronglySorted (fun a b => key a <= key b) (insert_by key x l).
Proof.
  induction 1 as [| y l Hl IH Hy]; simpl.
  - repeat constructor.
  - destruct (Z.leb_spec (key x) (key y)) as [Hle | Hgt].
    + constructor; [now constructor |].
      constructor; [assumption |].
      eapply Forall_impl; [| exact Hy]. simpl. intros; lia.
    + constructor; [assumption |].
      eapply Permutation_Forall; [symmetry; apply insert_by_perm |].
      constructor; [lia | assumption].
Qed.

Lemma sorted_by_sorted (l : list A) :
  StronglySorted (fun a b => key a <= key b) (sorted_by key l).
Proof.
  induction l as [| x l IH]; simpl; [constructor |].
  now apply insert_by_sorted.
Qed.

(** With pairwise distinct keys the sorted list rises strictly. *)
Lemma sorted_by_rising (l : list A) :
  NoDup (map key l) -> rising key (sorted_by key l).
Proof.
  intros Hnodup.
  assert (Hnd : NoDup (map key (sorted_by key l))).
  { eapply Permutation_NoDup; [| exact Hnodup].
    apply Permutation_map. symmetry. apply sorted_by_perm. }
  pose proof (sorted_by_sorted l) as Hs.
  unfold rising.
  induction Hs as [| x s Hs IH Hx]; [constructor |].
  simpl in Hnd. inversion Hnd as [| ? ? Hnotin Hnd']; subst.
  constructor; [now apply IH |].
  rewrite Forall_forall in Hx |- *. intros y Hy.
  assert (key x <> key y).
  { intros E. apply Hnotin. rewrite E. now apply in_map. }
  specialize (Hx y Hy). simpl in Hx. lia.
Qed.

End StableSort.

(** Sorting commutes with a map that keeps the keys. *)
Lemma sorted_by_map {A B : Type} (f : A -> B) (key : A -> Z) (key' : B -> Z)
    (l : list A) :
  (forall x, key' (f x) = key x) ->
  sorted_by key' (map f l) = map f (sorted_by key l).
Proof.
  intros Hkey. induction l as [| x l IH]; simpl; [reflexivity |].
  rewrite IH. generalize (sorted_by key l). clear IH.
  intros s. induction s as [| y s IHs]; simpl; [reflexivity |].
  rewrite !Hkey. destruct (key x <=? key y); simpl; [reflexivity |].
  now rewrite IHs.
Qed.

Section Coalescer.

Import PortManager.

(** ** Grouping by kind *)

Lemma group_of_append (key k : string) (reg : RegisterConfig) (g : grouped) :
  group_of key (grouped_append k reg g)
  = if String.eqb k key then (group_of key g ++ [reg])%list
    else group_of key g.
Proof.
  induction g as [| [k' l] g IH]; simpl.
  - now destruct (String.eqb k key).
  - destruct (String.eqb_spec k' k) as [-> | Hne]; simpl.
    + now destruct (String.eqb k key).
    + rewrite IH. destruct (String.eqb_spec k' key) as [-> | Hne'];
        [| reflexivity].
      destruct (String.eqb_spec k key); [congruence | reflexivity].
Qed.

Lemma grouped_append_keys (k : string) (reg : RegisterConfig) (g : grouped) :
  NoDup (map fst g) ->
  NoDup (map fst (grouped_append k reg g))
  /\ forall key, In key (map fst (grouped_append k reg g))
                 -> key = k \/ In key (map fst g).
Proof.
  induction g as [| [k' l] g IH]; simpl; intros Hnd.
  - split; [repeat constructor; intros [] |]. intros key [<- | []]. now left.
  - inversion Hnd as [| ? ? Hnotin Hnd']; subst.
    destruct (String.eqb_spec k' k) as [-> | Hne]; simpl.
    + split; [assumption |]. intros key [<- | H]; auto.
    + destruct (IH Hnd') as [IHnd IHin]. split.
      * constructor; [| assumption].
        intros H. apply IHin in H as [-> | H]; [congruence | contradiction].
      * intros key [<- | H]; [auto |].
        apply IHin in H as [-> | H]; auto.
Qed.

Lemma group_of_in (key : string) (l : list RegisterConfig) (g : grouped) :
  NoDup (map fst g) -> In (key, l) g -> group_of key g = l.
Proof.
  induction g as [| [k' l'] g IH]; simpl; intros Hnd Hin; [contradiction |].
  inversion Hnd as [| ? ? Hnotin Hnd']; subst.
  destruct Hin as [E | Hin].
  - inversion E; subst. now rewrite String.eqb_refl.
  - destruct (String.eqb_spec k' key) as [-> | Hne]; [| now apply IH].
    exfalso. apply Hnotin. now apply (in_map fst) in Hin.
Qed.

Lemma group_registers_fold (registers : list RegisterConfig) (g : grouped) :
  NoDup (map fst g) ->
  let g' :=
    fold_left
      (fun g reg => grouped_append (RegisterType_value (reg_type reg)) reg g)
      registers g in
  NoDup (map fst g')
  /\ forall key,
       group_of key g'
       = (group_of key g ++ registers_of_kind key registers)%list.
Proof.
  revert g. induction registers as [| reg registers IH]; intros g Hnd; simpl.
  - split; [assumption |]. intros key. now rewrite app_nil_r.
  - destruct (grouped_append_keys (RegisterType_value (reg_type reg)) reg g Hnd)
      as [Hnd' _].
    destruct (IH _ Hnd') as [Hnd'' Hgroups].
    split; [assumption |]. intros key.
    rewrite Hgroups, group_of_append.
    destruct (String.eqb _ key); [now rewrite <- app_assoc | reflexivity].
Qed.

(** Each group holds the registers of its kind, in their order. *)
Lemma group_registers_by_type_spec (registers : list RegisterConfig)
    (key : string) (group : list RegisterConfig) :
  In (key, group) (group_registers_by_type registers) ->
  group = registers_of_kind key registers.
Proof.
  intros Hin.
  destruct (group_registers_fold registers [] (NoDup_nil _)) as [Hnd Hgroups].
  fold (group_registers_by_type registers) in Hnd, Hgroups.
  rewrite <- (group_of_in key group _ Hnd Hin). apply Hgroups.
Qed.

(** ** Runs *)

(** On rising addresses of one-address registers the loop of the code
    and the walk of the specification build the same runs. *)
Lemma blocks_loop_merge_runs (rest : list RegisterConfig)
    (prev start_addr count : Z) :
  count = prev + 1 - start_addr ->
  Forall (fun reg => prev < reg_address reg) rest ->
  rising reg_address rest ->
  Forall (fun reg => Spec.width (reg_data_type reg) = 1) rest ->
  blocks_loop prev start_addr count rest
  = Spec.merge_runs start_addr (prev + 1) (map Spec.span rest).
Proof.
  revert prev start_addr count.
  induction rest as [| reg rest IH]; intros prev start_addr count Hc Hprev
    Hrise Hwidth; simpl.
  - now rewrite Hc.
  - inversion Hprev as [| ? ? Hlt _]; subst.
    inversion Hrise as [| ? ? Hrise' Hnext]; subst.
    inversion Hwidth as [| ? ? Hw Hwidth']; subst.
    rewrite Hw.
    destruct (Z.eqb_spec (reg_address reg) (prev + 1)) as [E | Hne].
    + rewrite E, Z.leb_refl.
      rewrite Z.max_r by lia. rewrite <- E.
      apply IH; try assumption. lia.
    + destruct (Z.leb_spec (reg_address reg) (prev + 1)); [lia |].
      f_equal. apply IH; try assumption. lia.
Qed.

Lemma blocks_are_spec_runs (registers : list RegisterConfig) :
  Forall (fun reg => Spec.width (reg_data_type reg) = 1) registers ->
  NoDup (map reg_address registers) ->
  group_registers_into_blocks registers = Spec.coalesce registers.
Proof.
  intros Hwidth Hnodup.
  unfold group_registers_into_blocks, Spec.coalesce.
  rewrite (sorted_by_map Spec.span reg_address fst) by reflexivity.
  pose proof (sorted_by_rising reg_address registers Hnodup) as Hrise.
  assert (Hw : Forall (fun reg => Spec.width (reg_data_type reg) = 1)
                 (sorted_by reg_address registers)).
  { eapply Permutation_Forall; [| exact Hwidth].
    symmetry. apply sorted_by_perm. }
  destruct (sorted_by reg_address registers) as [| first rest];
    [reflexivity |].
  inversion Hrise as [| ? ? Hrise' Hfirst]; subst.
  inversion Hw as [| ? ? Hw1 Hw']; subst.
  simpl. rewrite Hw1.
  apply blocks_loop_merge_runs; try assumption. lia.
Qed.

(** C1, as the code has it.  [group_registers_by_type] hands the block
    coalescer the registers of each kind.  On a group of 16-bit and bool
    registers with pairwise distinct addresses,
    [group_registers_into_blocks] returns the runs of the specified
    algorithm: each register spans one address, the spans are sorted by
    start address, a run is extended while the next start is at most its
    end and is emitted as (start, end - start). *)
Theorem coalescer_on_16bit_registers (registers : list RegisterConfig)
    (key : string) (group : list RegisterConfig) :
  In (key, group) (group_registers_by_type registers) ->
  Forall (fun reg => Spec.width (reg_data_type reg) = 1) group ->
  NoDup (map reg_address group) ->
  group = registers_of_kind key registers
  /\ group_registers_into_blocks group = Spec.coalesce group.
Proof.
  intros Hin Hwidth Hnodup. split.
  - now apply group_registers_by_type_spec.
  - now apply blocks_are_spec_runs.
Qed.

Lemma coalescer_on_16bit_registers_witness :
  In ("holding", s4_registers_16bit)
    (group_registers_by_type s4_registers_16bit)
  /\ Forall (fun reg => Spec.width (reg_data_type reg) = 1)
       s4_registers_16bit
  /\ NoDup (map reg_address s4_registers_16bit)
  /\ group_registers_into_blocks s4_registers_16bit
     = Spec.coalesce s4_registers_16bit
  /\ Spec.coalesce s4_registers_16bit = [(10, 4); (20, 1)].
Proof.
  assert (Hin : In ("holding", s4_registers_16bit)
                  (group_registers_by_type s4_registers_16bit))
    by (left; reflexivity).
  assert (Hwidth : Forall (fun reg => Spec.width (reg_data_type reg) = 1)
                     s4_registers_16bit)
    by (repeat constructor).
  assert (Hnodup : NoDup (map reg_address s4_registers_16bit))
    by (repeat constructor; simpl; intuition discriminate).
  destruct (coalescer_on_16bit_registers s4_registers_16bit "holding"
              s4_registers_16bit Hin Hwidth Hnodup) as [_ Hruns].
  split; [exact Hin |]. split; [exact Hwidth |]. split; [exact Hnodup |].
  split; [exact Hruns | reflexivity].
Defined.

(** C1 as stated fails: on the registers of scenario S4 the code opens a
    new block at address 13, after a float register at 11 that it counts
    as one address, and returns three blocks. *)
Lemma s4_blocks :
  group_registers_by_type s4_registers = [("holding", s4_registers)]
  /\ group_registers_into_blocks s4_registers
     = [(10, 2); (13, 1); (20, 1)]
  /\ group_registers_into_blocks s4_registers <> [(10, 5); (20, 1)].
Proof. repeat split. discriminate. Qed.

(** The walk of the specification on the same registers: the first run
    holds the four addresses 10 to 13. *)
Lemma s4_spec_runs : Spec.coalesce s4_registers = [(10, 4); (20, 1)].
Proof. reflexivity. Qed.

(** ** What the blocks of the code do guarantee *)

(** The first block starts where the loop was started and is at least as
    long as the count reached so far; the block sizes add up to the number
    of registers seen. *)
Lemma blocks_loop_shape (rest : list RegisterConfig) :
  forall prev start_addr count : Z,
    exists count' blocks,
      blocks_loop prev start_addr count rest = (start_addr, count') :: blocks
      /\ count <= count'
      /\ run_sizes (blocks_loop prev start_addr count rest)
         = count + Z.of_nat (length rest).
Proof.
  induction rest as [| reg rest IH]; intros prev start_addr count; simpl.
  - exists count, []. repeat split; simpl; lia.
  - destruct (reg_address reg =? prev + 1).
    + destruct (IH (reg_address reg) start_addr (count + 1))
        as (c & blocks & -> & Hc & Hsum).
      exists c, blocks. repeat split; lia.
    + destruct (IH (reg_address reg) (reg_address reg) 1)
        as (c & blocks & E & Hc & Hsum).
      exists count, (blocks_loop (reg_address reg) (reg_address reg) 1 rest).
      repeat split; simpl; lia.
Qed.

(** On rising addresses the blocks are separated. *)
Lemma blocks_loop_separated (rest : list RegisterConfig) :
  forall prev start_addr count : Z,
    count = prev + 1 - start_addr ->
    Forall (fun reg => prev < reg_address reg) rest ->
    rising reg_address rest ->
    separated (blocks_loop prev start_addr count rest)
    /\ Forall (fun run => start_addr = fst run \/ prev + 1 < fst run)
         (blocks_loop prev start_addr count rest).
Proof.
  induction rest as [| reg rest IH]; intros prev start_addr count Hc Hprev
    Hrise; simpl.
  - split; repeat constructor.
  - inversion Hprev as [| ? ? Hlt _]; subst.
    inversion Hrise as [| ? ? Hrise' Hnext]; subst.
    destruct (Z.eqb_spec (reg_address reg) (prev + 1)) as [E | Hne].
    + destruct (IH (reg_address reg) start_addr (prev + 1 - start_addr + 1))
        as [Hsep Hstarts]; [lia | assumption | assumption |].
      split; [assumption |].
      eapply Forall_impl; [| exact Hstarts]. simpl. intros run [H | H]; lia.
    + destruct (IH (reg_address reg) (reg_address reg) 1)
        as [Hsep Hstarts]; [lia | assumption | assumption |].
      split.
      * constructor; [assumption |].
        eapply Forall_impl; [| exact Hstarts]. simpl. intros run [H | H]; lia.
      * constructor; [now left |].
        eapply Forall_impl; [| exact Hstarts]. simpl. intros run [H | H]; lia.
Qed.

(** Every address from the start of the current block on, and the
    address of every register still to come, is read by some block. *)
Lemma blocks_loop_holds (rest : list RegisterConfig) :
  forall prev start_addr count : Z,
    count = prev + 1 - start_addr -> 0 < count ->
    (forall a, start_addr <= a <= prev ->
       Exists (holds_address a) (blocks_loop prev start_addr count rest))
    /\ Forall (fun reg =>
                 Exists (holds_address (reg_address reg))
                   (blocks_loop prev start_addr count rest)) rest.
Proof.
  induction rest as [| reg rest IH]; intros prev start_addr count Hc Hpos;
    simpl.
  - split; [| constructor]. intros a Ha. left. unfold holds_address. simpl. lia.
  - destruct (Z.eqb_spec (reg_address reg) (prev + 1)) as [E | Hne].
    + destruct (IH (reg_address reg) start_addr (count + 1)) as [Hrun Hrest];
        [lia | lia |].
      split; [intros a Ha; apply Hrun; lia |].
      constructor; [apply Hrun; lia | assumption].
    + destruct (IH (reg_address reg) (reg_address reg) 1) as [Hrun Hrest];
        [lia | lia |].
      split; [| constructor].
      * intros a Ha. left. unfold holds_address. simpl. lia.
      * right. apply Hrun. lia.
      * eapply Forall_impl; [| exact Hrest]. simpl. intros r Hr. now right.
Qed.

Lemma span_sizes_length (registers : list RegisterConfig) :
  Z.of_nat (length registers) <= span_sizes registers.
Proof.
  induction registers as [| reg registers IH]; simpl; [lia |].
  destruct (reg_data_type reg); simpl; lia.
Qed.

Lemma span_sizes_perm (l l' : list RegisterConfig) :
  Permutation l l' -> span_sizes l = span_sizes l'.
Proof. induction 1; simpl; lia. Qed.

(** The blocks of the code: their sizes add up to the number of registers,
    hence to at most the sum of the spans; the first address of every
    register is read by a block; and, the addresses being pairwise
    distinct, no two blocks overlap or touch.  The second address of a
    32-bit register is not accounted for. *)
Lemma blocks_guarantees (registers : list RegisterConfig) :
  let blocks := group_registers_into_blocks registers in
  run_sizes blocks = Z.of_nat (length registers)
  /\ run_sizes blocks <= span_sizes registers
  /\ Forall (fun reg => Exists (holds_address (reg_address reg)) blocks)
       registers
  /\ (NoDup (map reg_address registers) -> separated blocks).
Proof.
  unfold group_registers_into_blocks.
  pose proof (sorted_by_perm reg_address registers) as Hperm.
  pose proof (sorted_by_rising reg_address registers) as Hrising.
  pose proof (span_sizes_length registers) as Hspans.
  destruct (sorted_by reg_address registers) as [| first rest] eqn:Hsorted.
  - apply Permutation_nil in Hperm. subst. simpl.
    repeat split; try constructor; lia.
  - destruct (blocks_loop_shape rest (reg_address first) (reg_address first) 1)
      as (c & blocks & _ & _ & Hsum).
    destruct (blocks_loop_holds rest (reg_address first) (reg_address first) 1)
      as [Hrun Hrest]; [lia | lia |].
    apply Permutation_length in Hperm as Hlen. simpl in Hlen.
    assert (Hsize : run_sizes
                      (blocks_loop (reg_address first) (reg_address first) 1 rest)
                    = Z.of_nat (length registers)) by lia.
    split; [exact Hsize |]. split; [lia |]. split.
    + eapply Permutation_Forall; [exact Hperm |].
      constructor; [apply Hrun; lia | exact Hrest].
    + intros Hnodup. specialize (Hrising Hnodup).
      inversion Hrising as [| ? ? Hrise' Hfirst]; subst.
      apply blocks_loop_separated; try assumption. lia.
Qed.

(** C2 fails on the code.  The decoder takes two words for a float
    register ([register_count]), the coalescer counts one address for
    it: of the blocks planned for scenario S4 none holds the addresses
    11 and 12 of the float register, and a float register alone gets a
    block of one word. *)
Theorem float_register_not_covered :
  let float_register := register HOLDING 11 FLOAT in
  register_count float_register = 2
  /\ group_registers_into_blocks s4_registers
     = [(10, 2); (13, 1); (20, 1)]
  /\ Spec.covered float_register (group_registers_into_blocks s4_registers)
     = false
  /\ group_registers_into_blocks [float_register] = [(11, 1)]
  /\ Spec.covered float_register
       (group_registers_into_blocks [float_register])
     = false.
Proof. repeat split. Qed.

End Coalescer.

Section Retries.

Import PortManager.

Variable port_config : PortConfig.

Let max_retries := port_max_retries port_config.
Let retry_delay := port_retry_delay port_config.

(** One pass in which the connection fails. *)
Lemma failing_pass (env : pass_env) (st : runner) :
  connection_fails (have_client st) env ->
  pass port_config env st = Failed (log st [Connect]).
Proof.
  intros (_ & Hfails & Hdisconnected). unfold pass, connect.
  destruct (have_client st); simpl.
  - rewrite (Hdisconnected eq_refl). destruct Hfails as [-> | ->]; reflexivity.
  - destruct Hfails as [-> | ->]; reflexivity.
Qed.

Lemma failure_trace_step (m : nat) :
  (([Connect] ++ (if Z.of_nat m >? 0 then [Asleep retry_delay] else []))
     ++ failure_trace m retry_delay)%list
  = failure_trace (S m) retry_delay.
Proof. destruct m; reflexivity. Qed.

Lemma connect_attempts_failure_trace (n : nat) (delay : Q) :
  connect_attempts (failure_trace n delay) = n.
Proof.
  unfold connect_attempts.
  induction n as [| n IH]; [reflexivity |].
  destruct n; [reflexivity |].
  change (failure_trace (S (S n)) delay)
    with (Connect :: Asleep delay :: failure_trace (S n) delay).
  cbn [List.filter length]. now rewrite IH.
Qed.

(** With [m] attempts left, [m] passes in which the connection fails use
    them up and end the loop, at whatever pass they begin. *)
Lemma poll_loop_failures (envs : nat -> pass_env) (m : nat) :
  forall (fuel i : nat) (st : runner),
    (forall j, (j < m)%nat ->
       connection_fails (have_client st) (envs (i + j)%nat)) ->
    retry_count st = max_retries - Z.of_nat m ->
    (m < fuel)%nat ->
    exists st',
      poll_loop fuel port_config envs i st = Some st'
      /\ retry_count st' = max_retries
      /\ have_client st' = have_client st
      /\ statistics st' = statistics st
      /\ trace st' = (trace st ++ failure_trace m retry_delay)%list.
Proof.
  induction m as [| m IH]; intros fuel i st Hfails Hcount Hfuel;
    (destruct fuel as [| fuel]; [lia |]); simpl poll_loop.
  - assert (Hstop : (retry_count st <? port_max_retries port_config) = false)
      by (apply Z.ltb_ge; fold max_retries; lia).
    rewrite Hstop, andb_false_r.
    exists st. repeat split; try reflexivity; [fold max_retries; lia |].
    simpl. now rewrite app_nil_r.
  - assert (Hgo : (retry_count st <? port_max_retries port_config) = true)
      by (apply Z.ltb_lt; fold max_retries; lia).
    assert (Hfirst : connection_fails (have_client st) (envs i)).
    { rewrite <- (Nat.add_0_r i). apply Hfails. lia. }
    destruct Hfirst as (Hrun & Hfirst).
    rewrite Hrun, Hgo, (failing_pass _ _ (conj Hrun Hfirst)).
    simpl andb. cbv iota.
    set (st1 := on_exception port_config (log st [Connect])).
    assert (H1 : retry_count st1 = max_retries - Z.of_nat m
                 /\ have_client st1 = have_client st
                 /\ statistics st1 = statistics st
                 /\ trace st1
                    = (trace st ++ [Connect]
                         ++ (if Z.of_nat m >? 0 then [Asleep retry_delay]
                             else []))%list).
    { unfold st1, on_exception. simpl retry_count.
      fold max_retries retry_delay.
      destruct (Z.ltb_spec (retry_count st + 1) max_retries),
        (Z.gtb_spec (Z.of_nat m) 0); try lia; simpl;
        repeat split; try lia; now rewrite <- ?app_assoc, ?app_nil_r. }
    destruct H1 as (Hc1 & Hh1 & Hs1 & Ht1).
    destruct (IH fuel (S i) st1) as (st' & Hloop & Hc & Hh & Hs & Ht);
      [| exact Hc1 | lia |].
    { intros j Hj. rewrite Hh1.
      replace (S i + j)%nat with (i + S j)%nat by lia. apply Hfails. lia. }
    exists st'. repeat split; try congruence.
    rewrite Ht, Ht1, <- failure_trace_step, !app_assoc. reflexivity.
Qed.

(** The loop, once [k] passes are made, goes on from the state they led
    to. *)
Lemma poll_loop_after_passes (envs : nat -> pass_env) (k : nat) :
  forall (i : nat) (st st' : runner) (fuel : nat),
    after_passes k port_config envs i st = Some st' ->
    poll_loop (k + fuel) port_config envs i st
    = poll_loop fuel port_config envs (i + k) st'.
Proof.
  induction k as [| k IH]; intros i st st' fuel Hafter.
  - injection Hafter as <-. now rewrite Nat.add_0_r.
  - simpl in Hafter |- *.
    destruct (env_running (envs i) && _); [| discriminate].
    replace (i + S k)%nat with (S i + k)%nat by lia.
    destruct (pass port_config (envs i) st) as [st1 | st1 | st1];
      [now apply IH | now apply IH | discriminate].
Qed.

(** The device loop leaves the retry counter alone and only adds to the
    log. *)
Lemma poll_devices_retry_count (now : Q) (devices : list DeviceConfig) :
  forall (polls : list (bool * poll_outcome)) (st : runner),
    retry_count (flow_state (poll_devices now devices polls st))
    = retry_count st.
Proof.
  induction devices as [| d devices IH]; intros polls st; simpl;
    [reflexivity |].
  destruct (hd (true, NoData) polls) as [running outcome].
  destruct running; simpl; [| reflexivity].
  destruct (dev_enabled d); simpl; [| apply IH].
  destruct outcome; try rewrite IH; reflexivity.
Qed.

Lemma pass_connected_retry_count (env : pass_env) (st st1 : runner) :
  connect env st = Next st1 ->
  retry_count (flow_state (pass port_config env st)) = 0.
Proof.
  intros Hconnect. unfold pass. rewrite Hconnect.
  pose proof (poll_devices_retry_count (env_now env)
                (port_devices port_config) (env_polls env)
                (set_retry_count st1 0)) as Hkeep.
  destruct (poll_devices _ _ _ _) as [st2 | st2 | st2]; simpl in Hkeep;
    try exact Hkeep.
  destruct (_ =? 0), (adjust_polling_interval port_config) as [[| |] |];
    simpl; exact Hkeep.
Qed.

Lemma new_events_log (st : runner) (evs : list event) :
  new_events st (log st evs) = evs.
Proof.
  unfold new_events, log. simpl.
  rewrite skipn_app, Nat.sub_diag, skipn_all. reflexivity.
Qed.

Lemma new_events_trace (st st' : runner) (evs : list event) :
  trace st' = (trace st ++ evs)%list -> new_events st st' = evs.
Proof.
  intros H. unfold new_events. rewrite H.
  rewrite skipn_app, Nat.sub_diag, skipn_all. reflexivity.
Qed.

(** [adjust_polling_interval] raises only on a port that has devices,
    none of them enabled. *)
Lemma adjust_polling_interval_raises (e : py_error) :
  adjust_polling_interval port_config = Raise e ->
  port_devices port_config <> []
  /\ Forall (fun d => dev_enabled d = false) (port_devices port_config).
Proof.
  unfold adjust_polling_interval.
  destruct (port_devices port_config) as [| d ds] eqn:Hdevs;
    [discriminate |].
  set (devices := d :: ds).
  destruct (List.filter dev_enabled devices) as [| x xs] eqn:Hfilter.
  - intros _. split; [discriminate |].
    apply Forall_forall. intros y Hy.
    destruct (dev_enabled y) eqn:Hen; [| reflexivity].
    assert (Hin : In y (List.filter dev_enabled devices))
      by (apply filter_In; auto).
    rewrite Hfilter in Hin. contradiction.
  - cbn [map py_min bind]. destruct (Qltb _ _); discriminate.
Qed.

(** With every device disabled the device loop does nothing. *)
Lemma poll_devices_disabled (now : Q) (devices : list DeviceConfig) :
  Forall (fun d => dev_enabled d = false) devices ->
  forall (polls : list (bool * poll_outcome)) (st : runner),
    poll_devices now devices polls st = Next st.
Proof.
  induction 1 as [| d devices Hd _ IH]; intros polls st; simpl;
    [reflexivity |].
  destruct (hd (true, NoData) polls) as [running outcome].
  destruct running; simpl; [| reflexivity].
  rewrite Hd. simpl. apply IH.
Qed.

(** The device loop never fails: an exception of a poll is caught
    inside it. *)
Lemma poll_devices_never_fails (now : Q) (devices : list DeviceConfig) :
  forall (polls : list (bool * poll_outcome)) (st st' : runner),
    poll_devices now devices polls st <> Failed st'.
Proof.
  induction devices as [| d devices IH]; intros polls st st'; simpl;
    [discriminate |].
  destruct (hd (true, NoData) polls) as [running outcome].
  destruct running; simpl; [| discriminate].
  destruct (dev_enabled d); simpl; [| apply IH].
  destruct outcome; try apply IH; discriminate.
Qed.

(** How a pass in which the connection is made leaves the retry counter:
    at 0 when the pass completes or is cancelled, at 1 when
    [adjust_polling_interval] raises at its end, which it does only on a
    port whose devices are all disabled. *)
Lemma connected_pass (env : pass_env) (st st1 : runner) :
  connect env st = Next st1 ->
  match pass port_config env st with
  | Next st2 | Cancelled st2 => retry_count st2 = 0
  | Failed st2 =>
      retry_count (on_exception port_config st2) = 1
      /\ port_devices port_config <> []
      /\ Forall (fun d => dev_enabled d = false) (port_devices port_config)
  end.
Proof.
  intros Hconnect.
  pose proof (pass_connected_retry_count env st st1 Hconnect) as Hzero.
  unfold pass in Hzero |- *. rewrite Hconnect in Hzero |- *.
  destruct (poll_devices _ _ _ _) as [st2 | st2 | st2] eqn:Hpoll;
    simpl in Hzero; try exact Hzero.
  - destruct (adjust_polling_interval port_config)
      as [[| delay | cycle_time min_interval] | e] eqn:Hadjust;
      try exact Hzero.
    split; [| now apply (adjust_polling_interval_raises e)].
    destruct (_ =? 0); simpl in Hzero; unfold on_exception;
      simpl retry_count; rewrite Hzero; destruct (_ <? _); reflexivity.
  - now apply poll_devices_never_fails in Hpoll.
Qed.

(** What the device loop logs: a poll is recorded only for an enabled
    device. *)
Lemma poll_devices_trace (now : Q) (devices : list DeviceConfig) :
  forall (polls : list (bool * poll_outcome)) (st : runner),
  exists evs,
    trace (flow_state (poll_devices now devices polls st))
    = (trace st ++ evs)%list
    /\ (forall name success,
          In (Recorded name success) evs ->
          Exists (fun d => dev_enabled d = true) devices).
Proof.
  induction devices as [| d devices IH]; intros polls st; simpl.
  { exists []. split; [now rewrite app_nil_r | intros ? ? []]. }
  assert (Hstep : forall st1 evs1,
            trace st1 = (trace st ++ evs1)%list ->
            dev_enabled d = true \/ (forall name success,
                                       ~ In (Recorded name success) evs1) ->
            exists evs,
              trace (flow_state (poll_devices now devices (tl polls) st1))
              = (trace st ++ evs)%list
              /\ (forall name success,
                    In (Recorded name success) evs ->
                    Exists (fun d => dev_enabled d = true) (d :: devices))).
  { intros st1 evs1 Htrace Hevs1.
    destruct (IH (tl polls) st1) as (evs & Hevs & Hrec).
    exists (evs1 ++ evs)%list. split.
    - now rewrite Hevs, Htrace, app_assoc.
    - intros name success Hin. apply in_app_or in Hin as [Hin | Hin].
      + destruct Hevs1 as [Hen | Hnone]; [now left |].
        now apply Hnone in Hin.
      + right. now apply (Hrec name success). }
  destruct (hd (true, NoData) polls) as [running outcome].
  destruct running; simpl.
  2: { exists []. split; [now rewrite app_nil_r | intros ? ? []]. }
  destruct (dev_enabled d) eqn:Hen; simpl.
  2: { apply (Hstep st []); [now rewrite app_nil_r |].
       right. intros ? ? []. }
  destruct outcome as [poll_time_ms | | |].
  - eapply Hstep; [| now left]. simpl. rewrite <- !app_assoc. reflexivity.
  - eapply Hstep; [| now left]. simpl. reflexivity.
  - eapply Hstep; [| now left]. simpl. reflexivity.
  - exists []. split; [simpl; now rewrite app_nil_r | intros ? ? []].
Qed.

(** A pass in which a device poll succeeds completes, or is cancelled,
    with the retry counter at zero. *)
Lemma successful_poll_retry_count (env : pass_env) (st : runner)
    (device_name : string) :
  In (Recorded device_name true)
     (new_events st (flow_state (pass port_config env st))) ->
  exists st2,
    (pass port_config env st = Next st2
     \/ pass port_config env st = Cancelled st2)
    /\ retry_count st2 = 0.
Proof.
  intros Hin.
  destruct (connect env st) as [st1 | st1 | st1] eqn:Hconnect.
  - pose proof (connected_pass env st st1 Hconnect) as Hpass.
    destruct (pass port_config env st) as [st2 | st2 | st2] eqn:Hrun.
    + exists st2. split; [now left | exact Hpass].
    + (* the pass failed at its end: no device is enabled *)
      exfalso. destruct Hpass as (_ & _ & Hoff).
      unfold pass in Hrun. rewrite Hconnect in Hrun.
      rewrite (poll_devices_disabled _ _ Hoff) in Hrun.
      assert (Hevs : exists evs, trace st1 = (trace st ++ evs)%list
                       /\ ~ In (Recorded device_name true) evs).
      { unfold connect in Hconnect.
        destruct (have_client st), (env_connected env), (env_connect env);
          simpl in Hconnect; inversion Hconnect; subst; simpl;
          first [ exists [Connect];
                  (split; [reflexivity | intros [H | []]; discriminate])
                | exists []; (split; [now rewrite app_nil_r | intros []]) ]. }
      destruct Hevs as (evs & Hevs & Hnone).
      destruct (_ =? 0), (adjust_polling_interval port_config)
        as [[| |] |]; inversion Hrun; subst; simpl in Hin.
      * rewrite (new_events_trace st _ (evs ++ [LoggedRate])) in Hin
          by (simpl; now rewrite Hevs, app_assoc).
        apply in_app_or in Hin as [Hin | [Hin | []]];
          [now apply Hnone | discriminate].
      * rewrite (new_events_trace st _ evs) in Hin by exact Hevs.
        now apply Hnone.
    + exists st2. split; [now right | exact Hpass].
  - exfalso. unfold pass in Hin. rewrite Hconnect in Hin. simpl in Hin.
    unfold connect in Hconnect.
    destruct (have_client st), (env_connected env), (env_connect env);
      simpl in Hconnect; inversion Hconnect; subst;
      rewrite new_events_log in Hin; destruct Hin as [H | []]; discriminate.
  - exfalso. unfold pass in Hin. rewrite Hconnect in Hin. simpl in Hin.
    unfold connect in Hconnect.
    destruct (have_client st), (env_connected env), (env_connect env);
      simpl in Hconnect; inversion Hconnect; subst;
      rewrite new_events_log in Hin; destruct Hin as [H | []]; discriminate.
Qed.

(** C8, as the code has it.  Take [poll_port] at the head of its loop,
    after any [k] passes, with the retry counter at [c] and [n =
    max_retries - c] attempts left.  A run of [n] consecutive passes in
    which the connection fails -- no client is returned, or connecting
    raises -- makes exactly [n] attempts to connect, with a sleep of
    [retry_delay] between one attempt and the next and none after the
    last, ends the loop and logs that the attempts are used up; the
    wrapper [async_retry] adds no attempt, since the body returns
    normally.  The counter [c] is 0 when [poll_port] starts and after
    every pass that connects and completes or is cancelled, so that
    [max_retries] attempts are made then; in particular a pass in which
    a device poll succeeds ends, completed or cancelled, with the
    counter at 0, which is set when the connection is made.  The counter
    is 1 after a pass that connects and fails in
    [adjust_polling_interval], which happens on a port whose devices are
    all disabled: [max_retries - 1] attempts are made then. *)
Theorem retry_policy (envs : nat -> pass_env) (have : bool)
    (stats : PortStatistics.t) (k n fuel : nat) (st : runner) :
  after_passes k port_config envs 0 (start have stats) = Some st ->
  Z.of_nat n = max_retries - retry_count st ->
  (forall j, (j < n)%nat ->
     connection_fails (have_client st) (envs (k + j)%nat)) ->
  (k + n < fuel)%nat ->
  (exists st',
     poll_port fuel port_config envs have stats = Some ([], Returned st')
     /\ new_events st st'
        = (failure_trace n retry_delay
             ++ (if have_client st then [Closed] else [])
             ++ [RetriesExceeded])%list
     /\ connect_attempts (new_events st st') = n
     /\ retry_count st' = max_retries)
  /\ retry_count (start have stats) = 0
  /\ (forall env st0 st1,
        connect env st0 = Next st1 ->
        match pass port_config env st0 with
        | Next st2 | Cancelled st2 => retry_count st2 = 0
        | Failed st2 =>
            retry_count (on_exception port_config st2) = 1
            /\ port_devices port_config <> []
            /\ Forall (fun d => dev_enabled d = false)
                 (port_devices port_config)
        end)
  /\ (forall env st0 device_name,
        In (Recorded device_name true)
           (new_events st0 (flow_state (pass port_config env st0))) ->
        exists st2,
          (pass port_config env st0 = Next st2
           \/ pass port_config env st0 = Cancelled st2)
          /\ retry_count st2 = 0).
Proof.
  intros Hafter Hleft Hfails Hfuel.
  split; [| split; [reflexivity | split]];
    [| exact connected_pass
     | intros env st0 name; apply successful_poll_retry_count].
  destruct (poll_loop_failures envs n (fuel - k) k st)
    as (st' & Hloop & Hcount & Hhave & _ & Htrace);
    [exact Hfails | fold max_retries; lia | lia |].
  assert (Hwhole : poll_loop fuel port_config envs 0 (start have stats)
                   = Some st').
  { replace fuel with (k + (fuel - k))%nat by lia.
    rewrite (poll_loop_after_passes envs k _ _ _ _ Hafter). exact Hloop. }
  exists (finish port_config st').
  assert (Hfinal : trace (finish port_config st')
                   = (trace st
                        ++ failure_trace n retry_delay
                        ++ (if have_client st then [Closed] else [])
                        ++ [RetriesExceeded])%list).
  { unfold finish. rewrite Hhave.
    destruct (have_client st); simpl retry_count; rewrite Hcount;
      fold max_retries; rewrite Z.leb_refl; simpl; rewrite Htrace;
      now rewrite <- ?app_assoc. }
  assert (Hnew : new_events st (finish port_config st')
                 = (failure_trace n retry_delay
                      ++ (if have_client st then [Closed] else [])
                      ++ [RetriesExceeded])%list)
    by (apply new_events_trace; exact Hfinal).
  split; [| split; [exact Hnew | split]].
  - unfold poll_port, poll_port_body. rewrite Hwhole.
    unfold async_retry. simpl. reflexivity.
  - rewrite Hnew. unfold connect_attempts.
    rewrite filter_app, length_app.
    fold (connect_attempts (failure_trace n retry_delay)).
    rewrite connect_attempts_failure_trace.
    destruct (have_client st); simpl; lia.
  - unfold finish. rewrite Hhave.
    destruct (have_client st); simpl retry_count; rewrite Hcount;
      fold max_retries; rewrite Z.leb_refl; simpl; exact Hcount.
Qed.

End Retries.

Lemma retry_policy_witness :
  exists st st',
    after_passes 1 one_device_port answers_once 0
      (PortManager.start false (PortStatistics.init "port1")) = Some st
    /\ PortManager.retry_count st = 0
    /\ PortManager.poll_port 5 one_device_port answers_once false
         (PortStatistics.init "port1")
       = Some ([], Returned st')
    /\ new_events st st'
       = [PortManager.Connect; PortManager.Asleep 5; PortManager.Connect;
          PortManager.Asleep 5; PortManager.Connect; PortManager.Closed;
          PortManager.RetriesExceeded]
    /\ PortManager.connect_attempts (new_events st st') = 3%nat.
Proof.
  eexists.
  assert (Hafter : after_passes 1 one_device_port answers_once 0
                     (PortManager.start false (PortStatistics.init "port1"))
                   = Some _) by (vm_compute; reflexivity).
  destruct (retry_policy one_device_port answers_once false
              (PortStatistics.init "port1") 1 3 5 _ Hafter) as [Hrun _].
  - reflexivity.
  - intros j Hj. destruct j as [| j]; repeat split; auto.
  - lia.
  - destruct Hrun as (st' & Hrun & Hnew & Hattempts & _).
    exists st'. split; [exact Hafter |]. split; [reflexivity |].
    split; [exact Hrun |]. split; [exact Hnew | exact Hattempts].
Defined.

(** C8 as stated fails: with [max_retries] = 2 the loop gives up after two
    attempts to connect, not three. *)
Lemma two_retries_two_attempts :
  exists st,
    PortManager.poll_port 10 (tcp_port 2 1 []) (fun _ => unreachable) false
      (PortStatistics.init "port1")
    = Some ([], Returned st)
    /\ PortManager.trace st
       = [PortManager.Connect; PortManager.Asleep 1; PortManager.Connect;
          PortManager.RetriesExceeded]
    /\ PortManager.connect_attempts (PortManager.trace st) = 2%nat
    /\ PortManager.connect_attempts (PortManager.trace st)
       <> Z.to_nat (port_max_retries (tcp_port 2 1 []) + 1).
Proof.
  eexists. split; [reflexivity |]. repeat split. discriminate.
Qed.

Section Bits.

Import DataConverter.

Lemma testbit_255 (i : Z) : Z.testbit 255 i = (0 <=? i) && (i <? 8).
Proof. change 255 with (Z.ones 8). apply Z.testbit_ones. lia. Qed.

(** A word is a non-negative number without bits from 16 on. *)
Lemma word_bits (x : Z) :
  word x <-> 0 <= x /\ forall i, 16 <= i -> Z.testbit x i = false.
Proof.
  unfold word. split.
  - intros Hx. split; [lia |]. intros i Hi.
    apply (testbit_above 16); lia.
  - intros [Hpos Hhigh].
    assert (E : x mod 2 ^ 16 = x).
    { apply Z.bits_inj'. intros i Hi.
      rewrite Z.testbit_mod_pow2 by lia.
      destruct (Z.ltb_spec i 16); [reflexivity |].
      now rewrite Hhigh. }
    pose proof (Z.mod_pos_bound x (2 ^ 16)). lia.
Qed.

(** The bits of a byte-swapped value: the two low bytes change places,
    nothing else is kept. *)
Lemma swap_bytes_16_testbit (v i : Z) :
  0 <= i ->
  Z.testbit (swap_bytes_16 v) i
  = if i <? 8 then Z.testbit v (i + 8)
    else if i <? 16 then Z.testbit v (i - 8)
    else false.
Proof.
  intros Hi. unfold swap_bytes_16.
  rewrite Z.lor_spec, Z.shiftl_spec, !Z.land_spec, Z.shiftr_spec, !testbit_255
    by lia.
  destruct (Z.ltb_spec i 8), (Z.ltb_spec i 16), (Z.leb_spec 0 (i - 8)),
    (Z.ltb_spec (i - 8) 8), (Z.leb_spec 0 i); try lia;
    rewrite ?Z.testbit_neg_r by lia;
    rewrite ?andb_true_r, ?andb_false_r, ?orb_false_r, ?orb_false_l;
    reflexivity.
Qed.

Lemma swap_bytes_16_is_word (v : Z) : word (swap_bytes_16 v).
Proof.
  apply word_bits. split.
  - unfold swap_bytes_16. apply Z.lor_nonneg. split.
    + apply Z.shiftl_nonneg, Z.land_nonneg. right. lia.
    + apply Z.land_nonneg. right. lia.
  - intros i Hi. rewrite swap_bytes_16_testbit by lia.
    destruct (Z.ltb_spec i 8), (Z.ltb_spec i 16); reflexivity || lia.
Qed.

(** Swapping the bytes twice leaves the low 16 bits. *)
Lemma swap_bytes_16_twice (v : Z) :
  swap_bytes_16 (swap_bytes_16 v) = v mod 2 ^ 16.
Proof.
  apply Z.bits_inj'. intros i Hi.
  rewrite Z.testbit_mod_pow2 by lia.
  rewrite swap_bytes_16_testbit by lia.
  destruct (Z.ltb_spec i 8), (Z.ltb_spec i 16); try lia;
    rewrite ?swap_bytes_16_testbit by lia; simpl andb.
  - destruct (Z.ltb_spec (i + 8) 8), (Z.ltb_spec (i + 8) 16); try lia.
    f_equal; lia.
  - destruct (Z.ltb_spec (i - 8) 8); try lia. f_equal; lia.
Qed.

(** X1.  [swap_bytes_16] maps every integer to a word made of its two low
    bytes in the other order; applied twice it gives the low 16 bits back,
    so on words it is its own inverse. *)
Theorem swap_bytes_16_involution (v : Z) :
  word (swap_bytes_16 v)
  /\ swap_bytes_16 v = (v mod 256) * 256 + (v / 256) mod 256
  /\ swap_bytes_16 (swap_bytes_16 v) = v mod 2 ^ 16
  /\ (word v -> swap_bytes_16 (swap_bytes_16 v) = v).
Proof.
  split; [apply swap_bytes_16_is_word |].
  split; [apply swap_bytes_16_arith |].
  split; [apply swap_bytes_16_twice |].
  intros Hw. rewrite swap_bytes_16_twice. apply Z.mod_small.
  unfold word in Hw. lia.
Qed.

Lemma testbit_mask (k i : Z) :
  0 <= k -> Z.testbit (Z.shiftl 255 k) i = (k <=? i) && (i <? k + 8).
Proof.
  intros Hk.
  destruct (Z.ltb_spec i 0).
  - rewrite Z.testbit_neg_r by lia.
    destruct (Z.leb_spec k i); [lia | reflexivity].
  - rewrite Z.shiftl_spec, testbit_255 by lia.
    destruct (Z.leb_spec 0 (i - k)), (Z.leb_spec k i), (Z.ltb_spec (i - k) 8),
      (Z.ltb_spec i (k + 8)); reflexivity || lia.
Qed.

Lemma swap_bytes_32_testbit (v i : Z) :
  0 <= i ->
  Z.testbit (swap_bytes_32 v) i
  = if i <? 8 then Z.testbit v (i + 24)
    else if i <? 16 then Z.testbit v (i + 8)
    else if i <? 24 then Z.testbit v (i - 8)
    else if i <? 32 then Z.testbit v (i - 24)
    else false.
Proof.
  intros Hi. unfold swap_bytes_32.
  change 4278190080 with (Z.shiftl 255 24).
  change 16711680 with (Z.shiftl 255 16).
  change 65280 with (Z.shiftl 255 8).
  rewrite !Z.lor_spec, !Z.shiftr_spec, !Z.shiftl_spec, !Z.land_spec by lia.
  rewrite !testbit_mask, testbit_255 by lia.
  destruct (Z.ltb_spec i 8), (Z.ltb_spec i 16), (Z.ltb_spec i 24),
    (Z.ltb_spec i 32); try lia;
    repeat match goal with
      | |- context [?a <=? ?b] => destruct (Z.leb_spec a b); try lia
      | |- context [?a <? ?b] => destruct (Z.ltb_spec a b); try lia
      end;
    rewrite ?(Z.testbit_neg_r v) by lia;
    rewrite ?andb_true_r, ?andb_false_r, ?orb_false_r, ?orb_false_l;
    reflexivity.
Qed.

(** X2.  [swap_bytes_32] maps every integer to a 32-bit value, the four
    low bytes in reverse order; applied twice it gives the low 32 bits
    back, so on 32-bit values it is its own inverse. *)
Theorem swap_bytes_32_involution (v : Z) :
  0 <= swap_bytes_32 v < 2 ^ 32
  /\ swap_bytes_32 (swap_bytes_32 v) = v mod 2 ^ 32
  /\ (0 <= v < 2 ^ 32 -> swap_bytes_32 (swap_bytes_32 v) = v).
Proof.
  assert (Htwice : swap_bytes_32 (swap_bytes_32 v) = v mod 2 ^ 32).
  { apply Z.bits_inj'. intros i Hi.
    rewrite Z.testbit_mod_pow2 by lia.
    rewrite swap_bytes_32_testbit by lia.
    destruct (Z.ltb_spec i 8), (Z.ltb_spec i 16), (Z.ltb_spec i 24),
      (Z.ltb_spec i 32); try lia;
      rewrite ?swap_bytes_32_testbit by lia; simpl andb;
      repeat match goal with
        | |- context [?a <? ?b] => destruct (Z.ltb_spec a b); try lia
        end;
      try (f_equal; lia). }
  assert (Hrange : 0 <= swap_bytes_32 v < 2 ^ 32).
  { assert (Hpos : 0 <= swap_bytes_32 v).
    { unfold swap_bytes_32.
      repeat (apply Z.lor_nonneg; split);
        try apply Z.shiftr_nonneg; try apply Z.shiftl_nonneg;
        apply Z.land_nonneg; right; lia. }
    assert (E : swap_bytes_32 v mod 2 ^ 32 = swap_bytes_32 v).
    { apply Z.bits_inj'. intros i Hi.
      rewrite Z.testbit_mod_pow2 by lia.
      destruct (Z.ltb_spec i 32); [reflexivity |].
      rewrite swap_bytes_32_testbit by lia.
      destruct (Z.ltb_spec i 8), (Z.ltb_spec i 16), (Z.ltb_spec i 24),
        (Z.ltb_spec i 32); reflexivity || lia. }
    pose proof (Z.mod_pos_bound (swap_bytes_32 v) (2 ^ 32)). lia. }
  split; [exact Hrange |]. split; [exact Htwice |].
  intros Hv. rewrite Htwice. apply Z.mod_small. exact Hv.
Qed.

(** X3.  On a register word [int16_to_signed] gives the 16-bit two's
    complement value of the word, its bytes swapped first when the byte
    order is little: a value of -32768..32767 congruent to the pattern
    modulo 2^16. *)
Theorem int16_to_signed_twos_complement (w : Z) (little : bool) :
  word w ->
  let pattern := if little then swap_bytes_16 w else w in
  let value := int16_to_signed w (order_name little) in
  - 2 ^ 15 <= value < 2 ^ 15
  /\ value mod 2 ^ 16 = pattern
  /\ (value < 0 <-> Z.testbit pattern 15 = true).
Proof.
  intros Hw pattern value.
  assert (Hp : word pattern).
  { unfold pattern. destruct little; [apply swap_bytes_16_is_word | exact Hw]. }
  assert (Hv : value = if 32768 <=? pattern then pattern - 65536 else pattern).
  { unfold value, int16_to_signed, pattern.
    rewrite order_name_little. destruct little; reflexivity. }
  assert (Hbit : Z.testbit pattern 15 = true <-> 2 ^ 15 <= pattern).
  { unfold word in Hp. rewrite Z.testbit_true by lia.
    assert (pattern / 2 ^ 15 = 0 \/ pattern / 2 ^ 15 = 1) as [E | E].
    { assert (0 <= pattern / 2 ^ 15 < 2)
        by (split; [apply Z.div_pos | apply Z.div_lt_upper_bound]; lia).
      lia. }
    - rewrite E. split; [discriminate |]. intros H.
      apply Z.div_small_iff in E; lia.
    - rewrite E. split; [| reflexivity]. intros _.
      destruct (Z.lt_ge_cases pattern (2 ^ 15)) as [Hlt | Hge]; [| exact Hge].
      rewrite Z.div_small in E; lia. }
  rewrite Hv. unfold word in Hp.
  destruct (Z.leb_spec 32768 pattern); repeat split; try lia.
  - replace (pattern - 65536) with (pattern + (-1) * 2 ^ 16) by lia.
    rewrite Z.mod_add by lia. apply Z.mod_small. lia.
  - intros _. apply Hbit. lia.
  - apply Z.mod_small. lia.
  - intros Hb. apply Hbit in Hb. lia.
Qed.

Lemma int16_to_signed_twos_complement_witness :
  word 255
  /\ int16_to_signed 255 "little" = -256
  /\ - 2 ^ 15 <= int16_to_signed 255 "little" < 2 ^ 15.
Proof.
  assert (H : word 255) by (unfold word; lia).
  destruct (int16_to_signed_twos_complement 255 true H) as (Hrange & _ & _).
  split; [exact H | split; [reflexivity | exact Hrange]].
Defined.

(** [(x >> n) & 1] is bit [n] of [x]. *)
Lemma shiftr_land_1 (x n : Z) :
  0 <= n -> Z.land (Z.shiftr x n) 1 = Z.b2z (Z.testbit x n).
Proof.
  intros Hn. change 1 with (Z.ones 1) at 1.
  rewrite Z.land_ones, Z.shiftr_div_pow2, Z.testbit_spec' by lia.
  reflexivity.
Qed.

Lemma testbit_bit (p i : Z) :
  0 <= p -> Z.testbit (Z.shiftl 1 p) i = (i =? p).
Proof.
  intros Hp. rewrite Z.shiftl_1_l, Z.pow2_bits_eqb by lia. apply Z.eqb_sym.
Qed.

(** Setting or clearing one of the 16 bits of a word gives a word. *)
Lemma word_set_bit (s p : Z) :
  word s -> 0 <= p <= 15 ->
  word (Z.lor s (Z.shiftl 1 p))
  /\ word (Z.land s (Z.lnot (Z.shiftl 1 p))).
Proof.
  intros Hs Hp. apply word_bits in Hs as [Hpos Hhigh]. split; apply word_bits.
  - split.
    + apply Z.lor_nonneg. split; [assumption |]. apply Z.shiftl_nonneg. lia.
    + intros i Hi. rewrite Z.lor_spec, testbit_bit, Hhigh by lia.
      destruct (Z.eqb_spec i p); [lia | reflexivity].
  - split.
    + apply Z.land_nonneg. now left.
    + intros i Hi. rewrite Z.land_spec, Hhigh by lia. reflexivity.
Qed.

(** X4.  On a register word, with a bit position of 0..15 and a bit value
    of 0 or 1, [set_bit_in_register] returns a word in which
    [get_bit_from_register], with the same byte order, reads the new value
    at that position and the old values at the 15 others. *)
Theorem set_then_get_bit (w p b : Z) (little : bool) :
  word w -> 0 <= p <= 15 -> b = 0 \/ b = 1 ->
  exists w',
    set_bit_in_register w p b (order_name little) = Return w'
    /\ word w'
    /\ forall q, 0 <= q <= 15 ->
         get_bit_from_register w' q (order_name little)
         = if q =? p then Return b
           else get_bit_from_register w q (order_name little).
Proof.
  intros Hw Hp Hb.
  set (s := if little then swap_bytes_16 w else w).
  assert (Hs : word s).
  { unfold s. destruct little; [apply swap_bytes_16_is_word | exact Hw]. }
  set (t := if negb (b =? 0) then Z.lor s (Z.shiftl 1 p)
            else Z.land s (Z.lnot (Z.shiftl 1 p))).
  assert (Ht : word t).
  { unfold t. destruct (word_set_bit s p Hs Hp). now destruct (negb _). }
  assert (Hset : set_bit_in_register w p b (order_name little)
                 = Return (if little then swap_bytes_16 t else t)).
  { unfold set_bit_in_register. rewrite order_name_little.
    destruct (Z.leb_spec 0 p), (Z.leb_spec p 15); try lia.
    assert (Hvalue : (b =? 0) || (b =? 1) = true) by (destruct Hb; now subst).
    rewrite Hvalue. simpl negb. cbv iota.
    unfold t, s. destruct little; reflexivity. }
  rewrite Hset. eexists. split; [reflexivity |]. split.
  { destruct little; [apply swap_bytes_16_is_word | exact Ht]. }
  intros q Hq.
  assert (Hget : forall x,
             get_bit_from_register x q (order_name little)
             = Return (Z.b2z (Z.testbit
                                (if little then swap_bytes_16 x else x) q))).
  { intros x. unfold get_bit_from_register. rewrite order_name_little.
    destruct (Z.leb_spec 0 q), (Z.leb_spec q 15); try lia. simpl negb.
    cbv iota. rewrite <- shiftr_land_1 by lia. destruct little; reflexivity. }
  rewrite !Hget.
  assert (Hback : (if little
                   then swap_bytes_16 (if little then swap_bytes_16 t else t)
                   else (if little then swap_bytes_16 t else t)) = t).
  { destruct little; [| reflexivity].
    rewrite swap_bytes_16_twice. apply Z.mod_small. unfold word in Ht. lia. }
  rewrite Hback. fold s. unfold t.
  destruct Hb as [-> | ->]; simpl negb; cbv iota.
  - rewrite Z.land_spec, Z.lnot_spec, testbit_bit by lia.
    destruct (Z.eqb_spec q p); [now rewrite andb_false_r |].
    now rewrite andb_true_r.
  - rewrite Z.lor_spec, testbit_bit by lia.
    destruct (Z.eqb_spec q p); [now rewrite orb_true_r |].
    now rewrite orb_false_r.
Qed.

Lemma set_then_get_bit_witness :
  word 0 /\ 0 <= 3 <= 15 /\ (1 = 0 \/ 1 = 1)
  /\ exists w',
       set_bit_in_register 0 3 1 "little" = Return w'
       /\ word w'
       /\ forall q, 0 <= q <= 15 ->
            get_bit_from_register w' q "little"
            = if q =? 3 then Return 1 else get_bit_from_register 0 q "little".
Proof.
  assert (Hw : word 0) by (unfold word; lia).
  assert (Hp : 0 <= 3 <= 15) by lia.
  assert (Hb : 1 = 0 \/ 1 = 1) by (right; reflexivity).
  split; [exact Hw | split; [exact Hp | split; [exact Hb |]]].
  exact (set_then_get_bit 0 3 1 true Hw Hp Hb).
Defined.

(** X5.  [split_register_to_bytes] returns two bytes for every integer,
    and [bytes_to_register], with the same byte order, puts them together
    to the low 16 bits of that integer: to the register itself when it is a
    word. *)
Theorem split_then_join_bytes (v : Z) (little : bool) :
  exists high_byte low_byte,
    split_register_to_bytes v (order_name little)
    = Return (high_byte, low_byte)
    /\ 0 <= high_byte <= 255 /\ 0 <= low_byte <= 255
    /\ bytes_to_register high_byte low_byte (order_name little)
       = Return (v mod 2 ^ 16)
    /\ (word v ->
        bytes_to_register high_byte low_byte (order_name little) = Return v).
Proof.
  assert (Hlow : 0 <= Z.land v 255 <= 255)
    by (rewrite land_255; pose proof (Z.mod_pos_bound v 256); lia).
  assert (Hhigh : 0 <= Z.land (Z.shiftr v 8) 255 <= 255)
    by (rewrite land_255; pose proof (Z.mod_pos_bound (Z.shiftr v 8) 256); lia).
  assert (Hjoin : Z.lor (Z.shiftl (Z.land (Z.shiftr v 8) 255) 8) (Z.land v 255)
                  = v mod 2 ^ 16).
  { rewrite (lor_shiftl 8) by lia. rewrite !land_255, shiftr_8.
    change (2 ^ 16) with (256 * 256).
    rewrite Z.rem_mul_r by lia. lia. }
  assert (Hcheck : forall b, 0 <= b <= 255 ->
                     negb ((0 <=? b) && (b <=? 255)) = false).
  { intros b Hb. destruct (Z.leb_spec 0 b), (Z.leb_spec b 255); simpl; lia. }
  assert (Hsmall : word v -> v mod 2 ^ 16 = v)
    by (unfold word; intros; apply Z.mod_small; lia).
  unfold split_register_to_bytes, bytes_to_register.
  rewrite order_name_big, order_name_little.
  destruct little; simpl negb; cbv iota; do 2 eexists;
    (split; [reflexivity |]); (split; [eassumption |]);
    (split; [eassumption |]);
    rewrite !Hcheck by assumption; rewrite Hjoin;
    (split; [reflexivity |]); intros Hv; now rewrite Hsmall.
Qed.

End Bits.

Section BitStringErrors.

Import DataConverter.

Lemma register_to_bits_returns (v : Z) (little : bool) :
  word v ->
  register_to_bits v (order_name little)
  = Ok (if little
        then format_08b (Z.land v 255) ++ format_08b (Z.land (Z.shiftr v 8) 255)
        else format_08b (Z.land (Z.shiftr v 8) 255) ++ format_08b (Z.land v 255)).
Proof.
  intros Hv. unfold register_to_bits, word in *.
  destruct (Z.leb_spec 0 v), (Z.leb_spec v 65535); try lia. simpl negb.
  cbv iota. rewrite order_name_big, order_name_little.
  destruct little; reflexivity.
Qed.

(** X6.  [register_to_bits] raises exactly when the register value is
    outside 0..65535 or the byte order is neither big nor little; with the
    little byte order it returns the bits that the big byte order gives
    for the byte-swapped register. *)
Theorem register_to_bits_domain (v : Z) (byteorder : string) :
  (raises (register_to_bits v byteorder)
   <-> ~ word v \/ (byteorder <> "big" /\ byteorder <> "little"))
  /\ (word v ->
      register_to_bits v "little" = register_to_bits (swap_bytes_16 v) "big").
Proof.
  split.
  - unfold raises, register_to_bits, word.
    destruct (Z.leb_spec 0 v) as [Hlo | Hlo],
      (Z.leb_spec v 65535) as [Hhi | Hhi]; simpl negb; cbv iota.
    2-4: split; [intros _; left; lia | intros _; eauto].
    destruct (String.eqb_spec byteorder "big") as [-> | Hbig].
    { simpl. split; [intros [e He]; discriminate | intros [Hv | [Hne _]]];
        [lia | congruence]. }
    destruct (String.eqb_spec byteorder "little") as [-> | Hlittle].
    { simpl. split; [intros [e He]; discriminate | intros [Hv | [_ Hne]]];
        [lia | congruence]. }
    simpl. split; [intros _; right; split; assumption | intros _; eauto].
  - intros Hv.
    pose proof (register_to_bits_returns v true Hv) as Hl.
    pose proof (register_to_bits_returns (swap_bytes_16 v) false
                  (swap_bytes_16_is_word v)) as Hb.
    simpl order_name in Hl, Hb. rewrite Hl, Hb.
    assert (Hlow : Z.land (swap_bytes_16 v) 255 = Z.land (Z.shiftr v 8) 255).
    { apply Z.bits_inj'. intros i Hi.
      rewrite !Z.land_spec, testbit_255, Z.shiftr_spec, swap_bytes_16_testbit
        by lia.
      destruct (Z.leb_spec 0 i), (Z.ltb_spec i 8); try lia; simpl;
        rewrite ?andb_false_r, ?andb_true_r; reflexivity. }
    assert (Hhigh : Z.land (Z.shiftr (swap_bytes_16 v) 8) 255 = Z.land v 255).
    { apply Z.bits_inj'. intros i Hi.
      rewrite !Z.land_spec, testbit_255, Z.shiftr_spec, swap_bytes_16_testbit
        by lia.
      destruct (Z.leb_spec 0 i), (Z.ltb_spec i 8); try lia; simpl;
        rewrite ?andb_false_r, ?andb_true_r; try reflexivity.
      destruct (Z.ltb_spec (i + 8) 8), (Z.ltb_spec (i + 8) 16); try lia.
      f_equal; lia. }
    now rewrite Hlow, Hhigh.
Qed.

End BitStringErrors.

Section DecoderDomain.

Import DataConverter.

Lemma float_from_registers_words (high low : Z) (byteorder wordorder : string) :
  word high -> word low ->
  returns (float_from_registers high low byteorder wordorder).
Proof.
  intros Hh Hl. unfold float_from_registers, returns.
  pose proof (swap_bytes_16_is_word high) as Sh.
  pose proof (swap_bytes_16_is_word low) as Sl.
  unfold swap_bytes_16 in Sh, Sl.
  assert (Hcheck : forall x, word x ->
                     negb ((0 <=? x) && (x <=? 65535)) = false).
  { unfold word. intros x Hx.
    destruct (Z.leb_spec 0 x), (Z.leb_spec x 65535); simpl; lia. }
  destruct (String.eqb wordorder "little"), (String.eqb byteorder "little");
    rewrite !Hcheck by assumption; eauto.
Qed.

(** X7.  On register words [convert_from_registers] raises exactly when
    the list is empty, when a 32-bit type (int32, uint32, float) comes
    with a single word, or when the data type is none of the six known
    ones; in every other case it returns a value. *)
Theorem convert_from_registers_domain (registers : list Z)
    (data_type byteorder wordorder : string) (scale offset : Q)
    (precision : Z) :
  Forall word registers ->
  let result :=
    convert_from_registers registers data_type byteorder wordorder
      scale offset precision in
  let rejected :=
    registers = []
    \/ (is_32bit data_type = true /\ (length registers < 2)%nat)
    \/ (is_16bit data_type = false /\ is_32bit data_type = false) in
  (raises result <-> rejected) /\ (returns result <-> ~ rejected).
Proof.
  intros Hwords result rejected.
  assert (Hcases : (raises result /\ rejected)
                   \/ (returns result /\ ~ rejected)).
  { unfold result, rejected, convert_from_registers.
    destruct registers as [| r0 rest].
    { left. split; [unfold raises; eauto | now left]. }
    fold (is_16bit data_type) (is_32bit data_type).
    destruct (is_16bit data_type) eqn:H16.
    { right. split.
      - apply convert_value_returns. now inversion Hwords.
      - intros [H | [[H32 _] | [H _]]]; try discriminate.
        apply is_32bit_not_16bit in H32. congruence. }
    destruct (is_32bit data_type) eqn:H32.
    2: { left. split; [unfold raises; eauto | right; right; auto]. }
    destruct rest as [| r1 rest].
    { left. split; [unfold raises; eauto |].
      right; left; split; [reflexivity | simpl; lia]. }
    inversion Hwords as [| ? ? Hr0 Hrest]; subst.
    inversion Hrest as [| ? ? Hr1 _]; subst.
    right. split.
    - pose proof binary64_overflow_large.
      destruct (from_registers_small r0 r1 byteorder wordorder Hr0 Hr1)
        as [Hi32 Hu32].
      destruct (String.eqb data_type "int32").
      { cbv beta iota delta [bind].
        destruct (to_float_int (int32_from_registers r0 r1 byteorder wordorder))
          as [-> _]; [lia | unfold returns; simpl; eauto]. }
      destruct (String.eqb data_type "uint32").
      { cbv beta iota delta [bind].
        destruct (to_float_int (uint32_from_registers r0 r1 byteorder wordorder))
          as [-> _]; [lia | unfold returns; simpl; eauto]. }
      destruct (float_from_registers_words r0 r1 byteorder wordorder Hr0 Hr1)
        as [f Hf].
      rewrite Hf. unfold returns. simpl. eauto.
    - intros [H | [[_ Hlen] | [_ H]]]; try discriminate. simpl in Hlen. lia. }
  destruct Hcases as [[Hraises Hrej] | [Hreturns Hok]]; split; split;
    try tauto.
  - intros [v Hv]. destruct Hraises as [e He]. congruence.
  - intros [e He]. destruct Hreturns as [v Hv]. congruence.
Qed.

Lemma convert_from_registers_domain_witness :
  Forall word [16456; 62915]
  /\ returns (convert_from_registers [16456; 62915] "float" "big" "big" 1 0 3).
Proof.
  assert (H : Forall word [16456; 62915])
    by (repeat constructor; unfold word; lia).
  split; [exact H |].
  apply (convert_from_registers_domain [16456; 62915] "float" "big" "big"
           1 0 3 H).
  intros [E | [[_ E] | [_ E]]];
    [discriminate | simpl in E; lia | discriminate].
Defined.

End DecoderDomain.

Section Retry.

Context {A : Type}.

Lemma async_retry_from_spec (max_retries : Z) (delay : Q)
    (func : nat -> call_outcome A) (k : nat) :
  (forall j, (j < k)%nat -> func j = RaisedListed) ->
  forall (todo attempt : nat),
    max_retries = Z.of_nat (attempt + todo) ->
    (attempt <= k)%nat ->
    ((k < attempt + todo)%nat -> func k <> RaisedListed ->
     async_retry_from max_retries delay func attempt todo
     = (repeat delay (k - attempt), func k))
    /\ (k = (attempt + todo)%nat -> (0 < k)%nat ->
        async_retry_from max_retries delay func attempt todo
        = (repeat delay (k - 1 - attempt), RaisedListed)).
Proof.
  intros Hfail. induction todo as [| todo IH]; intros attempt Hmax Hle.
  - split; [lia |]. intros -> Hpos. simpl.
    replace (attempt + 0 - 1 - attempt)%nat with 0%nat by lia.
    destruct attempt; [lia | reflexivity].
  - destruct (Nat.eq_dec attempt k) as [-> | Hne].
    + split; [| lia]. intros _ Hok. simpl.
      rewrite Nat.sub_diag. now destruct (func k).
    + assert (Hlt : (attempt < k)%nat) by lia.
      destruct (IH (S attempt)) as [IHa IHb]; [lia | lia |].
      simpl. rewrite (Hfail attempt Hlt).
      split.
      * intros Hk Hok. rewrite IHa by (assumption || lia).
        destruct (Z.ltb_spec (Z.of_nat attempt) (max_retries - 1)); [| lia].
        replace (k - attempt)%nat with (S (k - S attempt)) by lia.
        reflexivity.
      * intros Hk Hpos. rewrite IHb by (assumption || lia).
        destruct (Z.ltb_spec (Z.of_nat attempt) (max_retries - 1)).
        -- replace (k - 1 - attempt)%nat with (S (k - 1 - S attempt)) by lia.
           reflexivity.
        -- replace (k - 1 - attempt)%nat with 0%nat by lia.
           replace (k - 1 - S attempt)%nat with 0%nat by lia.
           reflexivity.
Qed.

(** X8.  When the first [k] calls of the decorated function raise a listed
    exception, [async_retry] sleeps [delay] after each of them and ends as
    call [k] ends, if [k] is below [max_retries] and that call returns or
    raises another exception; if [k] is [max_retries] itself the wrapper
    raises after [max_retries] calls and [max_retries - 1] sleeps. *)
Theorem async_retry_outcome (max_retries : Z) (delay : Q)
    (func : nat -> call_outcome A) (k : nat) :
  (forall j, (j < k)%nat -> func j = RaisedListed) ->
  (Z.of_nat k < max_retries -> func k <> RaisedListed ->
   async_retry max_retries delay func = (repeat delay k, func k))
  /\ (Z.of_nat k = max_retries -> 0 < max_retries ->
      async_retry max_retries delay func
      = (repeat delay (k - 1), RaisedListed)).
Proof.
  intros Hfail. unfold async_retry.
  destruct (Z.le_gt_cases 0 max_retries) as [Hpos | Hneg].
  - destruct (async_retry_from_spec max_retries delay func k Hfail
                (Z.to_nat max_retries) 0) as [Ha Hb]; [lia | lia |].
    rewrite Nat.sub_0_r in *. split.
    + intros Hk Hok. apply Ha; [lia | assumption].
    + intros Hk Hmax. apply Hb; lia.
  - split; intros; lia.
Qed.

End Retry.

Lemma async_retry_outcome_witness :
  (forall j, (j < 2)%nat -> fails_twice j = RaisedListed)
  /\ async_retry 3 2 fails_twice = ([2%Q; 2%Q], Returned 7).
Proof.
  assert (H : forall j, (j < 2)%nat -> fails_twice j = RaisedListed).
  { intros j Hj. unfold fails_twice.
    destruct (Nat.ltb_spec j 2); [reflexivity | lia]. }
  split; [exact H |].
  apply (async_retry_outcome 3 2 fails_twice 2 H); [lia | discriminate].
Defined.

Section Ring.

Import CircularBuffer.
Context {A : Type}.

Lemma last_items_short (m : nat) (items : list A) :
  (length items <= m)%nat -> last_items m items = items.
Proof.
  intros H. unfold last_items.
  replace (length items - m)%nat with 0%nat by lia. reflexivity.
Qed.

Lemma last_items_snoc (m : nat) (items : list A) (x : A) :
  (0 < m <= length items)%nat ->
  last_items m (items ++ [x]) = (drop 1 (last_items m items) ++ [x])%list.
Proof.
  intros Hm. unfold last_items. rewrite length_app, drop_drop. simpl length.
  rewrite drop_app_le by lia. do 2 f_equal. lia.
Qed.

Lemma holds_init (m : nat) :
  (0 < m)%nat -> holds m (init (Z.of_nat m)) ([] : list A).
Proof.
  intros Hm. unfold holds, init. simpl.
  repeat split. exists 0%nat. repeat split; lia.
Qed.

Lemma holds_append (m : nat) (self : t A) (items : list A) (x : A) :
  holds m self items ->
  exists self',
    append self x = (self', None) /\ holds m self' (items ++ [x]).
Proof.
  intros (Hmax & Hsize & Hlen & w & Hw & Hwm & Hzero & Hring).
  unfold append.
  destruct (Z.ltb_spec (size self) (max_size self)) as [Hroom | Hfull].
  - (* room left: the item goes to the end *)
    eexists. split; [reflexivity |].
    assert (Hw0 : w = 0%nat) by (apply Hzero; lia). subst w.
    rewrite drop_0, take_0, app_nil_r in Hring.
    rewrite last_items_short in Hring by lia.
    unfold holds. simpl. rewrite !length_app. simpl length.
    split; [assumption |]. split; [lia |]. split; [lia |].
    exists 0%nat. split; [assumption |]. split; [lia |]. split; [lia |].
    rewrite drop_0, take_0, app_nil_r, Hring.
    symmetry. apply last_items_short. rewrite length_app. simpl. lia.
  - (* full: the item takes the place of the oldest one *)
    assert (Hm : length (buffer self) = m) by lia.
    assert (Hitems : (m <= length items)%nat) by lia.
    unfold list_assign.
    destruct (Z.leb_spec 0 (write_index self)),
      (Z.ltb_spec (write_index self) (Z.of_nat (length (buffer self))));
      try lia. simpl andb. cbv iota. simpl max_size.
    destruct (Z.eqb_spec (max_size self) 0); [lia |].
    replace (Z.to_nat (write_index self)) with w by lia.
    eexists. split; [reflexivity |].
    unfold holds. simpl. rewrite length_insert.
    split; [assumption |]. split; [assumption |].
    split; [rewrite length_app; simpl; lia |].
    destruct (lookup_lt_is_Some_2 (buffer self) w) as [old Hold]; [lia |].
    assert (Htail : drop 1 (last_items m items)
                    = (drop (S w) (buffer self) ++ take w (buffer self))%list).
    { rewrite <- Hring. rewrite (drop_S _ old w Hold). reflexivity. }
    rewrite last_items_snoc, Htail by lia.
    destruct (Nat.eq_dec (S w) m) as [Hlast | Hmore].
    + exists 0%nat.
      split; [rewrite Hw, Hmax, <- Hlast, Nat2Z.inj_succ;
              unfold Z.succ; apply Z.mod_same; lia |].
      split; [lia |]. split; [reflexivity |].
      rewrite drop_0, take_0, app_nil_r.
      rewrite insert_take_drop by lia.
      rewrite (drop_ge (buffer self) (S w)) by lia. reflexivity.
    + exists (S w).
      split; [rewrite Z.mod_small by lia; lia |].
      split; [lia |]. split; [rewrite ?length_insert; lia |].
      rewrite drop_insert_lt by lia.
      rewrite (take_S_r _ w x) by (apply list_lookup_insert_eq; lia).
      rewrite take_insert_ge by lia. now rewrite app_assoc.
Qed.

Lemma holds_extend (m : nat) (more : list A) :
  forall (self : t A) (items : list A),
    holds m self items ->
    exists self',
      extend self more = (self', None) /\ holds m self' (items ++ more).
Proof.
  induction more as [| x more IH]; intros self items Hholds; simpl.
  - exists self. now rewrite app_nil_r.
  - destruct (holds_append m self items x Hholds) as (self1 & -> & H1).
    destruct (IH self1 (items ++ [x])%list H1) as (self' & Hext & H').
    exists self'. split; [assumption |]. now rewrite <- app_assoc in H'.
Qed.

Lemma extend_init (max_size : Z) (items : list A) :
  0 < max_size ->
  exists self,
    extend (init max_size) items = (self, None)
    /\ get_all self = last_items (Z.to_nat max_size) items
    /\ len self = Z.min (Z.of_nat (length items)) max_size.
Proof.
  intros Hmax. set (m := Z.to_nat max_size).
  assert (Em : max_size = Z.of_nat m) by lia.
  destruct (holds_extend m items (init max_size) []) as (self & Hext & Hholds).
  { rewrite Em. apply holds_init. lia. }
  exists self. split; [exact Hext |]. simpl in Hholds.
  destruct Hholds as (Hmx & Hsize & Hlen & w & Hw & Hwm & Hzero & Hring).
  split.
  - unfold get_all. rewrite Hmx, Hsize.
    destruct (Z.ltb_spec (Z.of_nat (length (buffer self))) (Z.of_nat m)).
    + rewrite (Hzero ltac:(lia)) in Hring.
      now rewrite drop_0, take_0, app_nil_r in Hring.
    + assert (Hbound : slice_bound (write_index self) (length (buffer self))
                       = w).
      { unfold slice_bound. rewrite Hw.
        destruct (Z.ltb_spec (Z.of_nat w) 0); lia. }
      now rewrite Hbound.
  - unfold len. rewrite Hsize, Hlen. lia.
Qed.

(** X9.  A circular buffer of capacity [max_size] > 0 takes any number of
    items without raising; afterwards [get_all] returns the last
    [max_size] of them, oldest first, and the length is the number of
    items, capped at [max_size]. *)
Theorem circular_buffer_keeps_last (max_size : Z) (items : list A) :
  0 < max_size ->
  exists self,
    extend (init max_size) items = (self, None)
    /\ get_all self = last_items (Z.to_nat max_size) items
    /\ len self = Z.min (Z.of_nat (length items)) max_size.
Proof. apply extend_init. Qed.

(** X10.  A buffer made with a capacity of zero or less takes nothing: the
    first [append] raises [IndexError] and leaves it empty.  [clear] makes
    a buffer of positive capacity new again: what is appended afterwards is
    kept as in a new buffer, whatever was in it before. *)
Theorem circular_buffer_edges (self : t A) (item : A) (items : list A) :
  (max_size self <= 0 ->
   append (init (max_size self)) item
   = (init (max_size self), Some IndexError))
  /\ (0 < max_size self ->
      exists self',
        extend (clear self) items = (self', None)
        /\ get_all self' = last_items (Z.to_nat (max_size self)) items
        /\ len self' = Z.min (Z.of_nat (length items)) (max_size self)).
Proof.
  split.
  - intros Hmax. unfold append, init. simpl.
    destruct (Z.ltb_spec 0 (max_size self)); [lia | reflexivity].
  - intros Hmax. change (clear self) with (init (A:=A) (max_size self)).
    now apply extend_init.
Qed.

End Ring.

Lemma circular_buffer_keeps_last_witness :
  0 < 3
  /\ exists self,
       CircularBuffer.extend (CircularBuffer.init 3) [1; 2; 3; 4; 5]
       = (self, None)
       /\ CircularBuffer.get_all self = [3; 4; 5]
       /\ CircularBuffer.len self = 3.
Proof.
  assert (H : 0 < 3) by lia.
  split; [exact H |].
  exact (circular_buffer_keeps_last 3 [1; 2; 3; 4; 5] H).
Defined.

Section Sessions.

Import PortStatistics.

Lemma count_calls_cons (p : call -> bool) (c : call) (calls : list call) :
  count_calls p (c :: calls)
  = (if p c then 1 else 0) + count_calls p calls.
Proof.
  unfold count_calls. cbn [List.filter]. destruct (p c); [| lia].
  cbn [length]. rewrite Nat2Z.inj_succ. lia.
Qed.

Lemma count_calls_nonneg (p : call -> bool) (calls : list call) :
  0 <= count_calls p calls.
Proof. unfold count_calls. lia. Qed.

Lemma record_polls_counters (calls : list call) :
  forall st : PortStatistics.t,
    let st' := record_polls st calls in
    total_polls st' = total_polls st + Z.of_nat (length calls)
    /\ successful_polls st' = successful_polls st + named_successes calls
    /\ failed_polls st' = failed_polls st + named_failures calls
    /\ error_count st' = error_count st + named_failures calls.
Proof.
  induction calls as [| c calls IH]; intros st; simpl.
  - unfold named_successes, named_failures, count_calls. simpl.
    repeat split; lia.
  - destruct (IH (record_call st c)) as (Ht & Hs & Hf & He).
    simpl in Ht, Hs, Hf, He. rewrite Ht, Hs, Hf, He.
    unfold record_call.
    destruct (record_poll_counters (call_now c) st (call_device c)
                (call_success c) (call_response_time c))
      as (Ht1 & Hs1 & Hf1 & He1).
    rewrite Ht1, Hs1, Hf1, He1.
    unfold named_successes, named_failures. rewrite !count_calls_cons.
    repeat split; lia.
Qed.

(** X11.  In a session, that is after any calls of [record_poll] on a new
    recorder, [total_polls] is the number of calls, [successful_polls] and
    [failed_polls] are the numbers of successful and of failed calls that
    name a device, and [error_count] equals [failed_polls]. *)
Theorem session_counters (port : string) (calls : list call) :
  let st := record_polls (init port) calls in
  total_polls st = Z.of_nat (length calls)
  /\ successful_polls st = named_successes calls
  /\ failed_polls st = named_failures calls
  /\ error_count st = failed_polls st
  /\ successful_polls st + failed_polls st <= total_polls st.
Proof.
  destruct (record_polls_counters calls (init port)) as (Ht & Hs & Hf & He).
  simpl in *. rewrite Ht, Hs, Hf, He.
  repeat split; try lia.
  clear. unfold named_successes, named_failures.
  induction calls as [| c calls IH]; [unfold count_calls; simpl; lia |].
  rewrite !count_calls_cons. cbn [length]. rewrite Nat2Z.inj_succ.
  destruct (negb _), (call_success c); simpl; lia.
Qed.

(** The entry of a device, or the [defaultdict] default. *)
Lemma record_poll_device (now : Q) (st : PortStatistics.t)
    (device_name : string) (success : bool) (response_time : Q)
    (name : string) :
  name <> "" ->
  let st' := record_poll now st device_name success response_time in
  let entry s := default device_stat_default (device_stats s !! name) in
  let hit := String.eqb device_name name in
  d_total_polls (entry st')
  = d_total_polls (entry st) + (if hit then 1 else 0)
  /\ d_successful_polls (entry st')
     = d_successful_polls (entry st) + (if hit && success then 1 else 0)
  /\ d_failed_polls (entry st')
     = d_failed_polls (entry st) + (if hit && negb success then 1 else 0)
  /\ (is_Some (device_stats st' !! name)
      <-> is_Some (device_stats st !! name) \/ hit = true)
  /\ (name ∈ connected_devices st'
      <-> name ∈ connected_devices st \/ hit && success = true).
Proof.
  intros Hname st' entry hit. unfold st', entry, hit, record_poll.
  destruct (String.eqb_spec device_name "") as [-> | Hdev]; simpl negb;
    cbv iota.
  - destruct (String.eqb_spec "" name) as [E | _]; [congruence |].
    destruct (Qltb 0 response_time); simpl;
      (split; [lia |]); (split; [lia |]); (split; [lia |]);
      split; (split; [tauto | intros [H | H]; [exact H | discriminate]]).
  - destruct (String.eqb_spec device_name name) as [-> | Hne].
    + destruct success, (Qltb 0 response_time); simpl;
        rewrite lookup_insert_eq; simpl;
        (split; [lia |]); (split; [lia |]); (split; [lia |]);
        (split; [split; [intros _; now right | intros _; eauto] |]);
        rewrite ?elem_of_union, ?elem_of_singleton;
        intuition (discriminate || auto).
    + destruct success, (Qltb 0 response_time); simpl;
        rewrite lookup_insert_ne by assumption;
        (split; [lia |]); (split; [lia |]); (split; [lia |]);
        (split; [split; [tauto | intros [H | H]; [exact H | discriminate]] |]);
        rewrite ?elem_of_union, ?elem_of_singleton;
        intuition (discriminate || congruence || auto).
Qed.

Lemma record_polls_device (name : string) (calls : list call) :
  name <> "" ->
  forall st : PortStatistics.t,
    let st' := record_polls st calls in
    let entry s := default device_stat_default (device_stats s !! name) in
    d_total_polls (entry st')
    = d_total_polls (entry st)
      + (successes_of name calls + failures_of name calls)
    /\ d_successful_polls (entry st')
       = d_successful_polls (entry st) + successes_of name calls
    /\ d_failed_polls (entry st')
       = d_failed_polls (entry st) + failures_of name calls
    /\ (is_Some (device_stats st' !! name)
        <-> is_Some (device_stats st !! name)
            \/ 0 < successes_of name calls + failures_of name calls)
    /\ (name ∈ connected_devices st'
        <-> name ∈ connected_devices st \/ 0 < successes_of name calls).
Proof.
  intros Hname. induction calls as [| c calls IH]; intros st; simpl.
  - unfold successes_of, failures_of, count_calls. simpl.
    (split; [lia |]); (split; [lia |]); (split; [lia |]);
      split; (split; [tauto | intros [H | H]; [exact H | lia]]).
  - destruct (IH (record_call st c)) as (Ht & Hs & Hf & Hsome & Hconn).
    simpl in Ht, Hs, Hf, Hsome, Hconn.
    destruct (record_poll_device (call_now c) st (call_device c)
                (call_success c) (call_response_time c) name Hname)
      as (Ht1 & Hs1 & Hf1 & Hsome1 & Hconn1).
    fold (record_call st c) in Ht1, Hs1, Hf1, Hsome1, Hconn1.
    simpl in Ht1, Hs1, Hf1, Hsome1, Hconn1.
    unfold successes_of, failures_of in *. rewrite !count_calls_cons.
    pose proof (count_calls_nonneg
      (fun c => String.eqb (call_device c) name && call_success c) calls).
    pose proof (count_calls_nonneg
      (fun c => String.eqb (call_device c) name && negb (call_success c))
      calls).
    rewrite Ht, Hs, Hf, Ht1, Hs1, Hf1, Hsome, Hconn, Hsome1, Hconn1.
    destruct (String.eqb (call_device c) name), (call_success c); simpl;
      repeat split; try lia; intuition (try discriminate; try lia).
Qed.

(** X12.  In a session the entry of a named device in [device_stats]
    counts the polls recorded for that device, the successful and the
    failed ones; the device has an entry as soon as one poll was recorded
    for it, and it is in [connected_devices] exactly when one of its polls
    succeeded. *)
Theorem session_device_stats (port : string) (calls : list call)
    (name : string) :
  name <> "" ->
  let st := record_polls (init port) calls in
  let entry := default device_stat_default (device_stats st !! name) in
  d_successful_polls entry = successes_of name calls
  /\ d_failed_polls entry = failures_of name calls
  /\ d_total_polls entry = d_successful_polls entry + d_failed_polls entry
  /\ (is_Some (device_stats st !! name)
      <-> 0 < successes_of name calls + failures_of name calls)
  /\ (name ∈ connected_devices st <-> 0 < successes_of name calls).
Proof.
  intros Hname st entry.
  destruct (record_polls_device name calls Hname (init port))
    as (Ht & Hs & Hf & Hsome & Hconn).
  fold st in Ht, Hs, Hf, Hsome, Hconn. simpl in Ht, Hs, Hf, Hsome, Hconn.
  rewrite lookup_empty in Ht, Hs, Hf, Hsome. simpl in Ht, Hs, Hf.
  fold entry in Ht, Hs, Hf.
  split; [lia |]. split; [lia |]. split; [lia |]. split.
  - rewrite Hsome. split; [intros [[x Hx] | H]; [discriminate | exact H] |].
    intros H. now right.
  - rewrite Hconn. split; [intros [H | H]; [set_solver | exact H] |].
    intros H. now right.
Qed.

Lemma session_device_stats_witness :
  "meter" <> ""
  /\ "meter" ∈ connected_devices (record_polls (init "port1") sample_calls)
  /\ d_total_polls
       (default device_stat_default
          (device_stats (record_polls (init "port1") sample_calls)
             !! "meter")) = 2.
Proof.
  assert (H : "meter" <> "") by discriminate.
  destruct (session_device_stats "port1" sample_calls "meter" H)
    as (Hs & Hf & Ht & _ & Hconn).
  split; [exact H |]. split.
  - apply Hconn. reflexivity.
  - rewrite Ht, Hs, Hf. reflexivity.
Defined.

Lemma last_items_length {A} (n : nat) (l : list A) :
  length (last_items n l) = Nat.min n (length l).
Proof. unfold last_items. rewrite length_drop. lia. Qed.

Lemma last_items_app {A} (n : nat) (l k : list A) :
  last_items n (last_items n l ++ k) = last_items n (l ++ k).
Proof.
  destruct (Nat.le_gt_cases (length l) n) as [Hshort | Hlong].
  - now rewrite (last_items_short n l).
  - unfold last_items at 1 3.
    rewrite !length_app, last_items_length.
    replace (Nat.min n (length l) + length k - n)%nat with (length k) by lia.
    unfold last_items.
    replace (length l + length k - n)%nat
      with (length l - n + length k)%nat by lia.
    rewrite <- drop_drop. rewrite (drop_app_le l k) by lia. reflexivity.
Qed.

Lemma deque_append_last (d : list Q) (x : Q) :
  (length d <= maxlen)%nat ->
  deque_append d x = last_items maxlen (d ++ [x]).
Proof.
  intros Hd. unfold deque_append, last_items. rewrite length_app. simpl length.
  destruct (Nat.leb_spec maxlen (length d)).
  - replace (length d + 1 - maxlen)%nat with 1%nat by lia.
    destruct d; [unfold maxlen in *; simpl in *; lia | reflexivity].
  - replace (length d + 1 - maxlen)%nat with 0%nat by lia. reflexivity.
Qed.

Lemma record_polls_window (calls : list call) :
  forall st : PortStatistics.t,
    (length (response_times st) <= maxlen)%nat ->
    response_times (record_polls st calls)
    = last_items maxlen (response_times st ++ positive_latencies calls).
Proof.
  induction calls as [| c calls IH]; intros st Hst; simpl.
  - unfold positive_latencies. simpl. rewrite app_nil_r.
    symmetry. now apply last_items_short.
  - assert (Hstep : response_times (record_call st c)
                    = last_items maxlen
                        (response_times st
                         ++ positive_latencies [c])).
    { unfold record_call. rewrite record_poll_window.
      unfold positive_latencies. simpl.
      destruct (Qltb 0 (call_response_time c)); simpl.
      - now apply deque_append_last.
      - rewrite app_nil_r. symmetry. now apply last_items_short. }
    rewrite IH by (rewrite Hstep, last_items_length; lia).
    rewrite Hstep, last_items_app, <- app_assoc. do 2 f_equal.
    unfold positive_latencies. simpl.
    now destruct (Qltb 0 (call_response_time c)).
Qed.

(** X13.  In a session the response-time window is made of the last 100
    latencies above zero that were recorded, oldest first; it never holds
    more than 100 entries. *)
Theorem session_window (port : string) (calls : list call) :
  let st := record_polls (init port) calls in
  response_times st = last_items 100 (positive_latencies calls)
  /\ (length (response_times st) <= 100)%nat.
Proof.
  intros st.
  assert (H : response_times st = last_items 100 (positive_latencies calls)).
  { unfold st. rewrite record_polls_window by (simpl; unfold maxlen; lia).
    reflexivity. }
  split; [exact H |]. rewrite H, last_items_length. lia.
Qed.

Lemma rate_bounds (s t : Z) :
  0 <= s <= t -> 0 < t ->
  (0 <= inject_Z s / inject_Z t * inject_Z 100 <= 100)%Q.
Proof.
  intros Hs Ht. destruct t as [| p | p]; try lia.
  unfold Qle, Qdiv, Qmult, Qinv, inject_Z. simpl. split; nia.
Qed.

Lemma Qsum_from (l : list Q) (a : Q) :
  Forall (fun x => (0 < x)%Q) l -> (a <= fold_left Qplus l a)%Q
  /\ (l <> [] -> (a < fold_left Qplus l a)%Q).
Proof.
  intros Hl. revert a. induction Hl as [| x l Hx _ IH]; intros a; simpl.
  - split; [apply Qle_refl | congruence].
  - destruct (IH (a + x)%Q) as [Hle _].
    assert (Hlt : (a < a + x)%Q).
    { rewrite <- (Qplus_0_r a) at 1. apply Qplus_lt_r. exact Hx. }
    split; [| intros _]; (eapply Qlt_le_trans; [exact Hlt | exact Hle])
      || (apply Qlt_le_weak; eapply Qlt_le_trans; [exact Hlt | exact Hle]).
Qed.

(** X14.  For a session [get_stats] reports a success rate between 0 and
    100, which is 0 before the first poll, and an average response time
    that is 0 while the window is empty and above 0 as soon as a latency
    above zero was recorded. *)
Theorem session_rates (port : string) (calls : list call) :
  let stats := get_stats (record_polls (init port) calls) in
  (0 <= s_success_rate stats <= 100)%Q
  /\ (calls = [] -> s_success_rate stats = 0%Q)
  /\ (positive_latencies calls = [] -> s_avg_response_time_ms stats == 0)%Q
  /\ (positive_latencies calls <> [] -> 0 < s_avg_response_time_ms stats)%Q.
Proof.
  intros stats. unfold stats, get_stats. simpl.
  destruct (record_polls_counters calls (init port)) as (Ht & Hs & _ & _).
  simpl in Ht, Hs.
  pose proof (record_polls_window calls (init port)) as Hwin.
  simpl in Hwin. specialize (Hwin ltac:(unfold maxlen; lia)).
  pose proof (record_polls_window_positive calls (init port)) as Hpos.
  unfold window_positive in Hpos. simpl in Hpos.
  specialize (Hpos ltac:(constructor)).
  split; [| split; [| split]].
  - destruct (Z.ltb_spec 0 (total_polls (record_polls (init port) calls)));
      [| split; discriminate].
    apply rate_bounds; [| assumption].
    rewrite Hs, Ht. split; [apply count_calls_nonneg |].
    unfold named_successes, count_calls.
    pose proof (filter_length_le
      (fun c => negb (String.eqb (call_device c) "") && call_success c) calls).
    lia.
  - intros ->. reflexivity.
  - intros Hnone. rewrite Hwin, Hnone. reflexivity.
  - intros Hsome.
    destruct (response_times (record_polls (init port) calls))
      as [| x window] eqn:Hw.
    + exfalso. apply Hsome.
      assert (Hlen : length (last_items maxlen (positive_latencies calls)) = 0%nat)
        by (rewrite <- Hwin; reflexivity).
      rewrite last_items_length in Hlen. unfold maxlen in Hlen.
      destruct (positive_latencies calls); [reflexivity | simpl in Hlen; lia].
    + destruct (Qsum_from (x :: window) 0 Hpos) as [_ Hsum].
      specialize (Hsum ltac:(discriminate)).
      apply Qmult_lt_0_compat; [| reflexivity].
      apply Qlt_shift_div_l; [reflexivity |].
      rewrite Qmult_0_l. exact Hsum.
Qed.

Lemma record_poll_connected (now : Q) (st : PortStatistics.t)
    (device_name : string) (success : bool) (response_time : Q) :
  connected_devices (record_poll now st device_name success response_time)
  = if negb (String.eqb device_name "") && success
    then connected_devices st ∪ {[ device_name ]}
    else connected_devices st.
Proof.
  unfold record_poll.
  destruct (String.eqb device_name ""), success, (Qltb 0 response_time);
    reflexivity.
Qed.

Lemma record_polls_connected_empty (calls : list call) :
  forall st : PortStatistics.t,
    connected_devices (record_polls st calls) = ∅
    <-> connected_devices st = ∅ /\ named_successes calls = 0.
Proof.
  induction calls as [| c calls IH]; intros st; simpl.
  - unfold named_successes, count_calls. simpl. tauto.
  - rewrite IH. unfold record_call at 1. rewrite record_poll_connected.
    unfold named_successes. rewrite count_calls_cons.
    pose proof (count_calls_nonneg
      (fun c => negb (String.eqb (call_device c) "") && call_success c) calls).
    destruct (negb _ && call_success c).
    + split; [intros [Hempty _] | intros [_ Hzero]; lia].
      exfalso. apply (not_elem_of_empty (C:=gset string) (call_device c)).
      rewrite <- Hempty. apply elem_of_union_r, elem_of_singleton.
      reflexivity.
    + split; intros [H1 H2]; (split; [exact H1 | lia]).
Qed.

(** X15.  For every state of a known port [get_port_status] reports
    [ERROR] exactly when [successful_polls < 2 * error_count]: the test on
    more than ten errors adds nothing.  In a session the other two states
    follow from the counters as well: [DISCONNECTED] when no poll of a named
    device was recorded, [RUNNING] when a poll succeeded and the failures
    are at most half of the successes. *)
Theorem session_status (port_stats : gmap string PortStatistics.t)
    (port_name : string) (st : PortStatistics.t) :
  port_stats !! port_name = Some st ->
  exists status,
    PortManager.get_port_status port_stats port_name
    = PortManager.StatusOf status (get_stats st)
    /\ (status = ERROR <-> successful_polls st < 2 * error_count st)
    /\ forall port calls,
         st = record_polls (init port) calls ->
         (status = DISCONNECTED
          <-> named_successes calls = 0 /\ named_failures calls = 0)
         /\ (status = RUNNING
             <-> 0 < named_successes calls
                 /\ 2 * named_failures calls <= named_successes calls).
Proof.
  intros Hlookup. unfold PortManager.get_port_status. rewrite Hlookup.
  eexists. split; [reflexivity |]. simpl.
  destruct (half_lt_iff (successful_polls st) (error_count st)) as [Hhalf _].
  assert (Herror :
    ((10 <? error_count st) && (successful_polls st =? 0) = true
     \/ Qltb (inject_Z (successful_polls st) / inject_Z 2)
           (inject_Z (error_count st)) = true)
    <-> successful_polls st < 2 * error_count st).
  { rewrite Qltb_lt, Hhalf, andb_true_iff, Z.ltb_lt, Z.eqb_eq. lia. }
  split.
  - destruct ((10 <? error_count st) && (successful_polls st =? 0)) eqn:H1.
    { split; [intros _; apply Herror; now left | reflexivity]. }
    destruct (Qltb _ _) eqn:H2.
    { split; [intros _; apply Herror; now right | reflexivity]. }
    assert (Hno : ~ successful_polls st < 2 * error_count st)
      by (rewrite <- Herror; intros [H | H]; discriminate).
    destruct (Z.of_nat (size (connected_devices st)) =? 0);
      (split; [intros E; discriminate E | intros H; contradiction]).
  - intros port calls ->.
    destruct (record_polls_counters calls (init port)) as (_ & Hs & _ & He).
    simpl in Hs, He. rewrite Z.add_0_l in Hs, He.
    pose proof (record_polls_connected_empty calls (init port)) as Hconn.
    simpl in Hconn.
    pose proof (count_calls_nonneg
      (fun c => negb (String.eqb (call_device c) "") && call_success c) calls)
      as Hs0.
    pose proof (count_calls_nonneg
      (fun c => negb (String.eqb (call_device c) "")
                && negb (call_success c)) calls) as He0.
    fold (named_successes calls) in Hs0. fold (named_failures calls) in He0.
    assert (Hsize : Z.of_nat (size (connected_devices
                                      (record_polls (init port) calls))) = 0
                    <-> named_successes calls = 0).
    { split.
      - intros Hz. apply Hconn, leibniz_equiv, size_empty_iff. lia.
      - intros Hz.
        assert (E : connected_devices (record_polls (init port) calls) = ∅)
          by (apply Hconn; split; [reflexivity | exact Hz]).
        now rewrite E. }
    rewrite Hs, He in *.
    destruct ((10 <? named_failures calls) && (named_successes calls =? 0))
      eqn:H1.
    { assert (named_successes calls < 2 * named_failures calls)
        by (apply Herror; now left).
      split; (split; [intros E; discriminate E | intros; exfalso; lia]). }
    destruct (Qltb _ _) eqn:H2.
    { assert (named_successes calls < 2 * named_failures calls)
        by (apply Herror; now right).
      split; (split; [intros E; discriminate E | intros; exfalso; lia]). }
    assert (Hno : ~ named_successes calls < 2 * named_failures calls)
      by (rewrite <- Herror; intros [H | H]; discriminate).
    destruct (Z.eqb_spec
                (Z.of_nat (size (connected_devices
                                   (record_polls (init port) calls)))) 0)
      as [Hz | Hnz].
    + apply Hsize in Hz.
      split; (split; [intros E; try discriminate E; lia
                     | intros; try reflexivity; exfalso; lia]).
    + assert (named_successes calls <> 0) by (rewrite <- Hsize; exact Hnz).
      split; (split; [intros E; try discriminate E; lia
                     | intros; try reflexivity; exfalso; lia]).
Qed.

Lemma session_status_witness :
  let st := record_polls (init "port1") sample_calls in
  let port_stats : gmap string PortStatistics.t := {[ "port1" := st ]} in
  port_stats !! "port1" = Some st
  /\ exists status,
       PortManager.get_port_status port_stats "port1"
       = PortManager.StatusOf status (get_stats st)
       /\ (status = ERROR <-> successful_polls st < 2 * error_count st).
Proof.
  intros st port_stats.
  assert (H : port_stats !! "port1" = Some st) by apply lookup_singleton_eq.
  split; [exact H |].
  destruct (session_status port_stats "port1" st H) as (status & Hs & He & _).
  exists status. split; [exact Hs | exact He].
Defined.

End Sessions.

Section Grouping.

Import PortManager.

Lemma grouped_append_groups (key : string) (reg : RegisterConfig) (g : grouped) :
  Forall (fun entry => snd entry <> []) g ->
  Forall (fun entry => snd entry <> []) (grouped_append key reg g)
  /\ Permutation (concat (map snd (grouped_append key reg g)))
       (reg :: concat (map snd g)).
Proof.
  induction 1 as [| [k l] g Hl Hg IH]; simpl.
  - split; [repeat constructor; discriminate | reflexivity].
  - destruct IH as [IHne IHperm].
    destruct (String.eqb k key); simpl.
    + split.
      * constructor; [simpl; now destruct l | assumption].
      * rewrite <- app_assoc. simpl.
        rewrite <- Permutation_middle. reflexivity.
    + split; [now constructor |].
      rewrite IHperm. symmetry. apply Permutation_middle.
Qed.

Lemma group_registers_groups (registers : list RegisterConfig) :
  forall g : grouped,
    Forall (fun entry => snd entry <> []) g ->
    let g' :=
      fold_left
        (fun g reg => grouped_append (RegisterType_value (reg_type reg)) reg g)
        registers g in
    Forall (fun entry => snd entry <> []) g'
    /\ Permutation (concat (map snd g')) (concat (map snd g) ++ registers).
Proof.
  induction registers as [| reg registers IH]; intros g Hg; simpl.
  - split; [assumption | now rewrite app_nil_r].
  - destruct (grouped_append_groups (RegisterType_value (reg_type reg)) reg g Hg)
      as [Hne Hperm].
    destruct (IH _ Hne) as [Hne' Hperm'].
    split; [assumption |].
    etransitivity; [exact Hperm' |].
    etransitivity; [apply Permutation_app_tail; exact Hperm |].
    simpl. apply Permutation_middle.
Qed.

Lemma group_of_found (key : string) (g : grouped) :
  group_of key g <> [] -> In (key, group_of key g) g.
Proof.
  induction g as [| [k l] g IH]; simpl; [congruence |].
  destruct (String.eqb_spec k key) as [-> | Hne]; [now left |].
  intros H. right. now apply IH.
Qed.

(** X16.  [group_registers_by_type] splits a register list by kind: the
    keys are pairwise distinct, no group is empty, each group holds the
    registers of its kind in their original order, every register is in
    the group of its kind, and the groups together are the list again, up
    to order. *)
Theorem group_registers_by_type_partition (registers : list RegisterConfig) :
  let g := group_registers_by_type registers in
  NoDup (map fst g)
  /\ (forall key group,
        In (key, group) g ->
        group <> [] /\ group = registers_of_kind key registers)
  /\ (forall reg,
        In reg registers ->
        exists group,
          In (RegisterType_value (reg_type reg), group) g /\ In reg group)
  /\ Permutation (concat (map snd g)) registers.
Proof.
  intros g.
  destruct (group_registers_fold registers [] (NoDup_nil _)) as [Hnd Hgroups].
  destruct (group_registers_groups registers [] (Forall_nil _))
    as [Hne Hperm].
  fold (group_registers_by_type registers) in Hnd, Hgroups, Hne, Hperm.
  fold g in Hnd, Hgroups, Hne, Hperm. simpl in Hgroups, Hperm.
  split; [exact Hnd |]. split; [| split; [| exact Hperm]].
  - intros key group Hin. split.
    + rewrite Forall_forall in Hne. exact (Hne _ Hin).
    + now apply group_registers_by_type_spec.
  - intros reg Hin.
    set (key := RegisterType_value (reg_type reg)).
    assert (Hreg : In reg (group_of key g)).
    { rewrite Hgroups. unfold registers_of_kind. apply filter_In.
      split; [assumption | apply String.eqb_refl]. }
    exists (group_of key g). split; [| exact Hreg].
    apply group_of_found. intros E. rewrite E in Hreg. contradiction.
Qed.

End Grouping.

Section IntervalDomain.

Import PortManager.

(** X17.  [adjust_polling_interval] returns at once exactly when the port
    has no devices; it raises the [ValueError] of [min()] exactly when the
    port has devices and none of them is enabled. *)
Theorem adjust_polling_interval_domain (port_config : PortConfig) :
  (adjust_polling_interval port_config = Ok NoDevices
   <-> port_devices port_config = [])
  /\ (adjust_polling_interval port_config = Raise MinOfEmpty
      <-> port_devices port_config <> []
          /\ Forall (fun d => dev_enabled d = false)
               (port_devices port_config))
  /\ (raises (adjust_polling_interval port_config)
      -> adjust_polling_interval port_config = Raise MinOfEmpty).
Proof.
  unfold adjust_polling_interval, raises.
  destruct (port_devices port_config) as [| d ds] eqn:Hdevs.
  { split; [tauto |]. split; [| intros [e He]; discriminate].
    split; [discriminate | intros [H _]; congruence]. }
  set (devices := d :: ds).
  destruct (List.filter dev_enabled devices) as [| e es] eqn:Hfilter.
  - simpl. split; [split; discriminate |]. split; [| reflexivity].
    split; [| reflexivity]. intros _. split; [discriminate |].
    apply Forall_forall. intros x Hx.
    destruct (dev_enabled x) eqn:Hen; [| reflexivity].
    assert (Hin : In x (List.filter dev_enabled devices))
      by (apply filter_In; auto).
    rewrite Hfilter in Hin. contradiction.
  - assert (He : In e devices /\ dev_enabled e = true).
    { apply filter_In. rewrite Hfilter. now left. }
    cbn [map py_min bind].
    destruct (Qltb _ _).
    + split; [split; discriminate |]. split; [| intros [x Hx]; discriminate].
      split; [discriminate |]. intros [_ Hall].
      rewrite Forall_forall in Hall. destruct He as [Hin Hen].
      rewrite (Hall _ Hin) in Hen. discriminate.
    + split; [split; discriminate |]. split; [| intros [x Hx]; discriminate].
      split; [discriminate |]. intros [_ Hall].
      rewrite Forall_forall in Hall. destruct He as [Hin Hen].
      rewrite (Hall _ Hin) in Hen. discriminate.
Qed.

End IntervalDomain.

Section BlockPlan.

Import PortManager.

Lemma blocks_loop_addresses (rest rest' : list RegisterConfig) :
  map reg_address rest = map reg_address rest' ->
  forall prev start_addr count,
    blocks_loop prev start_addr count rest
    = blocks_loop prev start_addr count rest'.
Proof.
  revert rest'. induction rest as [| reg rest IH]; intros [| reg' rest'] Hmap;
    try discriminate; [reflexivity |].
  simpl in Hmap. injection Hmap as Haddr Hmap. intros prev start_addr count.
  simpl. rewrite Haddr. now rewrite !(IH rest' Hmap).
Qed.

Lemma insert_by_swap (x y : Z) (l : list Z) :
  insert_by (fun a => a) x (insert_by (fun a => a) y l)
  = insert_by (fun a => a) y (insert_by (fun a => a) x l).
Proof.
  induction l as [| z l IH]; simpl;
    repeat (match goal with
            | |- context [?a <=? ?b] => destruct (Z.leb_spec a b)
            end; simpl);
    try lia; try reflexivity; try (now rewrite IH);
    (assert (x = y) by lia); subst; reflexivity.
Qed.

Lemma sorted_addresses_perm (l l' : list Z) :
  Permutation l l' ->
  sorted_by (fun a => a) l = sorted_by (fun a => a) l'.
Proof.
  induction 1 as [| x l l' _ IH | x y l | l l' l'' _ IH1 _ IH2]; simpl.
  - reflexivity.
  - now rewrite IH.
  - apply insert_by_swap.
  - congruence.
Qed.

Lemma blocks_loop_counts (rest : list RegisterConfig) :
  forall prev start_addr count,
    1 <= count ->
    Forall (fun run => 1 <= snd run)
      (blocks_loop prev start_addr count rest).
Proof.
  induction rest as [| reg rest IH]; intros prev start_addr count Hcount;
    simpl.
  - repeat constructor. exact Hcount.
  - destruct (_ =? _).
    + apply IH. lia.
    + constructor; [exact Hcount | apply IH; lia].
Qed.

Lemma blocks_loop_reads (rest : list RegisterConfig) :
  forall prev start_addr count address,
    count = prev + 1 - start_addr ->
    Exists (holds_address address) (blocks_loop prev start_addr count rest) ->
    start_addr <= address <= prev \/ In address (map reg_address rest).
Proof.
  unfold holds_address.
  induction rest as [| reg rest IH];
    intros prev start_addr count address Hcount Hex; simpl in Hex.
  - inversion Hex as [? ? Hrun | ? ? Hrun]; subst; simpl in *;
      [left; lia | inversion Hrun].
  - destruct (Z.eqb_spec (reg_address reg) (prev + 1)) as [Hnext | Hgap].
    + apply IH in Hex; [| lia]. destruct Hex as [Hin | Hin].
      * destruct (Z.eq_dec address (reg_address reg)) as [-> | Hne];
          [right; now left | left; lia].
      * right. now right.
    + inversion Hex as [? ? Hrun | ? ? Hrun]; subst; simpl in *;
        [left; lia |].
      apply IH in Hrun; [| lia]. destruct Hrun as [Hin | Hin].
      * right. left. lia.
      * right. now right.
Qed.

(** X18.  The block plan of [group_registers_into_blocks] reads the
    addresses of the registers and nothing else: an address is inside a
    block exactly when it is the address of one of the registers.  Every
    block has one register at least, the blocks have as many addresses as
    there are registers, and when the addresses are pairwise distinct no
    two blocks overlap or touch. *)
Theorem block_plan_addresses (registers : list RegisterConfig) :
  let blocks := group_registers_into_blocks registers in
  (forall address,
     Exists (holds_address address) blocks
     <-> In address (map reg_address registers))
  /\ Forall (fun run => 1 <= snd run) blocks
  /\ run_sizes blocks = Z.of_nat (length registers)
  /\ (NoDup (map reg_address registers) -> separated blocks).
Proof.
  intros blocks.
  destruct (blocks_guarantees registers) as (Hsize & _ & Hcover & Hsep).
  fold blocks in Hsize, Hcover, Hsep.
  split; [| split; [| split; [exact Hsize | exact Hsep]]].
  - intros address. split.
    + intros Hex. subst blocks. unfold group_registers_into_blocks in Hex.
      pose proof (sorted_by_perm reg_address registers) as Hperm.
      destruct (sorted_by reg_address registers) as [| first rest];
        [inversion Hex |].
      apply blocks_loop_reads in Hex; [| lia].
      eapply Permutation_in;
        [apply Permutation_map; exact Hperm |].
      simpl. destruct Hex as [Hfirst | Hrest]; [left; lia | now right].
    + intros Hin. apply in_map_iff in Hin as (reg & <- & Hreg).
      rewrite Forall_forall in Hcover. now apply Hcover.
  - subst blocks. unfold group_registers_into_blocks.
    destruct (sorted_by reg_address registers) as [| first rest];
      [constructor |].
    apply blocks_loop_counts. lia.
Qed.

(** X19.  The block plan does not depend on the order in which the
    registers are listed: two lists with the same registers, in whatever
    order, get the same blocks. *)
Theorem block_plan_order_independent (registers registers' : list RegisterConfig) :
  Permutation registers registers' ->
  group_registers_into_blocks registers
  = group_registers_into_blocks registers'.
Proof.
  intros Hperm.
  assert (Hsorted :
    map reg_address (sorted_by reg_address registers)
    = map reg_address (sorted_by reg_address registers')).
  { rewrite <- !(sorted_by_map reg_address reg_address (fun a => a))
      by reflexivity.
    apply sorted_addresses_perm. now apply Permutation_map. }
  unfold group_registers_into_blocks.
  destruct (sorted_by reg_address registers) as [| first rest],
    (sorted_by reg_address registers') as [| first' rest'];
    try discriminate; [reflexivity |].
  simpl in Hsorted. injection Hsorted as -> Hrest.
  now apply blocks_loop_addresses.
Qed.

Lemma block_plan_order_independent_witness :
  Permutation s4_registers (rev s4_registers)
  /\ group_registers_into_blocks s4_registers
     = group_registers_into_blocks (rev s4_registers).
Proof.
  assert (H : Permutation s4_registers (rev s4_registers))
    by apply Permutation_rev.
  split; [exact H |].
  exact (block_plan_order_independent s4_registers (rev s4_registers) H).
Defined.

End BlockPlan.

Section DeviceLoop.

Import PortManager.

Lemma record_polls_app (st : PortStatistics.t) (calls1 calls2 : list call) :
  record_polls (record_polls st calls1) calls2
  = record_polls st (calls1 ++ calls2).
Proof. unfold record_polls. now rewrite fold_left_app. Qed.

Lemma record_polls_monotone (calls : list call) (st : PortStatistics.t) :
  counters_le st (record_polls st calls).
Proof.
  revert st. induction calls as [| c calls IH]; intros st; simpl.
  - unfold counters_le. lia.
  - pose proof (record_poll_monotone st c) as H1.
    pose proof (IH (record_call st c)) as H2.
    unfold counters_le in *. lia.
Qed.

(** What the device loop does to the statistics is a session of
    [record_poll] calls, each for an enabled device of the list. *)
Lemma poll_devices_session (now : Q) (devices : list DeviceConfig) :
  forall (polls : list (bool * poll_outcome)) (st : runner),
  exists calls,
    statistics (flow_state (poll_devices now devices polls st))
    = record_polls (statistics st) calls
    /\ Forall
         (fun c =>
            exists device_config,
              In device_config devices
              /\ dev_enabled device_config = true
              /\ call_device c = dev_name device_config)
         calls.
Proof.
  induction devices as [| d devices IH]; intros polls st.
  { exists []. split; [reflexivity | constructor]. }
  assert (Hlift :
    forall st' calls',
      (exists calls,
         statistics (flow_state (poll_devices now devices (tl polls) st'))
         = record_polls (statistics st') calls
         /\ Forall
              (fun c =>
                 exists device_config,
                   In device_config devices
                   /\ dev_enabled device_config = true
                   /\ call_device c = dev_name device_config) calls) ->
      statistics st' = record_polls (statistics st) calls' ->
      Forall
        (fun c =>
           exists device_config,
             In device_config (d :: devices)
             /\ dev_enabled device_config = true
             /\ call_device c = dev_name device_config) calls' ->
      exists calls,
        statistics (flow_state (poll_devices now devices (tl polls) st'))
        = record_polls (statistics st) calls
        /\ Forall
             (fun c =>
                exists device_config,
                  In device_config (d :: devices)
                  /\ dev_enabled device_config = true
                  /\ call_device c = dev_name device_config) calls).
  { intros st' calls' (calls & Hstat & Hall) Hst' Hall'.
    exists (calls' ++ calls)%list. split.
    - rewrite Hstat, Hst'. apply record_polls_app.
    - apply Forall_app. split; [exact Hall' |].
      eapply Forall_impl; [| exact Hall].
      intros c (dc & Hin & Hen & Hname). exists dc.
      split; [now right | now split]. }
  simpl. destruct (hd (true, NoData) polls) as [running outcome].
  destruct running; simpl.
  2: { exists []. split; [reflexivity | constructor]. }
  destruct (dev_enabled d) eqn:Hen; simpl.
  2: { apply (Hlift st []); [apply IH | reflexivity | constructor]. }
  destruct outcome as [poll_time_ms | | |].
  - eapply (Hlift _ [ {| call_now := now; call_device := dev_name d;
                         call_success := true;
                         call_response_time :=
                           (poll_time_ms / inject_Z 1000)%Q |} ]);
      [apply IH | reflexivity |].
    repeat constructor. exists d. split; [now left | now split].
  - apply (Hlift _ []); [apply IH | reflexivity | constructor].
  - eapply (Hlift _ [ {| call_now := now; call_device := dev_name d;
                         call_success := false;
                         call_response_time := 0%Q |} ]);
      [apply IH | reflexivity |].
    repeat constructor. exists d. split; [now left | now split].
  - exists []. split; [reflexivity | constructor].
Qed.

Lemma connect_statistics (env : pass_env) (st : runner) :
  statistics (flow_state (connect env st)) = statistics st.
Proof.
  unfold connect.
  destruct (have_client st), (env_connected env), (env_connect env);
    reflexivity.
Qed.

Lemma pass_session (port_config : PortConfig) (env : pass_env) (st : runner) :
  exists calls,
    statistics (flow_state (pass port_config env st))
    = record_polls (statistics st) calls
    /\ Forall (polled_device port_config) calls.
Proof.
  unfold pass.
  pose proof (connect_statistics env st) as Hconnect.
  destruct (connect env st) as [st1 | st1 | st1]; simpl in Hconnect;
    try (exists []; split; [exact Hconnect | constructor]).
  destruct (poll_devices_session (env_now env) (port_devices port_config)
              (env_polls env) (set_retry_count st1 0))
    as (calls & Hstat & Hall).
  exists calls. split; [| exact Hall].
  simpl in Hstat. rewrite Hconnect in Hstat.
  destruct (poll_devices _ _ _ _) as [st2 | st2 | st2]; simpl in Hstat;
    try exact Hstat.
  destruct (_ =? 0); destruct (adjust_polling_interval port_config)
    as [[| delay | cycle_time min_interval] | e]; exact Hstat.
Qed.

Lemma on_exception_statistics (port_config : PortConfig) (st : runner) :
  statistics (on_exception port_config st) = statistics st.
Proof. unfold on_exception. destruct (_ <? _); reflexivity. Qed.

Lemma poll_loop_session (port_config : PortConfig) (envs : nat -> pass_env)
    (fuel : nat) :
  forall (i : nat) (st st' : runner),
    poll_loop fuel port_config envs i st = Some st' ->
    exists calls,
      statistics st' = record_polls (statistics st) calls
      /\ Forall (polled_device port_config) calls.
Proof.
  induction fuel as [| fuel IH]; intros i st st' Hrun; [discriminate |].
  simpl in Hrun.
  destruct (env_running (envs i) && _).
  2: { injection Hrun as <-. exists []. split; [reflexivity | constructor]. }
  destruct (pass_session port_config (envs i) st) as (calls1 & Hstat1 & Hall1).
  assert (Hjoin :
    forall st1,
      statistics st1 = record_polls (statistics st) calls1 ->
      poll_loop fuel port_config envs (S i) st1 = Some st' ->
      exists calls,
        statistics st' = record_polls (statistics st) calls
        /\ Forall (polled_device port_config) calls).
  { intros st1 Hst1 Hrest.
    destruct (IH _ _ _ Hrest) as (calls2 & Hstat2 & Hall2).
    exists (calls1 ++ calls2)%list. split.
    - rewrite Hstat2, Hst1. apply record_polls_app.
    - apply Forall_app. now split. }
  destruct (pass port_config (envs i) st) as [st1 | st1 | st1];
    simpl in Hstat1.
  - now apply (Hjoin st1).
  - apply (Hjoin (on_exception port_config st1)); [| exact Hrun].
    now rewrite on_exception_statistics.
  - injection Hrun as <-. exists calls1. now split.
Qed.

Lemma finish_statistics (port_config : PortConfig) (st : runner) :
  statistics (finish port_config st) = statistics st.
Proof.
  unfold finish. destruct (have_client st); simpl;
    destruct (_ <=? _); reflexivity.
Qed.

(** X20.  What a run of [poll_port] does to the statistics of its port
    is a session of [record_poll] calls, each made for an enabled device
    of the port: no counter goes down during the run, and a window of
    positive latencies stays one. *)
Theorem poll_port_statistics (fuel : nat) (port_config : PortConfig)
    (envs : nat -> pass_env) (have : bool) (stats : PortStatistics.t)
    (st : runner) :
  poll_port_body fuel port_config envs have stats = Some st ->
  exists calls,
    statistics st = record_polls stats calls
    /\ Forall (polled_device port_config) calls
    /\ counters_le stats (statistics st)
    /\ (window_positive stats -> window_positive (statistics st)).
Proof.
  unfold poll_port_body. intros Hrun.
  destruct (poll_loop fuel port_config envs 0 (start have stats))
    as [st0 |] eqn:Hloop; [| discriminate].
  injection Hrun as <-.
  destruct (poll_loop_session _ _ _ _ _ _ Hloop) as (calls & Hstat & Hall).
  simpl in Hstat. rewrite finish_statistics, Hstat.
  exists calls. split; [reflexivity |]. split; [exact Hall |].
  split; [apply record_polls_monotone | apply record_polls_window_positive].
Qed.

Lemma poll_port_statistics_witness :
  exists st,
    poll_port_body 2 one_device_port one_pass false
      (PortStatistics.init "port1") = Some st
    /\ exists calls,
         statistics st = record_polls (PortStatistics.init "port1") calls
         /\ Forall (polled_device one_device_port) calls
         /\ counters_le (PortStatistics.init "port1") (statistics st).
Proof.
  eexists. split; [vm_compute; reflexivity |].
  destruct (poll_port_statistics 2 one_device_port one_pass false
              (PortStatistics.init "port1") _ eq_refl)
    as (calls & Hstat & Hall & Hle & _).
  exists calls. split; [exact Hstat |]. split; [exact Hall | exact Hle].
Defined.

(** The device loop over polls that return no data. *)
Lemma poll_devices_silent (now : Q) (devices : list DeviceConfig) :
  forall (polls : list (bool * poll_outcome)) (st : runner),
    Forall (fun poll => snd poll = NoData) polls ->
    exists n,
      poll_devices now devices polls st
      = Next (log st (repeat (Asleep (1 # 100)) n))
      /\ (n <= length devices)%nat.
Proof.
  assert (Hlog0 : forall st, log st [] = st).
  { intros [h r p s t]. unfold log. simpl. now rewrite app_nil_r. }
  assert (Hlog : forall st l1 l2, log (log st l1) l2 = log st (l1 ++ l2)).
  { intros st l1 l2. unfold log. simpl. now rewrite app_assoc. }
  induction devices as [| d devices IH]; intros polls st Hpolls; simpl.
  { exists 0%nat. simpl. now rewrite Hlog0. }
  assert (Htl : Forall (fun poll => snd poll = NoData) (tl polls))
    by (destruct Hpolls; [constructor | assumption]).
  assert (Hhd : snd (hd (true, NoData) polls) = NoData)
    by (destruct Hpolls; [reflexivity | assumption]).
  destruct (hd (true, NoData) polls) as [running outcome].
  simpl in Hhd. subst outcome.
  destruct running; simpl.
  2: { exists 0%nat. simpl. rewrite Hlog0. split; [reflexivity | lia]. }
  destruct (dev_enabled d); simpl.
  - destruct (IH (tl polls) (log st [Asleep (1 # 100)]) Htl) as (n & Hn & Hle).
    exists (S n). rewrite Hn, Hlog. split; [reflexivity | lia].
  - destruct (IH (tl polls) st Htl) as (n & Hn & Hle).
    exists n. split; [exact Hn | lia].
Qed.

(** X21.  A poll that returns no data is not recorded: when every poll
    of a cycle returns [None], the device loop falls through with the
    statistics as they were, neither a success nor a failure counted,
    and all it did was to sleep 10 ms after each poll. *)
Theorem empty_polls_not_recorded (now : Q) (devices : list DeviceConfig)
    (polls : list (bool * poll_outcome)) (st : runner) :
  Forall (fun poll => snd poll = NoData) polls ->
  exists st',
    poll_devices now devices polls st = Next st'
    /\ statistics st' = statistics st
    /\ retry_count st' = retry_count st
    /\ Forall (fun e => e = Asleep (1 # 100)) (new_events st st')
    /\ (length (new_events st st') <= length devices)%nat.
Proof.
  intros Hpolls.
  destruct (poll_devices_silent now devices polls st Hpolls) as (n & Hn & Hle).
  exists (log st (repeat (Asleep (1 # 100)) n)).
  split; [exact Hn |]. split; [reflexivity |]. split; [reflexivity |].
  rewrite new_events_log. split.
  - apply Forall_forall. intros e He. now apply repeat_spec in He.
  - now rewrite repeat_length.
Qed.

Lemma empty_polls_not_recorded_witness :
  let st := start true (PortStatistics.init "port1") in
  exists st',
    poll_devices 1 (port_devices one_device_port) [(true, NoData)] st
    = Next st'
    /\ statistics st' = statistics st
    /\ new_events st st' = [Asleep (1 # 100)].
Proof.
  intros st.
  destruct (empty_polls_not_recorded 1 (port_devices one_device_port)
              [(true, NoData)] st)
    as (st' & Hrun & Hstat & _).
  { repeat constructor. }
  exists st'. split; [exact Hrun |]. split; [exact Hstat |].
  vm_compute in Hrun. injection Hrun as <-. reflexivity.
Defined.

(** A pass over a port whose devices are all disabled. *)
Lemma pass_no_enabled_device (port_config : PortConfig) (env : pass_env)
    (st : runner) :
  port_devices port_config <> [] ->
  Forall (fun d => dev_enabled d = false) (port_devices port_config) ->
  env_connect env = Connected ->
  exists st',
    pass port_config env st = Failed st'
    /\ retry_count st' = 0
    /\ statistics st' = statistics st.
Proof.
  intros Hdevs Hoff Hconn.
  assert (Hadjust : adjust_polling_interval port_config = Raise MinOfEmpty).
  { unfold adjust_polling_interval.
    destruct (port_devices port_config) as [| d ds] eqn:E; [congruence |].
    replace (List.filter dev_enabled (d :: ds)) with ([] : list DeviceConfig);
      [reflexivity |].
    symmetry. clear Hdevs E.
    induction Hoff as [| x l Hx _ IH]; [reflexivity |].
    simpl. now rewrite Hx. }
  assert (Hloop : forall polls st0,
            exists st1, poll_devices (env_now env) (port_devices port_config)
                          polls st0 = Next st1
                        /\ retry_count st1 = retry_count st0
                        /\ statistics st1 = statistics st0).
  { clear Hdevs Hadjust.
    induction Hoff as [| x l Hx _ IH]; intros polls st0; simpl.
    - now exists st0.
    - destruct (hd (true, NoData) polls) as [running outcome].
      destruct running; simpl; [| now exists st0].
      rewrite Hx. simpl. apply IH. }
  unfold pass.
  assert (Hconnect : exists st1, connect env st = Next st1
                                 /\ statistics st1 = statistics st).
  { unfold connect. rewrite Hconn.
    destruct (have_client st), (env_connected env); simpl;
      eexists; split; reflexivity. }
  destruct Hconnect as (st1 & -> & Hst1).
  destruct (Hloop (env_polls env) (set_retry_count st1 0))
    as (st2 & -> & Hretry & Hst2).
  rewrite Hadjust. simpl in Hretry, Hst2.
  destruct (_ =? 0); eexists; (split; [reflexivity |]); simpl;
    (split; [exact Hretry | congruence]).
Qed.

(** X22.  A port that has devices, all of them disabled, and allows two
    attempts or more never stops by itself: every pass connects, polls
    nothing and fails in [adjust_polling_interval], which counts as a
    first failed attempt and is followed by a sleep of [retry_delay];
    the next connection resets the count.  While the loop is not
    stopped, [poll_port] does not return, however many passes it is
    given. *)
Theorem disabled_devices_never_settle (port_config : PortConfig)
    (envs : nat -> pass_env) :
  port_devices port_config <> [] ->
  Forall (fun d => dev_enabled d = false) (port_devices port_config) ->
  2 <= port_max_retries port_config ->
  (forall i, env_running (envs i) = true /\ env_connect (envs i) = Connected) ->
  (forall i st,
     exists st',
       pass port_config (envs i) st = Failed st'
       /\ statistics st' = statistics st
       /\ retry_count (on_exception port_config st') = 1
       /\ new_events st' (on_exception port_config st')
          = [Asleep (port_retry_delay port_config)])
  /\ forall fuel have stats,
       poll_port fuel port_config envs have stats = None.
Proof.
  intros Hdevs Hoff Hmax Henv.
  assert (Hpass : forall i st,
            exists st',
              pass port_config (envs i) st = Failed st'
              /\ statistics st' = statistics st
              /\ retry_count (on_exception port_config st') = 1
              /\ new_events st' (on_exception port_config st')
                 = [Asleep (port_retry_delay port_config)]).
  { intros i st.
    destruct (pass_no_enabled_device port_config (envs i) st Hdevs Hoff
                (proj2 (Henv i))) as (st' & Hrun & Hretry & Hstat).
    exists st'. split; [exact Hrun |]. split; [exact Hstat |].
    unfold on_exception. simpl. rewrite Hretry.
    destruct (Z.ltb_spec (0 + 1) (port_max_retries port_config)); [| lia].
    split; [reflexivity |].
    apply (new_events_log (set_retry_count st' (0 + 1))). }
  split; [exact Hpass |].
  assert (Hloop : forall fuel i st,
            retry_count st < port_max_retries port_config ->
            poll_loop fuel port_config envs i st = None).
  { induction fuel as [| fuel IH]; intros i st Hretry; [reflexivity |].
    simpl. rewrite (proj1 (Henv i)).
    destruct (Z.ltb_spec (retry_count st) (port_max_retries port_config));
      [| lia].
    simpl. destruct (Hpass i st) as (st' & -> & _ & Hone & _).
    apply IH. lia. }
  intros fuel have stats. unfold poll_port, poll_port_body.
  rewrite Hloop; [reflexivity | simpl; lia].
Qed.

Lemma disabled_devices_never_settle_witness :
  poll_port 50 idle_port (fun _ => answering) false
    (PortStatistics.init "port1") = None.
Proof.
  apply (disabled_devices_never_settle idle_port (fun _ => answering)).
  - discriminate.
  - repeat constructor.
  - simpl. lia.
  - intros i. split; reflexivity.
Defined.

End DeviceLoop.

Section WriteBuffer.

Import PortManager.

Context {D : Type}.

Lemma add_to_buffer_below (now : Q) (task : nat) (self : buffer D) (x : D) :
  lock self = None ->
  Z.of_nat (length (data_buffer self)) + 1 < buffer_size self ->
  add_to_buffer now task self x
  = Done {| data_buffer := (data_buffer self ++ [x])%list;
            buffer_size := buffer_size self; last_flush := last_flush self;
            lock := None; saved := saved self |}.
Proof.
  intros Hlock Hsize. unfold add_to_buffer. rewrite Hlock.
  cbn [data_buffer buffer_size].
  rewrite length_app, Nat2Z.inj_add. simpl length.
  destruct (Z.leb_spec (buffer_size self)
              (Z.of_nat (length (data_buffer self)) + Z.of_nat 1)); [lia |].
  reflexivity.
Qed.

Lemma add_all_below (now : Q) (task : nat) (items : list D) :
  forall self : buffer D,
    lock self = None ->
    Z.of_nat (length (data_buffer self ++ items)) < buffer_size self ->
    add_all now task self items
    = Done {| data_buffer := (data_buffer self ++ items)%list;
              buffer_size := buffer_size self; last_flush := last_flush self;
              lock := None; saved := saved self |}.
Proof.
  induction items as [| x items IH]; intros self Hlock Hsize.
  - simpl. rewrite app_nil_r. destruct self; simpl in *. now subst.
  - rewrite length_app in Hsize. simpl in Hsize.
    simpl. rewrite add_to_buffer_below; [| assumption | lia].
    rewrite IH; cbn [data_buffer buffer_size last_flush lock saved].
    + now rewrite <- app_assoc.
    + reflexivity.
    + rewrite <- app_assoc, length_app. simpl. lia.
Qed.

(** X23.  Below its size the write buffer keeps every sample: the
    samples a task adds one after the other, while the lock is free and
    the buffer stays below [buffer_size], are appended in their order
    and none is saved yet; the next [flush_buffer] hands all of them to
    the database as one batch, in that order, and leaves the buffer
    empty with the lock free. *)
Theorem buffer_keeps_order (now now' : Q) (task task' : nat)
    (self : buffer D) (items : list D) :
  lock self = None ->
  Z.of_nat (length (data_buffer self ++ items)) < buffer_size self ->
  exists self',
    add_all now task self items = Done self'
    /\ data_buffer self' = (data_buffer self ++ items)%list
    /\ lock self' = None
    /\ saved self' = saved self
    /\ (data_buffer self' <> [] ->
        exists flushed,
          flush_buffer now' task' self' = Done flushed
          /\ data_buffer flushed = []
          /\ lock flushed = None
          /\ last_flush flushed = now'
          /\ saved flushed
             = (saved self ++ [(data_buffer self ++ items)%list])%list)
    /\ (data_buffer self' = [] -> flush_buffer now' task' self' = Done self').
Proof.
  intros Hlock Hsize. eexists. split; [now apply add_all_below |].
  cbn [data_buffer lock saved]. repeat (split; [reflexivity |]). split.
  - intros Hne. unfold flush_buffer. cbn [data_buffer lock saved buffer_size].
    destruct (data_buffer self ++ items)%list as [| y l] eqn:E;
      [congruence |].
    eexists. split; [reflexivity |]. cbn. repeat split; reflexivity.
  - intros Hnil. unfold flush_buffer. cbn [data_buffer]. now rewrite Hnil.
Qed.

(** X24.  A buffer that reaches its size blocks: the [add_to_buffer]
    that brings the buffer to [buffer_size] calls [flush_buffer] while
    it holds the lock, and [flush_buffer] awaits the same lock.  The
    call does not return; nothing is flushed; and as long as it waits,
    every other [add_to_buffer] and every [flush_buffer] waits as
    well. *)
Theorem full_buffer_blocks (now : Q) (task : nat) (self : buffer D)
    (device_data : D) :
  lock self = None ->
  buffer_size self <= Z.of_nat (length (data_buffer self)) + 1 ->
  exists self',
    add_to_buffer now task self device_data = Waiting self'
    /\ lock self' = Some task
    /\ data_buffer self' = (data_buffer self ++ [device_data])%list
    /\ saved self' = saved self
    /\ (forall now' task' other,
          add_to_buffer now' task' self' other = Waiting self')
    /\ (forall now' task', flush_buffer now' task' self' = Waiting self').
Proof.
  intros Hlock Hsize. unfold add_to_buffer at 1. rewrite Hlock.
  cbn [data_buffer buffer_size].
  rewrite length_app, Nat2Z.inj_add. simpl length.
  destruct (Z.leb_spec (buffer_size self)
              (Z.of_nat (length (data_buffer self)) + Z.of_nat 1)); [| lia].
  unfold flush_buffer at 1. cbn [data_buffer lock].
  destruct (data_buffer self ++ [device_data])%list as [| y l] eqn:E.
  { now apply app_eq_nil in E as [_ E]. }
  eexists. split; [reflexivity |]. cbn [lock data_buffer saved].
  repeat (split; [reflexivity |]). intros now' task'. reflexivity.
Qed.

End WriteBuffer.

Lemma buffer_keeps_order_witness :
  exists self',
    add_all 1 0%nat (new_buffer 1000) [4%nat; 5%nat; 6%nat]
    = PortManager.Done self'
    /\ PortManager.data_buffer self' = [4%nat; 5%nat; 6%nat]
    /\ exists flushed,
         PortManager.flush_buffer 2 1%nat self' = PortManager.Done flushed
         /\ PortManager.saved flushed = [[4%nat; 5%nat; 6%nat]].
Proof.
  destruct (buffer_keeps_order 1 2 0%nat 1%nat (new_buffer 1000)
              [4%nat; 5%nat; 6%nat] eq_refl eq_refl)
    as (self' & Hadd & Hdata & _ & _ & Hflush & _).
  exists self'. split; [exact Hadd |]. split; [exact Hdata |].
  destruct Hflush as (flushed & Hrun & _ & _ & _ & Hsaved).
  { rewrite Hdata. discriminate. }
  exists flushed. split; [exact Hrun | exact Hsaved].
Defined.

Lemma full_buffer_blocks_witness :
  exists self',
    PortManager.add_to_buffer 1 0%nat (new_buffer 1) 4%nat
    = PortManager.Waiting self'
    /\ PortManager.lock self' = Some 0%nat
    /\ PortManager.saved self' = []
    /\ PortManager.flush_buffer 6 1%nat self' = PortManager.Waiting self'.
Proof.
  destruct (full_buffer_blocks 1 0%nat (new_buffer 1) 4%nat eq_refl)
    as (self' & Hadd & Hlock & _ & Hsaved & _ & Hflush).
  { simpl. lia. }
  exists self'. split; [exact Hadd |]. split; [exact Hlock |].
  split; [exact Hsaved | exact (Hflush 6%Q 1%nat)].
Defined.

Section Ports.

Import PortManager.

Lemma set_port_configs_lookup (port_stats : gmap string PortStatistics.t)
    (port_configs : gmap string PortConfig) (port_name : string) :
  set_port_configs port_stats port_configs !! port_name
  = match port_configs !! port_name with
    | Some _ => Some (PortStatistics.init port_name)
    | None => port_stats !! port_name
    end.
Proof.
  unfold set_port_configs. revert port_name.
  apply (map_fold_weak_ind
           (fun (r : gmap string PortStatistics.t)
                (m : gmap string PortConfig) =>
              forall port_name,
                r !! port_name
                = match m !! port_name with
                  | Some _ => Some (PortStatistics.init port_name)
                  | None => port_stats !! port_name
                  end)).
  - intros port_name. now rewrite lookup_empty.
  - intros i x m r Hi IH port_name.
    destruct (decide (i = port_name)) as [-> | Hne].
    + now rewrite !lookup_insert_eq.
    + rewrite !lookup_insert_ne by assumption. apply IH.
Qed.

(** X25.  After [set_port_configs], [get_all_ports_status] reports the
    configured ports and no others, each of them as disconnected with
    the statistics of a new recorder, whatever was recorded for a port
    of that name before; a port that is not configured is left out even
    when statistics are kept for it. *)
Theorem configured_ports_start_disconnected
    (port_stats : gmap string PortStatistics.t)
    (port_configs : gmap string PortConfig) (port_name : string) :
  get_all_ports_status port_configs (set_port_configs port_stats port_configs)
    !! port_name
  = match port_configs !! port_name with
    | Some _ =>
        Some (StatusOf DISCONNECTED
                (PortStatistics.get_stats (PortStatistics.init port_name)))
    | None => None
    end.
Proof.
  unfold get_all_ports_status. rewrite map_lookup_imap.
  destruct (port_configs !! port_name) as [port_config |] eqn:Hconfig;
    [| reflexivity].
  simpl. unfold get_port_status.
  rewrite set_port_configs_lookup, Hconfig. reflexivity.
Qed.

End Ports.
